(** * Epstein List Highlighter: the content script, embedded and verified

    A shallow embedding of [content.js] (the two-partition content script)
    and of its older single-list variant.  The embedding follows the script
    top to bottom: code units and the built-in string operations it calls,
    the pattern source built by [makePattern], the [RegExp] constructor and
    matcher on the syntax such sources use, the anchor maps, the per-node
    highlighter, the subtree walker and the mutation observer callback.

    Strings are sequences of code units; the development covers code units
    below 256 (the Latin-1 range), on which the case maps and the white
    space class below are the ones of ECMAScript.  Patterns are those the
    script builds, with the flags it passes ([gi] and [g]).  The document
    is one that is not in quirks mode, where a class selector compares
    class names letter for letter. *)

From Stdlib Require Import Ascii String.
From stdpp Require Import base option list gmap strings.

Abbreviation str := (list ascii).

(** A string literal as a sequence of code units. *)
Definition lit (s : string) : str := list_ascii_of_string s.

(** ** Code units *)

Definition code (c : ascii) : N := N_of_ascii c.

Definition between (lo hi : N) (c : ascii) : bool :=
  ((lo <=? code c) && (code c <=? hi))%N.

(** WhiteSpace and LineTerminator code points below 256: TAB, LF, VT, FF,
    CR, SP and NBSP.  Both [\s] and [String.prototype.trim] use this set. *)
Definition isWhiteSpace (c : ascii) : bool :=
  between 9 13 c || (code c =? 32)%N || (code c =? 160)%N.

(** [String.prototype.toLowerCase] on one code unit: A-Z and the accented
    capitals U+00C0..U+00DE except the multiplication sign U+00D7. *)
Definition lowerChar (c : ascii) : ascii :=
  if between 65 90 c || (between 192 222 c && negb (code c =? 215)%N)
  then ascii_of_N (code c + 32) else c.

(** [toUpperCase] on one code unit, as the matcher's Canonicalize uses it
    without the unicode flag.  The upper-case forms of U+00B5 and U+00FF lie
    above 255 and are the image of no other code unit below 256, and U+00DF
    maps to two code units and is left alone by Canonicalize: the three are
    their own representatives here. *)
Definition upperChar (c : ascii) : ascii :=
  if between 97 122 c || (between 224 254 c && negb (code c =? 247)%N)
  then ascii_of_N (code c - 32) else c.

Definition Canonicalize (ignoreCase : bool) (c : ascii) : ascii :=
  if ignoreCase then upperChar c else c.

(** [s.toLowerCase()] for a string of code units below 256. *)
Definition toLowerCase (s : str) : str := map lowerChar s.

(** ** String built-ins used by the script *)

(** [s.trim()] *)
Fixpoint trimStart (s : str) : str :=
  match s with
  | c :: s' => if isWhiteSpace c then trimStart s' else s
  | [] => []
  end.

Definition trimEnd (s : str) : str := rev (trimStart (rev s)).

Definition trim (s : str) : str := trimEnd (trimStart s).

(** [s.replace(/\s+/g, " ")]: every maximal run of white space becomes one
    space; [inRun] tells that the previous code unit was white space. *)
Fixpoint collapseFrom (inRun : bool) (s : str) : str :=
  match s with
  | [] => []
  | c :: s' =>
      if isWhiteSpace c
      then (if inRun then collapseFrom true s'
            else " "%char :: collapseFrom true s')
      else c :: collapseFrom false s'
  end.

Definition collapseWhiteSpace (s : str) : str := collapseFrom false s.

(** [s.slice(a, b)] and [s.slice(a)] for [0 <= a]. *)
Definition slice (s : str) (a b : nat) : str := take (b - a) (drop a s).
Definition sliceFrom (s : str) (a : nat) : str := drop a s.

(** [parts.join(sep)] *)
Fixpoint join (sep : str) (parts : list str) : str :=
  match parts with
  | [] => []
  | [p] => p
  | p :: ps => p ++ sep ++ join sep ps
  end.

(** ** The dataset *)

Record NameEntry := { name : str; anchor : str }.

(** ** Helpers *)

(** The class [[.*+?^${}()|[\]\\]] of [escapeRegex]: the syntax characters
    of a pattern. *)
Definition isSyntaxCharacter (c : ascii) : bool :=
  bool_decide (c ∈ lit ".*+?^${}()|[]\").

(** [str.replace(/[.*+?^${}()|[\]\\]/g, "\\$&")] *)
Definition escapeRegex (s : str) : str :=
  flat_map (fun c => if isSyntaxCharacter c then ["\"%char; c] else [c]) s.

(** [s.replace(/ /g, "\\s+")], the replacement of [makePattern]. *)
Definition replaceSpaces (s : str) : str :=
  flat_map (fun c => if Ascii.eqb c " " then lit "\s+" else [c]) s.

(** [[...nameList].sort((a, b) => b.name.length - a.name.length)]: the
    sort is stable, so entries of equal length keep the order of the list.
    [insertByLength e l] places [e], which precedes all of [l] in the list,
    after the strictly longer names. *)
Fixpoint insertByLength (e : NameEntry) (l : list NameEntry) : list NameEntry :=
  match l with
  | [] => [e]
  | y :: l' =>
      if length (name e) <? length (name y)
      then y :: insertByLength e l'
      else e :: l
  end.

Definition sortByLengthDesc (l : list NameEntry) : list NameEntry :=
  foldr insertByLength [] l.

(** The source text handed to [new RegExp] by [makePattern]. *)
Definition patternSource (nameList : list NameEntry) : str :=
  lit "(" ++
  join (lit "|")
    (map (fun e => replaceSpaces (escapeRegex (name e)))
         (sortByLengthDesc nameList)) ++
  lit ")".

(** ** Regular expressions

    The sources built by the script use a small part of the pattern
    syntax: one capturing group around a disjunction whose alternatives are
    sequences of pattern characters, identity escapes of syntax characters
    and the class escape [\s], each optionally followed by [+].  [newRegExp]
    accepts that part; [None] stands for a source outside it. *)

Inductive atom :=
| AChar (c : ascii)     (* a pattern character or an identity escape *)
| AWhite.               (* the class escape \s *)

Inductive term :=
| TAtom (a : atom)
| TPlus (a : atom).     (* a greedy + *)

Record RegExp := {
  alternatives : list (list term);
  global : bool;
  ignoreCase : bool
}.

(** The body of the group, read left to right.  [cur] holds the terms of the
    alternative being read and [seen] the finished alternatives, both last
    first. *)
Fixpoint parseDisjunction (src : str) (cur : list term)
    (seen : list (list term)) : option (list (list term)) :=
  match src with
  | [] => None
  | c :: rest =>
      if Ascii.eqb c ")" then
        match rest with
        | [] => Some (rev (rev cur :: seen))
        | _ => None
        end
      else if Ascii.eqb c "|" then parseDisjunction rest [] (rev cur :: seen)
      else if Ascii.eqb c "+" then
        match cur with
        | TAtom a :: cur' => parseDisjunction rest (TPlus a :: cur') seen
        | _ => None
        end
      else if Ascii.eqb c "\" then
        match rest with
        | e :: rest' =>
            if Ascii.eqb e "s"
            then parseDisjunction rest' (TAtom AWhite :: cur) seen
            else if isSyntaxCharacter e
            then parseDisjunction rest' (TAtom (AChar e) :: cur) seen
            else None
        | [] => None
        end
      else if isSyntaxCharacter c then None
      else parseDisjunction rest (TAtom (AChar c) :: cur) seen
  end.

(** [new RegExp(src, flags)] for the sources and the flags of the script.
    Of the flags only [g] and [i] are read; the script passes ["gi"] and
    ["g"].  A flags string that [RegExp] refuses, with an unknown or a
    repeated flag, is not told apart here. *)
Definition newRegExp (src flags : str) : option RegExp :=
  match src with
  | c :: body =>
      if Ascii.eqb c "(" then
        alts ← parseDisjunction body [] [];
        Some {| alternatives := alts;
                global := bool_decide ("g"%char ∈ flags);
                ignoreCase := bool_decide ("i"%char ∈ flags) |}
      else None
  | [] => None
  end.

Definition makePattern (nameList : list NameEntry) (flags : str) : option RegExp :=
  newRegExp (patternSource nameList) flags.

(** *** Matching *)

Definition atomMatches (ic : bool) (a : atom) (x : ascii) : bool :=
  match a with
  | AChar c => bool_decide (Canonicalize ic c = Canonicalize ic x)
  | AWhite => isWhiteSpace (Canonicalize ic x)
  end.

(** [matchTerms ic ts s] runs the backtracking matcher of one alternative at
    the start of [s] and returns the number of code units of the first
    successful path.  A [+] takes as many repetitions as it can and gives
    them back one at a time while the rest of the alternative fails. *)
Fixpoint matchTerms (ic : bool) (ts : list term) : str → option nat :=
  match ts with
  | [] => fun _ => Some 0
  | TAtom a :: ts' => fun s =>
      match s with
      | x :: s' => if atomMatches ic a x then S <$> matchTerms ic ts' s' else None
      | [] => None
      end
  | TPlus a :: ts' =>
      let continue := matchTerms ic ts' in
      fix plus (s : str) : option nat :=
        match s with
        | x :: s' =>
            if atomMatches ic a x then
              match plus s' with
              | Some n => Some (S n)
              | None => S <$> continue s'
              end
            else None
        | [] => None
        end
  end.

(** A disjunction tries its alternatives from left to right. *)
Fixpoint matchAlternatives (ic : bool) (alts : list (list term)) (s : str) : option nat :=
  match alts with
  | [] => None
  | ts :: alts' =>
      match matchTerms ic ts s with
      | Some n => Some n
      | None => matchAlternatives ic alts' s
      end
  end.

(** The search loop of RegExpBuiltinExec: [s] is the text from index [i]
    on; the result is the index and the length of the leftmost match. *)
Fixpoint search (re : RegExp) (s : str) (i : nat) : option (nat * nat) :=
  match matchAlternatives (ignoreCase re) (alternatives re) s with
  | Some n => Some (i, n)
  | None =>
      match s with
      | [] => None
      | _ :: s' => search re s' (S i)
      end
  end.

(** [re.exec(text)] with [re.lastIndex = lastIndex]: the match (its index
    and the text of capture group 1, which is the whole match) or [None]
    for null, and the value left in [re.lastIndex].  The patterns of the
    script are global.  For a pattern that is not, the search starts at 0
    and a match leaves [lastIndex] as it is; the 0 given after a failure is
    that of a global pattern. *)
Definition exec (re : RegExp) (text : str) (lastIndex : nat)
    : option (nat * str) * nat :=
  let start := if global re then lastIndex else 0 in
  if length text <? start then (None, 0)
  else
    match search re (drop start text) start with
    | None => (None, 0)
    | Some (i, n) =>
        (Some (i, take n (drop i text)), if global re then i + n else lastIndex)
    end.

(** [re.test(text)] *)
Definition test (re : RegExp) (text : str) (lastIndex : nat) : bool * nat :=
  let '(m, lastIndex') := exec re text lastIndex in (bool_decide (is_Some m), lastIndex').

(** ** The script's constants *)

Definition WIKI_BASE : str :=
  lit "https://en.wikipedia.org/wiki/List_of_people_named_in_the_Epstein_files#".

(** Tags whose children are never touched. *)
Definition SKIP_TAGS : list str :=
  map lit ["SCRIPT"; "STYLE"; "TEXTAREA"; "INPUT"; "SELECT";
           "CODE"; "PRE"; "NOSCRIPT"; "IFRAME"; "SVG"]%string.

(** Class applied to highlighted names. *)
Definition HL_CLASS : str := lit "epstein-highlight".

(** [anchorMapCI]: the keys are the lower-cased names; a later entry with
    the same key replaces the earlier one, as [Map.prototype.set] does. *)
Definition buildAnchorMapCI (l : list NameEntry) : gmap str str :=
  foldl (fun m e => <[toLowerCase (name e) := anchor e]> m) ∅ l.

(** [anchorMapCS]: the keys are the names as they are. *)
Definition buildAnchorMapCS (l : list NameEntry) : gmap str str :=
  foldl (fun m e => <[name e := anchor e]> m) ∅ l.

(** The constants in the scope of the script's functions. *)
Record Script := {
  mainPattern : RegExp;
  csPattern : option RegExp;
  anchorMapCI : gmap str str;
  anchorMapCS : gmap str str
}.

(** The top of the script, run once when it is loaded.  [EPSTEIN_LIST] is
    the global of the data file; [EPSTEIN_LIST_CASE_SENSITIVE] is [None]
    when that global is undefined.  [None] as a result stands for a pattern
    source that [new RegExp] does not take. *)
Definition loadScript (EPSTEIN_LIST : list NameEntry)
    (EPSTEIN_LIST_CASE_SENSITIVE : option (list NameEntry)) : option Script :=
  main ← makePattern EPSTEIN_LIST (lit "gi");
  cs ← match EPSTEIN_LIST_CASE_SENSITIVE with
       | Some l => if 0 <? length l then Some <$> makePattern l (lit "g")
                   else Some None
       | None => Some None
       end;
  Some {| mainPattern := main;
          csPattern := cs;
          anchorMapCI := buildAnchorMapCI EPSTEIN_LIST;
          anchorMapCS := match EPSTEIN_LIST_CASE_SENSITIVE with
                         | Some l => buildAnchorMapCS l
                         | None => ∅
                         end |}.

(** [lookupAnchor(matchedText, caseSensitive)]; [None] is undefined. *)
Definition lookupAnchor (sc : Script) (matchedText : str) (caseSensitive : bool)
    : option str :=
  let normalised := trim (collapseWhiteSpace matchedText) in
  if caseSensitive then anchorMapCS sc !! normalised
  else anchorMapCI sc !! toLowerCase normalised.

(** ** Document nodes

    [ref] is the identity under which the records of a mutation batch name a
    node of the page; a node the script creates has none, no pending record
    can name it. *)
#[local] Unset Elimination Schemes.
Inductive node :=
| Text (ref : option nat) (nodeValue : str)
| Element (ref : option nat) (tagName : str) (classList : list str)
    (attributes : list (str * str)) (childNodes : list node)
| Other (ref : option nat) (nodeType : nat).
#[local] Set Elimination Schemes.

(** [span.textContent = s] on an element without children. *)
Definition setTextContent (s : str) : list node :=
  match s with
  | [] => []
  | _ => [Text None s]
  end.

(** [createHighlight(matchedName, anchor)].  The click listener opens the
    same [url] that is stored in [dataset.epsteinUrl]. *)
Definition createHighlight (matchedName anchor : str) : node :=
  let url := WIKI_BASE ++ anchor in
  Element None (lit "SPAN") [HL_CLASS]
    [(lit "title", lit "Named in the Epstein files — click for details");
     (lit "data-epstein-url", url);
     (lit "role", lit "link");
     (lit "style", lit "cursor: pointer;")]
    (setTextContent matchedName).

(** ** Highlighting one text node with one pattern *)

(** The [while] loop of [applyPattern].  [reLastIndex] is [regex.lastIndex],
    the other arguments are the local variables of the function.  The result
    is the value returned by [applyPattern] ([None] for [false], [Some frag]
    for the fragment that replaces the text node) and the value left in
    [regex.lastIndex]; [None] as the outer result means that [fuel]
    iterations did not end the loop. *)
Fixpoint applyPatternLoop (fuel : nat) (sc : Script) (regex : RegExp)
    (caseSensitive : bool) (text : str) (reLastIndex lastIndex : nat)
    (frag : list node) (didMatch : bool) : option (option (list node) * nat) :=
  match fuel with
  | 0 => None
  | S fuel' =>
      match exec regex text reLastIndex with
      | (None, reLastIndex') =>
          if negb didMatch then Some (None, reLastIndex')
          else
            let frag :=
              if lastIndex <? length text
              then frag ++ [Text None (sliceFrom text lastIndex)] else frag in
            Some (Some frag, reLastIndex')
      | (Some (index, matchedName), reLastIndex') =>
          match lookupAnchor sc matchedName caseSensitive with
          | None | Some [] =>
              applyPatternLoop fuel' sc regex caseSensitive text
                reLastIndex' lastIndex frag didMatch
          | Some anchor =>
              let frag :=
                if lastIndex <? index
                then frag ++ [Text None (slice text lastIndex index)] else frag in
              applyPatternLoop fuel' sc regex caseSensitive text
                reLastIndex' reLastIndex'
                (frag ++ [createHighlight matchedName anchor]) true
          end
      end
  end.

(** [applyPattern(textNode, regex, caseSensitive)] on a text node whose
    value is [text], entered with [regex.lastIndex = reLastIndex]. *)
Definition applyPatternFrom (fuel : nat) (sc : Script) (regex : RegExp)
    (caseSensitive : bool) (text : str) (reLastIndex : nat)
    : option (option (list node) * nat) :=
  match test regex text reLastIndex with
  | (false, reLastIndex') => Some (None, reLastIndex')
  | (true, _) => applyPatternLoop fuel sc regex caseSensitive text 0 0 [] false
  end.

(** The result of running code that contains the loop: its value, or
    [Diverges] when the loop never exits. *)
Inductive outcome (A : Type) :=
| Done (a : A)
| Diverges.
Arguments Done {A} a.
Arguments Diverges {A}.

#[export] Instance outcome_ret : MRet outcome := @Done.
#[export] Instance outcome_bind : MBind outcome := fun A B f m =>
  match m with
  | Done a => f a
  | Diverges => Diverges
  end.
#[export] Instance outcome_fmap : FMap outcome := fun A B f m =>
  match m with
  | Done a => Done (f a)
  | Diverges => Diverges
  end.

(** [applyPattern(textNode, regex, caseSensitive)] as the script calls it:
    every finished call leaves [regex.lastIndex] at 0, the value it has
    after construction ([applyPatternFrom_lastIndex]), so every call is
    entered with 0.  Running out of [length text + 1] iterations means that
    the loop never exits ([applyPatternLoop_dichotomy]). *)
Definition applyPattern (sc : Script) (regex : RegExp) (caseSensitive : bool)
    (text : str) : outcome (option (list node)) :=
  match applyPatternFrom (S (length text)) sc regex caseSensitive text 0 with
  | Some (r, _) => Done r
  | None => Diverges
  end.

(** ** Both patterns on one text node *)

(** [highlightTextNode(textNode)]: the nodes that stand in the place of
    [textNode] afterwards, and the [caseSensitive] arguments of the calls
    of [applyPattern] made, in order. *)
Definition highlightTextNode (sc : Script) (textNode : node)
    : outcome (list bool * list node) :=
  match textNode with
  | Text _ text =>
      replaced ← applyPattern sc (mainPattern sc) false text;
      match replaced with
      | Some frag => Done ([false], frag)
      | None =>
          match csPattern sc with
          | Some cs =>
              replaced' ← applyPattern sc cs true text;
              Done ([false; true], default [textNode] replaced')
          | None => Done ([false], [textNode])
          end
      end
  | _ => Done ([], [textNode])
  end.

(** ** Walking a subtree *)

(** [acceptNode(node)] for a text node with value [nodeValue] whose parent
    element has tag [parentTag]; [insideHL] is the result of
    [parent.closest("." + HL_CLASS)]: the parent or one of its ancestors
    carries the class. *)
Definition acceptNode (parentTag : str) (insideHL : bool) (nodeValue : str) : bool :=
  if bool_decide (parentTag ∈ SKIP_TAGS) then false
  else if insideHL then false
  else if bool_decide (trim nodeValue = []) then false
  else true.

(** [processSubtree(root)].  The walker shows text nodes only, so every
    text node below [root] is filtered; [aboveHL] tells whether an ancestor
    of [root] carries the class.  The script collects the accepted text
    nodes and then replaces them one by one; a replacement changes neither
    the value, nor the parent's tag, nor the ancestors of another collected
    node, so the tree is rewritten in one descent.  The selector of
    [closest] is matched against the class names letter for letter, as in a
    document that is not in quirks mode. *)
Fixpoint processSubtree (sc : Script) (aboveHL : bool) (root : node) : outcome node :=
  match root with
  | Element r tag cls attrs kids =>
      let insideHL := aboveHL || bool_decide (HL_CLASS ∈ cls) in
      kids' ← (fix children (l : list node) : outcome (list node) :=
                 match l with
                 | [] => Done []
                 | k :: l' =>
                     new ← match k with
                           | Text _ v =>
                               if acceptNode tag insideHL v
                               then snd <$> highlightTextNode sc k
                               else Done [k]
                           | Element _ _ _ _ _ =>
                               k' ← processSubtree sc insideHL k; Done [k']
                           | Other _ _ => Done [k]
                           end;
                     rest ← children l';
                     Done (new ++ rest)
                 end) kids;
      Done (Element r tag cls attrs kids')
  | _ => Done root
  end.

(** ** The mutation observer *)

(** A change record.  Only a [childList] record carries added and removed
    nodes; they are named by their [ref]. *)
Inductive MutationRecord :=
| ChildList (added removed : list nat)
| CharacterData (target : nat)
| Attributes (target : nat) (attributeName : str).

Definition addedNodes (m : MutationRecord) : list nat :=
  match m with
  | ChildList added _ => added
  | _ => []
  end.

Definition removedNodes (m : MutationRecord) : list nat :=
  match m with
  | ChildList _ removed => removed
  | _ => []
  end.

(** [observer.observe(document.body, { childList: true, subtree: true })]:
    of the changes below the body, the observer is told the [childList]
    ones. *)
Definition observed (m : MutationRecord) : bool :=
  match m with
  | ChildList _ _ => true
  | _ => false
  end.

(** The node trees of the page: the tree of the document and the trees
    taken out of it that a record can still name.  [findNode r n] is the
    node of the tree [n] that [r] names. *)
Fixpoint findNode (r : nat) (n : node) : option node :=
  match n with
  | Element ref _ _ _ kids =>
      if bool_decide (ref = Some r) then Some n
      else (fix inKids (l : list node) : option node :=
              match l with
              | [] => None
              | k :: l' =>
                  match findNode r k with
                  | Some x => Some x
                  | None => inKids l'
                  end
              end) kids
  | Text ref _ | Other ref _ =>
      if bool_decide (ref = Some r) then Some n else None
  end.

Fixpoint findInPage (r : nat) (page : list node) : option node :=
  match page with
  | [] => None
  | t :: page' =>
      match findNode r t with
      | Some x => Some x
      | None => findInPage r page'
      end
  end.

(** [processSubtree(node)] for the element that [r] names, inside its tree:
    the descent to the element finds out whether it lies inside a
    highlight. *)
Fixpoint processSubtreeAt (sc : Script) (r : nat) (aboveHL : bool) (n : node)
    : outcome node :=
  match n with
  | Element ref tag cls attrs kids =>
      if bool_decide (ref = Some r) then processSubtree sc aboveHL n
      else
        kids' ← (fix children (l : list node) : outcome (list node) :=
                   match l with
                   | [] => Done []
                   | k :: l' =>
                       k' ← processSubtreeAt sc r
                              (aboveHL || bool_decide (HL_CLASS ∈ cls)) k;
                       rest ← children l';
                       Done (k' :: rest)
                   end) kids;
        Done (Element ref tag cls attrs kids')
  | _ => Done n
  end.

(** The body of the inner [for] loop of the callback for one added node.
    The state is the list of the nodes [processSubtree] was called on so
    far and the page. *)
Definition observeAdded (sc : Script) (st : outcome (list nat * list node))
    (r : nat) : outcome (list nat * list node) :=
  '(scanned, page) ← st;
  match findInPage r page with
  | Some (Element _ tag cls _ _) =>
      if negb (bool_decide (tag ∈ SKIP_TAGS)) && negb (bool_decide (HL_CLASS ∈ cls))
      then
        page' ← mapM (processSubtreeAt sc r false) page;
        Done (scanned ++ [r], page')
      else Done (scanned, page)
  | _ => Done (scanned, page)
  end.

(** The callback handed to [new MutationObserver]. *)
Definition observerCallback (sc : Script) (mutations : list MutationRecord)
    (page : list node) : outcome (list nat * list node) :=
  foldl (fun st mutation => foldl (observeAdded sc) st (addedNodes mutation))
        (Done ([], page)) mutations.

(** What a batch of changes of the page makes the script do. *)
Definition onMutations (sc : Script) (changes : list MutationRecord)
    (page : list node) : outcome (list nat * list node) :=
  observerCallback sc (filter (fun m => observed m = true) changes) page.

(** ** The older single-list script *)

Module SingleList.

(** [s.replace(/\\ /g, "\\s+")]: what is replaced is a backslash followed
    by a space. *)
Fixpoint replaceEscapedSpaces (s : str) : str :=
  match s with
  | [] => []
  | a :: rest =>
      match rest with
      | b :: rest' =>
          if Ascii.eqb a "\" && Ascii.eqb b " "
          then lit "\s+" ++ replaceEscapedSpaces rest'
          else a :: replaceEscapedSpaces rest
      | [] => [a]
      end
  end.

Definition patternSource (EPSTEIN_LIST : list NameEntry) : str :=
  lit "(" ++
  join (lit "|")
    (map (fun e => replaceEscapedSpaces (escapeRegex (name e)))
         (sortByLengthDesc EPSTEIN_LIST)) ++
  lit ")".

Record Script := {
  pattern : RegExp;
  anchorMap : gmap str str
}.

Definition loadScript (EPSTEIN_LIST : list NameEntry) : option Script :=
  pattern ← newRegExp (patternSource EPSTEIN_LIST) (lit "gi");
  Some {| pattern := pattern; anchorMap := buildAnchorMapCI EPSTEIN_LIST |}.

Definition lookupAnchor (sc : Script) (matchedText : str) : option str :=
  anchorMap sc !! toLowerCase (trim (collapseWhiteSpace matchedText)).

(** The [while] loop of [highlightTextNode].  [WIKI_BASE + anchor] turns
    an undefined [anchor] into the text [undefined]; the span is built as
    [createHighlight] builds it. *)
Fixpoint highlightLoop (fuel : nat) (sc : Script) (text : str)
    (reLastIndex lastIndex : nat) (frag : list node)
    : option (list node * nat) :=
  match fuel with
  | 0 => None
  | S fuel' =>
      match exec (pattern sc) text reLastIndex with
      | (None, reLastIndex') =>
          let frag :=
            if lastIndex <? length text
            then frag ++ [Text None (sliceFrom text lastIndex)] else frag in
          Some (frag, reLastIndex')
      | (Some (index, matchedName), reLastIndex') =>
          let frag :=
            if lastIndex <? index
            then frag ++ [Text None (slice text lastIndex index)] else frag in
          let anchor := default (lit "undefined") (lookupAnchor sc matchedName) in
          highlightLoop fuel' sc text reLastIndex' reLastIndex'
            (frag ++ [createHighlight matchedName anchor])
      end
  end.

(** [highlightTextNode(textNode)]: [None] when the function returns
    before touching the node, [Some frag] when [frag] replaces it. *)
Definition highlightTextNode (sc : Script) (text : str)
    : outcome (option (list node)) :=
  match test (pattern sc) text 0 with
  | (false, _) => Done None
  | (true, _) =>
      match highlightLoop (S (length text)) sc text 0 0 [] with
      | Some (frag, _) => Done (Some frag)
      | None => Diverges
      end
  end.

(** The script loaded with a list and run on one text node. *)
Definition run (EPSTEIN_LIST : list NameEntry) (text : str)
    : option (outcome (option (list node))) :=
  sc ← loadScript EPSTEIN_LIST; Some (highlightTextNode sc text).

(** [processSubtree(root)] of the older script: the walker and its filter
    are those of [content.js]; an accepted text node goes to the older
    [highlightTextNode], which leaves it or replaces it. *)
Fixpoint processSubtree (sc : Script) (aboveHL : bool) (root : node) : outcome node :=
  match root with
  | Element r tag cls attrs kids =>
      let insideHL := aboveHL || bool_decide (HL_CLASS ∈ cls) in
      kids' ← (fix children (l : list node) : outcome (list node) :=
                 match l with
                 | [] => Done []
                 | k :: l' =>
                     new ← match k with
                           | Text _ v =>
                               if acceptNode tag insideHL v
                               then default [k] <$> highlightTextNode sc v
                               else Done [k]
                           | Element _ _ _ _ _ =>
                               k' ← processSubtree sc insideHL k; Done [k']
                           | Other _ _ => Done [k]
                           end;
                     rest ← children l';
                     Done (new ++ rest)
                 end) kids;
      Done (Element r tag cls attrs kids')
  | _ => Done root
  end.

(** [processSubtree(node)] of the older script for the element that [r]
    names, inside its tree. *)
Fixpoint processSubtreeAt (sc : Script) (r : nat) (aboveHL : bool) (n : node)
    : outcome node :=
  match n with
  | Element ref tag cls attrs kids =>
      if bool_decide (ref = Some r) then processSubtree sc aboveHL n
      else
        kids' ← (fix children (l : list node) : outcome (list node) :=
                   match l with
                   | [] => Done []
                   | k :: l' =>
                       k' ← processSubtreeAt sc r
                              (aboveHL || bool_decide (HL_CLASS ∈ cls)) k;
                       rest ← children l';
                       Done (k' :: rest)
                   end) kids;
        Done (Element ref tag cls attrs kids')
  | _ => Done n
  end.

(** The body of the inner [for] loop of the older callback for one added
    node. *)
Definition observeAdded (sc : Script) (st : outcome (list nat * list node))
    (r : nat) : outcome (list nat * list node) :=
  '(scanned, page) ← st;
  match findInPage r page with
  | Some (Element _ tag cls _ _) =>
      if negb (bool_decide (tag ∈ SKIP_TAGS)) && negb (bool_decide (HL_CLASS ∈ cls))
      then
        page' ← mapM (processSubtreeAt sc r false) page;
        Done (scanned ++ [r], page')
      else Done (scanned, page)
  | _ => Done (scanned, page)
  end.

(** The callback handed to [new MutationObserver] by the older script. *)
Definition observerCallback (sc : Script) (mutations : list MutationRecord)
    (page : list node) : outcome (list nat * list node) :=
  foldl (fun st mutation => foldl (observeAdded sc) st (addedNodes mutation))
        (Done ([], page)) mutations.

(** What a batch of changes of the page makes the older script do: it
    observes with the same options. *)
Definition onMutations (sc : Script) (changes : list MutationRecord)
    (page : list node) : outcome (list nat * list node) :=
  observerCallback sc (filter (fun m => observed m = true) changes) page.

End SingleList.

(** * Definitions used by the statements *)

(** ** The compiled pattern *)

(** The term a code unit of a name stands for in the pattern. *)
Definition termOf (c : ascii) : term :=
  if Ascii.eqb c " " then TPlus AWhite else TAtom (AChar c).

Definition termsOf (nm : str) : list term := map termOf nm.

(** The alternatives of the pattern of a list: one for each entry, the
    longest names first; the source of an empty list is [()], a group around
    one empty alternative. *)
Definition compiledAlternatives (nameList : list NameEntry) : list (list term) :=
  match sortByLengthDesc nameList with
  | [] => [[]]
  | l => map (fun e => termsOf (name e)) l
  end.

(** What [escapeRegex] and the replacement of spaces make of one code unit
    of a name. *)
Definition encodeChar (c : ascii) : str :=
  if isSyntaxCharacter c then ["\"%char; c]
  else if Ascii.eqb c " " then lit "\s+" else [c].

(** An alternative is productive when it has a term; a match of productive
    alternatives is never empty. *)
Definition productive (alts : list (list term)) : Prop := Forall (fun ts => ts ≠ []) alts.

(** ** Matches and fragments *)

(** [node.textContent] *)
Fixpoint textContent (n : node) : str :=
  match n with
  | Text _ v => v
  | Element _ _ _ _ kids =>
      (fix all (l : list node) : str :=
         match l with
         | [] => []
         | k :: l' => textContent k ++ all l'
         end) kids
  | Other _ _ => []
  end.

(** The text of a sequence of nodes, in order. *)
Definition textOf (frag : list node) : str := flat_map textContent frag.

(** The successive matches the loop meets from [regex.lastIndex = li] on,
    whether their lookup succeeds or not. *)
Fixpoint matchesFrom (fuel : nat) (re : RegExp) (text : str) (li : nat)
    : list (nat * str) :=
  match fuel with
  | 0 => []
  | S fuel' =>
      match exec re text li with
      | (Some (i, m), li') => (i, m) :: matchesFrom fuel' re text li'
      | (None, _) => []
      end
  end.

Definition allMatches (re : RegExp) (text : str) : list (nat * str) :=
  matchesFrom (S (length text)) re text 0.

(** A match whose lookup gives a non-empty anchor is resolved. *)
Definition resolve (sc : Script) (caseSensitive : bool) (im : nat * str)
    : option (nat * str * str) :=
  match lookupAnchor sc im.2 caseSensitive with
  | None | Some [] => None
  | Some a => Some (im.1, im.2, a)
  end.

(** The decomposition of [text] from offset [last] on that a list of
    matches with their anchors stands for: the plain text before each match,
    its marker, and the plain text behind the last one. *)
Fixpoint decompose (text : str) (last : nat) (ms : list (nat * str * str))
    : list node :=
  match ms with
  | [] => if last <? length text then [Text None (sliceFrom text last)] else []
  | (i, m, a) :: ms' =>
      (if last <? i then [Text None (slice text last i)] else []) ++
      createHighlight m a :: decompose text (i + length m) ms'
  end.

(** The nodes of a fragment are new plain text nodes and markers. *)
Definition isSegment (n : node) : Prop :=
  (∃ v, n = Text None v) ∨ (∃ m a, n = createHighlight m a ∧ a ≠ []).

(** ** Lists and scripts *)

(** The order of the sorted list: no name is longer than one before it. *)
Definition longestFirst (l : list NameEntry) : Prop :=
  ∀ pre e post, l = pre ++ e :: post →
    Forall (fun e' => length (name e) ≤ length (name e')) pre.

(** Every name non-empty. *)
Definition nonEmptyNames (l : list NameEntry) : Prop := Forall (fun e => name e ≠ []) l.

(** The patterns of the script after loading. *)
Definition mainPatternOf (l : list NameEntry) : RegExp :=
  {| alternatives := compiledAlternatives l; global := true; ignoreCase := true |}.

Definition csPatternOf (cs : option (list NameEntry)) : option RegExp :=
  match cs with
  | Some (e :: l) =>
      Some {| alternatives := compiledAlternatives (e :: l);
              global := true; ignoreCase := false |}
  | _ => None
  end.

(** The script of a dataset. *)
Definition scriptOf (l : list NameEntry) (cs : option (list NameEntry)) : Script :=
  {| mainPattern := mainPatternOf l;
     csPattern := csPatternOf cs;
     anchorMapCI := buildAnchorMapCI l;
     anchorMapCS := match cs with Some l' => buildAnchorMapCS l' | None => ∅ end |}.

(** ** Example datasets *)

Definition entry (n a : string) : NameEntry := {| name := lit n; anchor := lit a |}.

(** The dataset of the specification's scenario. *)
Definition billList : list NameEntry :=
  [entry "Bill Clinton" "Bill_Clinton"; entry "Bill" "Bill_X"].

(** A main list and a case-sensitive list. *)
Definition mainList : list NameEntry := [entry "Bill Clinton" "Bill_Clinton"].
Definition csList : list NameEntry := [entry "Trump" "Donald_Trump"].

(** A main list with a name that has two spaces: its matches fail the
    lookup. *)
Definition missList : list NameEntry :=
  [entry "Bill  Clinton" "Bill_Clinton"; entry "Clinton" "Clinton"].

(** A dataset with an entry whose name is empty. *)
Definition emptyNameList : list NameEntry :=
  [entry "" "Nobody"; entry "Bill" "Bill_X"].

(** ** Names and keys *)

(** A name is tidy when it is not empty, has no white space at either end
    and no white space inside but single spaces: the form that
    [lookupAnchor] brings a matched text to.  [afterWhite] tells that no
    space may come next. *)
Fixpoint tidyFrom (afterWhite : bool) (s : str) : bool :=
  match s with
  | [] => negb afterWhite
  | c :: s' =>
      if isWhiteSpace c
      then Ascii.eqb c " " && negb afterWhite && tidyFrom true s'
      else tidyFrom false s'
  end.

Definition tidy (s : str) : bool := tidyFrom true s.

Definition wellFormedEntry (e : NameEntry) : Prop :=
  tidy (name e) = true ∧ anchor e ≠ [].

(** The invariant of an entry in the data model: a name and an anchor that
    are not empty. *)
Definition validEntry (e : NameEntry) : Prop := name e ≠ [] ∧ anchor e ≠ [].

(** The key under which the map of a partition is asked for a text. *)
Definition keyOf (caseSensitive : bool) (s : str) : str :=
  if caseSensitive then s else toLowerCase s.

Definition anchorMapOf (sc : Script) (caseSensitive : bool) : gmap str str :=
  if caseSensitive then anchorMapCS sc else anchorMapCI sc.

(** A map filled from a list of entries: each entry is stored under its key,
    a later entry replaces an earlier one with the same key. *)
Definition buildFrom (key : NameEntry → str) (m0 : gmap str str)
    (l : list NameEntry) : gmap str str :=
  foldl (fun m e => <[key e := anchor e]> m) m0 l.

(** The list of a partition and its pattern. *)
Definition partition (l : list NameEntry) (cs : option (list NameEntry))
    (caseSensitive : bool) : list NameEntry :=
  if caseSensitive then default [] cs else l.

Definition patternOf (l : list NameEntry) (caseSensitive : bool) : RegExp :=
  {| alternatives := compiledAlternatives l; global := true;
     ignoreCase := negb caseSensitive |}.

(** ** Children and subtrees *)

(** What [processSubtree] does with one child of an element with tag
    [tag], and with the list of its children. *)
Definition processChild (sc : Script) (tag : str) (insideHL : bool) (k : node)
    : outcome (list node) :=
  match k with
  | Text _ v =>
      if acceptNode tag insideHL v then snd <$> highlightTextNode sc k else Done [k]
  | Element _ _ _ _ _ => k' ← processSubtree sc insideHL k; Done [k']
  | Other _ _ => Done [k]
  end.

Definition processChildren (sc : Script) (tag : str) (insideHL : bool)
    : list node → outcome (list node) :=
  fix children (l : list node) : outcome (list node) :=
    match l with
    | [] => Done []
    | k :: l' =>
        new ← processChild sc tag insideHL k;
        rest ← children l';
        Done (new ++ rest)
    end.

(** The text nodes of a tree that are children of an element with a tag of
    [SKIP_TAGS], in document order. *)
Fixpoint protectedTexts (n : node) : list node :=
  match n with
  | Element _ tag _ _ kids =>
      (fix all (l : list node) : list node :=
         match l with
         | [] => []
         | k :: l' =>
             match k with
             | Text _ _ => if bool_decide (tag ∈ SKIP_TAGS) then [k] else []
             | _ => protectedTexts k
             end ++ all l'
         end) kids
  | _ => []
  end.

Definition protectedIn (tag : str) (k : node) : list node :=
  match k with
  | Text _ _ => if bool_decide (tag ∈ SKIP_TAGS) then [k] else []
  | _ => protectedTexts k
  end.

(** What [processSubtree] does with the children of an element with a tag
    of [SKIP_TAGS]: the elements among them are walked, everything else
    stays. *)
Definition walkElementsOnly (sc : Script) (insideHL : bool) (k : node) : outcome node :=
  match k with
  | Element _ _ _ _ _ => processSubtree sc insideHL k
  | _ => Done k
  end.


(** ** Named nodes *)

Definition refOf (n : node) : option nat :=
  match n with
  | Text r _ | Element r _ _ _ _ | Other r _ => r
  end.

(** The tag and the classes of an element; [None] for another node. *)
Definition shapeOf (n : node) : option (str * list str) :=
  match n with
  | Element _ tag cls _ _ => Some (tag, cls)
  | _ => None
  end.

Definition labelOf (n : node) : list (nat * option (str * list str)) :=
  match refOf n with
  | Some r => [(r, shapeOf n)]
  | None => []
  end.

(** The nodes of a tree that a record can name, in document order, each
    with its shape. *)
Fixpoint labels (n : node) : list (nat * option (str * list str)) :=
  labelOf n ++
  match n with
  | Element _ _ _ _ kids =>
      (fix all (l : list node) : list (nat * option (str * list str)) :=
         match l with
         | [] => []
         | k :: l' => labels k ++ all l'
         end) kids
  | _ => []
  end.


(** The test of the callback on a node of a given shape. *)
Definition qualifiesShape (s : option (str * list str)) : bool :=
  match s with
  | Some (tag, cls) =>
      negb (bool_decide (tag ∈ SKIP_TAGS)) && negb (bool_decide (HL_CLASS ∈ cls))
  | None => false
  end.

(** The added node [r] is an element, its tag is not in [SKIP_TAGS] and it
    does not carry the class. *)
Definition qualifies (page : list node) (r : nat) : bool :=
  match findInPage r page with
  | Some x => qualifiesShape (shapeOf x)
  | None => false
  end.

(** [keeps L L']: of the named nodes [L], the nodes [L'] are left, in
    order, and every element is among them. *)
Definition keeps (L L' : list (nat * option (str * list str))) : Prop :=
  L' `sublist_of` L ∧ ∀ r sh, (r, Some sh) ∈ L → (r, Some sh) ∈ L'.

(** A page: the body holds a paragraph and a bare text node. *)
Definition examplePage : list node :=
  [Element (Some 0) (lit "BODY") [] []
     [Element (Some 1) (lit "P") [] [] [Text (Some 2) (lit "Bill Clinton")];
      Text (Some 3) (lit "Bill Clinton")]].

(** ** Literal names *)

(** The terms of a name read code unit for code unit. *)
Definition literalTerms (nm : str) : list term := map (fun c => TAtom (AChar c)) nm.

(** ** More example data *)

(** Two entries whose names differ in case only. *)
Definition caseList : list NameEntry :=
  [entry "Bill Clinton" "First"; entry "bill clinton" "Second"].

(** ** Collapsed text *)

(** The form of a collapsed text: white space is single spaces, with no
    two in a row; [afterWhite] tells that no space may come next. *)
Fixpoint spacedFrom (afterWhite : bool) (s : str) : bool :=
  match s with
  | [] => true
  | c :: s' =>
      if isWhiteSpace c
      then Ascii.eqb c " " && negb afterWhite && spacedFrom true s'
      else spacedFrom false s'
  end.

(** ** Scans *)

(** [leftmostScan re text last ms]: [ms] are the matches of a scan of
    [text] from index [last] on that takes the leftmost match each time and
    goes on behind it. *)
Fixpoint leftmostScan (re : RegExp) (text : str) (last : nat) (ms : list (nat * str))
    : Prop :=
  match ms with
  | [] =>
      ∀ k, last ≤ k → k ≤ length text →
           matchAlternatives (ignoreCase re) (alternatives re) (drop k text) = None
  | (i, m) :: ms' =>
      last ≤ i ∧ m ≠ [] ∧ i + length m ≤ length text ∧
      m = slice text i (i + length m) ∧
      matchAlternatives (ignoreCase re) (alternatives re) (drop i text) =
        Some (length m) ∧
      (∀ k, last ≤ k → k < i →
            matchAlternatives (ignoreCase re) (alternatives re) (drop k text) = None) ∧
      leftmostScan re text (i + length m) ms'
  end.

(** ** The pattern and the links of the older script *)

(** The terms that the pattern of the older script has for a name: every
    code unit stands for itself, and a space that follows a backslash is
    read, with the second backslash of the escaped one, as [s+]. *)
Fixpoint singleTermsOf (nm : str) : list term :=
  match nm with
  | [] => []
  | c :: nm' =>
      TAtom (AChar c) ::
      (if Ascii.eqb c "\" then
         match nm' with
         | d :: nm'' =>
             if Ascii.eqb d " " then TPlus (AChar "s") :: singleTermsOf nm''
             else singleTermsOf nm'
         | [] => []
         end
       else singleTermsOf nm')
  end.

(** The alternatives of the older pattern, as [compiledAlternatives] gives
    them for [makePattern]. *)
Definition singleAlternatives (nameList : list NameEntry) : list (list term) :=
  match sortByLengthDesc nameList with
  | [] => [[]]
  | l => map (fun e => singleTermsOf (name e)) l
  end.

(** The anchor the older script puts in a link. *)
Definition anchorOrUndefined (sc : SingleList.Script) (matchedText : str) : str :=
  default (lit "undefined") (SingleList.lookupAnchor sc matchedText).

(** A match of the older script with the anchor of its link. *)
Definition linked (sc : SingleList.Script) (im : nat * str) : nat * str * str :=
  (im.1, im.2, anchorOrUndefined sc im.2).

(** What the older [processSubtree] does with one child of an element with
    tag [tag], and with the list of its children. *)
Definition singleProcessChild (sc : SingleList.Script) (tag : str) (insideHL : bool)
    (k : node) : outcome (list node) :=
  match k with
  | Text _ v =>
      if acceptNode tag insideHL v
      then default [k] <$> SingleList.highlightTextNode sc v else Done [k]
  | Element _ _ _ _ _ => k' ← SingleList.processSubtree sc insideHL k; Done [k']
  | Other _ _ => Done [k]
  end.

Definition singleProcessChildren (sc : SingleList.Script) (tag : str) (insideHL : bool)
    : list node → outcome (list node) :=
  fix children (l : list node) : outcome (list node) :=
    match l with
    | [] => Done []
    | k :: l' =>
        new ← singleProcessChild sc tag insideHL k;
        rest ← children l';
        Done (new ++ rest)
    end.

(** ** Outside the scanned elements *)

(** An element that one of [rs] names. *)
Definition namedBy (rs : list nat) (ref : option nat) : bool :=
  match ref with
  | Some r => bool_decide (r ∈ rs)
  | None => false
  end.

(** A tree without what lies below the elements that [rs] name: each of
    them is left without children. *)
Fixpoint pruneAt (rs : list nat) (n : node) : node :=
  match n with
  | Element ref tag cls attrs kids =>
      Element ref tag cls attrs
        (if namedBy rs ref then []
         else (fix all (l : list node) : list node :=
                 match l with
                 | [] => []
                 | k :: l' => pruneAt rs k :: all l'
                 end) kids)
  | _ => n
  end.









(** [s] with the letters A to Z in lower case. *)
Definition toAsciiLowerCase (s : str) : str :=
  map (fun c => if between 65 90 c then ascii_of_N (code c + 32) else c) s.



(** * Properties *)

(** ** Code units *)

Lemma lower_upper c : lowerChar (upperChar c) = lowerChar c.
Proof. destruct c as [[] [] [] [] [] [] [] []]; vm_compute; reflexivity. Qed.

Lemma upper_lower c : upperChar (lowerChar c) = upperChar c.
Proof. destruct c as [[] [] [] [] [] [] [] []]; vm_compute; reflexivity. Qed.

Lemma white_upper c : isWhiteSpace (upperChar c) = isWhiteSpace c.
Proof. destruct c as [[] [] [] [] [] [] [] []]; vm_compute; reflexivity. Qed.

Lemma white_lower c : isWhiteSpace (lowerChar c) = isWhiteSpace c.
Proof. destruct c as [[] [] [] [] [] [] [] []]; vm_compute; reflexivity. Qed.

Lemma upper_eq_lower_eq a b : upperChar a = upperChar b ↔ lowerChar a = lowerChar b.
Proof.
  split; intros H.
  - rewrite <- (lower_upper a), <- (lower_upper b). by rewrite H.
  - rewrite <- (upper_lower a), <- (upper_lower b). by rewrite H.
Qed.

Lemma white_Canonicalize ic c : isWhiteSpace (Canonicalize ic c) = isWhiteSpace c.
Proof. destruct ic; [apply white_upper | done]. Qed.

Lemma syntax_not_space c : isSyntaxCharacter c = true → Ascii.eqb c " " = false.
Proof.
  intros H. destruct (Ascii.eqb c " ") eqn:E; [|done].
  apply Ascii.eqb_eq in E. subst c. vm_compute in H. done.
Qed.

Lemma syntax_not_s c : isSyntaxCharacter c = true → Ascii.eqb c "s" = false.
Proof.
  intros H. destruct (Ascii.eqb c "s") eqn:E; [|done].
  apply Ascii.eqb_eq in E. subst c. vm_compute in H. done.
Qed.

Lemma plain_not_special c (x : ascii) :
  isSyntaxCharacter c = false → isSyntaxCharacter x = true → Ascii.eqb c x = false.
Proof.
  intros H Hx. destruct (Ascii.eqb c x) eqn:E; [|done].
  apply Ascii.eqb_eq in E. subst c. congruence.
Qed.

(** ** The pattern compiler *)

Lemma encode_cons c nm :
  replaceSpaces (escapeRegex (c :: nm)) =
  encodeChar c ++ replaceSpaces (escapeRegex nm).
Proof.
  unfold escapeRegex, replaceSpaces, encodeChar. cbn [flat_map].
  rewrite flat_map_app. f_equal.
  destruct (isSyntaxCharacter c) eqn:Hs; cbn [flat_map app].
  - rewrite (syntax_not_space c Hs). change (Ascii.eqb "\" " ") with false.
    by rewrite app_nil_r.
  - by rewrite app_nil_r.
Qed.

Lemma parse_char c rest cur seen :
  parseDisjunction (encodeChar c ++ rest) cur seen =
  parseDisjunction rest (termOf c :: cur) seen.
Proof.
  unfold encodeChar, termOf. destruct (isSyntaxCharacter c) eqn:Hs.
  - rewrite (syntax_not_space c Hs). cbn [app parseDisjunction].
    change (Ascii.eqb "\" ")") with false.
    change (Ascii.eqb "\" "|") with false.
    change (Ascii.eqb "\" "+") with false.
    change (Ascii.eqb "\" "\") with true. cbn iota.
    by rewrite (syntax_not_s c Hs), Hs.
  - destruct (Ascii.eqb c " ") eqn:Hsp.
    + cbn [lit list_ascii_of_string app parseDisjunction].
      change (Ascii.eqb "\" ")") with false.
      change (Ascii.eqb "\" "|") with false.
      change (Ascii.eqb "\" "+") with false.
      change (Ascii.eqb "\" "\") with true.
      change (Ascii.eqb "s" "s") with true.
      change (Ascii.eqb "+" ")") with false.
      change (Ascii.eqb "+" "|") with false.
      change (Ascii.eqb "+" "+") with true. done.
    + cbn [app parseDisjunction].
      rewrite !(plain_not_special c _ Hs) by (vm_compute; reflexivity).
      by rewrite Hs.
Qed.

Lemma parse_name nm rest cur seen :
  parseDisjunction (replaceSpaces (escapeRegex nm) ++ rest) cur seen =
  parseDisjunction rest (rev (termsOf nm) ++ cur) seen.
Proof.
  revert cur. induction nm as [|c nm IH]; intros cur; [done|].
  rewrite encode_cons, <- app_assoc, parse_char, IH.
  cbn [termsOf map rev]. by rewrite <- app_assoc.
Qed.

Lemma parse_names (l : list NameEntry) cur seen :
  parseDisjunction
    (join (lit "|") (map (fun e => replaceSpaces (escapeRegex (name e))) l) ++ lit ")")
    cur seen =
  match l with
  | [] => Some (rev (rev cur :: seen))
  | e :: l' =>
      Some (rev seen ++ (rev cur ++ termsOf (name e)) :: map (fun e => termsOf (name e)) l')
  end.
Proof.
  revert cur seen. induction l as [|e l IH]; intros cur seen; [done|].
  destruct l as [|e' l].
  - cbn [map join]. rewrite parse_name. cbn. by rewrite rev_app_distr, rev_involutive.
  - change (join (lit "|") (map _ (e :: e' :: l)))
      with (replaceSpaces (escapeRegex (name e)) ++ lit "|" ++
            join (lit "|") (map (fun e => replaceSpaces (escapeRegex (name e))) (e' :: l))).
    rewrite <- !app_assoc, parse_name.
    cbn [lit list_ascii_of_string app parseDisjunction].
    change (Ascii.eqb "|" ")") with false.
    change (Ascii.eqb "|" "|") with true. cbn iota.
    rewrite IH. cbn [rev app map]. f_equal.
    rewrite rev_app_distr, rev_involutive, <- app_assoc. done.
Qed.

(** [makePattern] always yields a pattern: the parser takes every source
    the script builds, and reads it as one alternative for each entry. *)
Lemma makePattern_compiled nameList flags :
  makePattern nameList flags =
  Some {| alternatives := compiledAlternatives nameList;
          global := bool_decide ("g"%char ∈ flags);
          ignoreCase := bool_decide ("i"%char ∈ flags) |}.
Proof.
  unfold makePattern, patternSource, newRegExp, compiledAlternatives.
  cbn [lit list_ascii_of_string app]. change (Ascii.eqb "(" "(") with true. cbn iota.
  change [")"%char] with (lit ")"). rewrite parse_names.
  destruct (sortByLengthDesc nameList); done.
Qed.

(** ** The matcher *)

Lemma matchTerms_plus_cons ic a ts x s :
  matchTerms ic (TPlus a :: ts) (x :: s) =
  if atomMatches ic a x then
    match matchTerms ic (TPlus a :: ts) s with
    | Some n => Some (S n)
    | None => S <$> matchTerms ic ts s
    end
  else None.
Proof. reflexivity. Qed.

Lemma matchTerms_plus_nil ic a ts : matchTerms ic (TPlus a :: ts) [] = None.
Proof. reflexivity. Qed.

Lemma matchTerms_atom_cons ic a ts x s :
  matchTerms ic (TAtom a :: ts) (x :: s) =
  if atomMatches ic a x then S <$> matchTerms ic ts s else None.
Proof. reflexivity. Qed.

(** A match takes at least one code unit for each term and stays inside
    the text. *)
Lemma matchTerms_bounds ic ts s n :
  matchTerms ic ts s = Some n → length ts ≤ n ∧ n ≤ length s.
Proof.
  revert s n. induction ts as [|[a|a] ts IH]; intros s n H.
  - cbn in H. injection H as <-. cbn. lia.
  - destruct s as [|x s]; [done|]. rewrite matchTerms_atom_cons in H.
    destruct (atomMatches ic a x); [|done].
    destruct (matchTerms ic ts s) as [m|] eqn:E; [|done].
    injection H as <-. apply IH in E. cbn. lia.
  - revert n H. induction s as [|x s IHs]; intros n H; [done|].
    rewrite matchTerms_plus_cons in H.
    destruct (atomMatches ic a x); [|done].
    destruct (matchTerms ic (TPlus a :: ts) s) as [m|] eqn:E.
    + injection H as <-. specialize (IHs m eq_refl). cbn in *. lia.
    + destruct (matchTerms ic ts s) as [m|] eqn:E'; [|done].
      injection H as <-. apply IH in E'. cbn. lia.
Qed.


Lemma matchAlternatives_bounds ic alts s n :
  matchAlternatives ic alts s = Some n → n ≤ length s.
Proof.
  induction alts as [|ts alts IH]; [done|]. cbn.
  destruct (matchTerms ic ts s) as [m|] eqn:E; [|done].
  intros [= <-]. apply matchTerms_bounds in E. lia.
Qed.

Lemma matchAlternatives_productive ic alts s n :
  productive alts → matchAlternatives ic alts s = Some n → 0 < n.
Proof.
  induction 1 as [|ts alts Hts _ IH]; [done|]. cbn.
  destruct (matchTerms ic ts s) as [m|] eqn:E; [|done].
  intros [= <-]. apply matchTerms_bounds in E. destruct ts; [done|]. cbn in E. lia.
Qed.

Lemma matchAlternatives_empty ic alts s :
  [] ∈ alts → is_Some (matchAlternatives ic alts s).
Proof.
  induction alts as [|ts alts IH]; intros H; [by apply elem_of_nil in H|].
  cbn. destruct (matchTerms ic ts s) eqn:E; [done|].
  apply elem_of_cons in H as [<-|H]; [done|by apply IH].
Qed.


(** *** The search loop and [exec] *)

Lemma search_spec re s i j n :
  search re s i = Some (j, n) →
  i ≤ j ∧ j + n ≤ i + length s ∧
  matchAlternatives (ignoreCase re) (alternatives re) (drop (j - i) s) = Some n ∧
  ∀ k, k < j - i →
       matchAlternatives (ignoreCase re) (alternatives re) (drop k s) = None.
Proof.
  revert i. induction s as [|x s IH]; intros i; cbn.
  - destruct (matchAlternatives _ _ []) as [m|] eqn:E; [|done].
    intros [= <- <-]. pose proof (matchAlternatives_bounds _ _ _ _ E) as Hb.
    cbn in Hb. replace (i - i) with 0 by lia. repeat split; [lia|lia|done|lia].
  - destruct (matchAlternatives _ _ (x :: s)) as [m|] eqn:E.
    + intros [= <- <-]. pose proof (matchAlternatives_bounds _ _ _ _ E) as Hb.
      cbn in Hb. replace (i - i) with 0 by lia. repeat split; [lia|lia|done|lia].
    + intros H. apply IH in H as (H1 & H2 & H3 & H4).
      replace (j - i) with (S (j - S i)) by lia. repeat split; [lia|lia|done|].
      intros [|k] Hk; [done|]. cbn. apply H4. lia.
Qed.

Lemma search_None re s i :
  search re s i = None →
  ∀ k, k ≤ length s →
       matchAlternatives (ignoreCase re) (alternatives re) (drop k s) = None.
Proof.
  revert i. induction s as [|x s IH]; intros i; cbn.
  - destruct (matchAlternatives _ _ []) as [m|] eqn:E; [done|].
    intros _ k Hk. by rewrite drop_nil.
  - destruct (matchAlternatives _ _ (x :: s)) as [m|] eqn:E; [done|].
    intros H [|k] Hk; [done|]. cbn. eapply IH; [done|lia].
Qed.

Lemma search_complete re s i k n :
  matchAlternatives (ignoreCase re) (alternatives re) (drop k s) = Some n →
  k ≤ length s →
  ∃ j m, search re s i = Some (j, m) ∧ j ≤ i + k.
Proof.
  intros H Hk. destruct (search re s i) as [[j m]|] eqn:E.
  - exists j, m. split; [done|]. apply search_spec in E as (H1 & H2 & H3 & H4).
    destruct (decide (j ≤ i + k)); [done|]. rewrite H4 in H; [done|lia].
  - eapply search_None in E; [|done]. congruence.
Qed.

Lemma exec_None_lastIndex re text li li' : exec re text li = (None, li') → li' = 0.
Proof.
  unfold exec. destruct (length text <? _); [by intros [= <-]|].
  destruct (search _ _ _) as [[i n]|]; [done|by intros [= <-]].
Qed.

Lemma exec_Some re text li i m li' :
  global re = true →
  exec re text li = (Some (i, m), li') →
  li ≤ i ∧ i + length m ≤ length text ∧ li' = i + length m ∧
  m = take (length m) (drop i text) ∧
  matchAlternatives (ignoreCase re) (alternatives re) (drop i text) = Some (length m) ∧
  ∀ k, li ≤ k → k < i →
       matchAlternatives (ignoreCase re) (alternatives re) (drop k text) = None.
Proof.
  intros Hg. unfold exec. rewrite Hg.
  destruct (length text <? li) eqn:Hl; [done|]. apply Nat.ltb_ge in Hl.
  destruct (search re (drop li text) li) as [[j n]|] eqn:E; [|done].
  intros [= -> <- <-]. apply search_spec in E as (H1 & H2 & H3 & H4).
  rewrite length_drop in H2. rewrite drop_drop in H3.
  replace (li + (i - li)) with i in H3 by lia.
  assert (Hn : length (take n (drop i text)) = n).
  { rewrite length_take, length_drop. lia. }
  rewrite Hn. split_and!; [done|lia|done|done|done|].
  intros k Hk1 Hk2. specialize (H4 (k - li)). rewrite drop_drop in H4.
  replace (li + (k - li)) with k in H4 by lia. apply H4. lia.
Qed.

Lemma exec_None re text li li' :
  global re = true → li ≤ length text →
  exec re text li = (None, li') →
  ∀ k, li ≤ k → k ≤ length text →
       matchAlternatives (ignoreCase re) (alternatives re) (drop k text) = None.
Proof.
  intros Hg Hl. unfold exec. rewrite Hg.
  destruct (length text <? li) eqn:Hl'; [apply Nat.ltb_lt in Hl'; lia|].
  destruct (search re (drop li text) li) as [[j n]|] eqn:E; [done|].
  intros _ k Hk1 Hk2. eapply search_None with (k := k - li) in E.
  - rewrite drop_drop in E. by replace (li + (k - li)) with k in E by lia.
  - rewrite length_drop. lia.
Qed.

(** ** The loop of [applyPattern] *)

(** Every finished call leaves [regex.lastIndex] at 0. *)
Lemma applyPatternLoop_lastIndex fuel sc re cs text li last frag did r li' :
  applyPatternLoop fuel sc re cs text li last frag did = Some (r, li') → li' = 0.
Proof.
  revert li last frag did. induction fuel as [|fuel IH]; intros li last frag did; [done|].
  cbn [applyPatternLoop].
  destruct (exec re text li) as [[[i m]|] li1] eqn:E.
  - destruct (lookupAnchor sc m cs) as [[|c a]|]; apply IH.
  - apply exec_None_lastIndex in E as ->.
    destruct (negb did); by intros [= _ <-].
Qed.

Lemma applyPatternFrom_lastIndex fuel sc re cs text li r li' :
  applyPatternFrom fuel sc re cs text li = Some (r, li') → li' = 0.
Proof.
  unfold applyPatternFrom, test.
  destruct (exec re text li) as [[[i m]|] li1] eqn:E; cbn.
  - apply applyPatternLoop_lastIndex.
  - apply exec_None_lastIndex in E as ->. by intros [= _ <-].
Qed.

(** More fuel does not change the result of a finished loop. *)
Lemma applyPatternLoop_fuel_mono fuel fuel' sc re cs text li last frag did r :
  applyPatternLoop fuel sc re cs text li last frag did = Some r →
  fuel ≤ fuel' →
  applyPatternLoop fuel' sc re cs text li last frag did = Some r.
Proof.
  revert fuel' li last frag did. induction fuel as [|fuel IH];
    intros fuel' li last frag did H Hf; [done|].
  destruct fuel' as [|fuel']; [lia|]. cbn [applyPatternLoop] in *.
  destruct (exec re text li) as [[[i m]|] li1] eqn:E; [|done].
  destruct (lookupAnchor sc m cs) as [[|c a]|]; (apply IH; [done|lia]).
Qed.

(** With the global flag and productive alternatives every iteration but
    the last moves [regex.lastIndex] forward, and the loop ends. *)
Lemma applyPatternLoop_terminates fuel sc re cs text li last frag did :
  global re = true → productive (alternatives re) →
  length text - li < fuel →
  is_Some (applyPatternLoop fuel sc re cs text li last frag did).
Proof.
  intros Hg Hp. revert li last frag did.
  induction fuel as [|fuel IH]; intros li last frag did Hf; [lia|].
  cbn [applyPatternLoop].
  destruct (exec re text li) as [[[i m]|] li1] eqn:E.
  - apply exec_Some in E as (H1 & H2 & -> & H4 & H5 & _); [|done].
    apply matchAlternatives_productive in H5; [|done].
    destruct (lookupAnchor sc m cs) as [[|c a]|]; apply IH; lia.
  - destruct (negb did); done.
Qed.

(** With an empty alternative every [exec] finds a match, and the loop
    never ends. *)
Lemma exec_empty_alternative re text li :
  [] ∈ alternatives re → li ≤ length text →
  ∃ i m li', exec re text li = (Some (i, m), li') ∧ li' ≤ length text.
Proof.
  intros He Hl. unfold exec.
  assert (Hs : (if global re then li else 0) ≤ length text) by (destruct (global re); lia).
  destruct (length text <? _) eqn:Hl'; [apply Nat.ltb_lt in Hl'; lia|].
  destruct (matchAlternatives_empty (ignoreCase re) _ (drop (if global re then li else 0) text) He)
    as [n Hn].
  destruct (search_complete re (drop (if global re then li else 0) text)
              (if global re then li else 0) 0 n) as (j & m & E & Hj); [done|lia|].
  rewrite E. do 3 eexists. split; [done|].
  apply search_spec in E as (H1 & H2 & _). rewrite length_drop in H2.
  destruct (global re); lia.
Qed.

Lemma applyPatternLoop_diverges fuel sc re cs text li last frag did :
  [] ∈ alternatives re → li ≤ length text →
  applyPatternLoop fuel sc re cs text li last frag did = None.
Proof.
  intros He. revert li last frag did.
  induction fuel as [|fuel IH]; intros li last frag did Hl; [done|].
  cbn [applyPatternLoop].
  destruct (exec_empty_alternative re text li He Hl) as (i & m & li' & -> & Hl').
  destruct (lookupAnchor sc m cs) as [[|c a]|]; by apply IH.
Qed.

Lemma applyPatternFrom_diverges fuel sc re cs text :
  [] ∈ alternatives re → applyPatternFrom fuel sc re cs text 0 = None.
Proof.
  intros He. unfold applyPatternFrom, test.
  destruct (exec_empty_alternative re text 0 He) as (i & m & li' & -> & Hl'); [lia|].
  cbn. apply applyPatternLoop_diverges; [done|lia].
Qed.

Lemma productive_or_empty alts : productive alts ∨ [] ∈ alts.
Proof.
  induction alts as [|ts alts [IH|IH]].
  - left. constructor.
  - destruct ts; [right; left|left; by constructor].
  - right. by right.
Qed.

(** The loop either ends within [length text + 1] iterations or never
    does, so [applyPattern] is [Diverges] only for a loop that never
    ends. *)
Lemma applyPatternLoop_dichotomy sc re cs text :
  global re = true →
  (∀ fuel, length text < fuel → is_Some (applyPatternFrom fuel sc re cs text 0)) ∨
  (∀ fuel, applyPatternFrom fuel sc re cs text 0 = None).
Proof.
  intros Hg. destruct (productive_or_empty (alternatives re)) as [Hp|He].
  - left. intros fuel Hf. unfold applyPatternFrom.
    destruct (test re text 0) as [[] li]; [|done].
    apply applyPatternLoop_terminates; [done|done|lia].
  - right. intros fuel. by apply applyPatternFrom_diverges.
Qed.

Lemma applyPattern_productive sc re cs text :
  global re = true → productive (alternatives re) →
  ∃ r, applyPattern sc re cs text = Done r.
Proof.
  intros Hg Hp. unfold applyPattern, applyPatternFrom.
  destruct (test re text 0) as [[] li]; [|by eexists].
  destruct (applyPatternLoop_terminates (S (length text)) sc re cs text 0 0 [] false Hg Hp)
    as [[r li'] ->]; [lia|by eexists].
Qed.

Lemma applyPattern_empty_alternative sc re cs text :
  [] ∈ alternatives re → applyPattern sc re cs text = Diverges.
Proof.
  intros He. unfold applyPattern. by rewrite applyPatternFrom_diverges.
Qed.

(** *** What the loop computes *)

Lemma textOf_app f1 f2 : textOf (f1 ++ f2) = textOf f1 ++ textOf f2.
Proof. apply flat_map_app. Qed.

Lemma textContent_createHighlight m a : textContent (createHighlight m a) = m.
Proof. destruct m; [done|]. cbn. by rewrite app_nil_r. Qed.

Lemma applyPatternLoop_spec fuel sc re cs text li last frag did r li' :
  global re = true →
  applyPatternLoop fuel sc re cs text li last frag did = Some (r, li') →
  r = match omap (resolve sc cs) (matchesFrom fuel re text li) with
      | [] => if did then Some (frag ++ decompose text last []) else None
      | ms => Some (frag ++ decompose text last ms)
      end.
Proof.
  intros Hg. revert li last frag did.
  induction fuel as [|fuel IH]; intros li last frag did; [done|].
  cbn [applyPatternLoop matchesFrom].
  destruct (exec re text li) as [[[i m]|] li1] eqn:E.
  - apply exec_Some in E as (_ & _ & -> & _); [|done].
    cbn [omap list_omap]. unfold resolve at 1. cbn [fst snd].
    destruct (lookupAnchor sc m cs) as [[|c a]|].
    + apply IH.
    + intros H. apply IH in H as ->.
      cbn [decompose]. destruct (last <? i);
        destruct (omap _ _); by rewrite <- ?app_assoc.
    + apply IH.
  - cbn [omap list_omap decompose]. destruct did; cbn [negb].
    + intros [= <- _]. destruct (last <? length text); by rewrite ?app_nil_r.
    + by intros [= <- _].
Qed.

(** The text of the fragment under construction is the text up to
    [lastIndex]; at the end it is the whole text. *)
Lemma applyPatternLoop_text fuel sc re cs text li last frag did frag' li' :
  global re = true →
  applyPatternLoop fuel sc re cs text li last frag did = Some (Some frag', li') →
  last ≤ li → textOf frag = take last text →
  textOf frag' = text.
Proof.
  intros Hg. revert li last frag did.
  induction fuel as [|fuel IH]; intros li last frag did; [done|].
  cbn [applyPatternLoop].
  destruct (exec re text li) as [[[i m]|] li1] eqn:E.
  - apply exec_Some in E as (H1 & H2 & -> & H4 & _); [|done].
    destruct (lookupAnchor sc m cs) as [[|c a]|].
    + intros H Hl Ht. eapply IH; [done|lia|done].
    + intros H Hl Ht. eapply IH; [done|lia|].
      rewrite textOf_app. cbn [textOf flat_map]. rewrite textContent_createHighlight, app_nil_r.
      rewrite <- (take_take_drop text i (length m)), <- H4.
      f_equal. destruct (last <? i) eqn:El.
      * rewrite textOf_app, Ht. cbn. rewrite app_nil_r. unfold slice.
        rewrite take_take_drop. f_equal. apply Nat.ltb_lt in El. lia.
      * apply Nat.ltb_ge in El. rewrite Ht. f_equal. lia.
    + intros H Hl Ht. eapply IH; [done|lia|done].
  - destruct did; cbn [negb]; [|done]. intros [= <- _] Hl Ht.
    destruct (last <? length text) eqn:El.
    + rewrite textOf_app, Ht. cbn. rewrite app_nil_r. apply take_drop.
    + apply Nat.ltb_ge in El. rewrite Ht. by apply take_ge.
Qed.

Lemma applyPattern_text sc re cs text frag :
  global re = true →
  applyPattern sc re cs text = Done (Some frag) → textOf frag = text.
Proof.
  intros Hg. unfold applyPattern, applyPatternFrom.
  destruct (test re text 0) as [[] li]; [|done].
  destruct (applyPatternLoop _ _ _ _ _ _ _ _ _) as [[r li']|] eqn:E; [|done].
  intros [= ->]. eapply applyPatternLoop_text; [done|done|lia|done].
Qed.

Lemma decompose_segments text last ms :
  Forall (fun '(i, m, a) => a ≠ []) ms → Forall isSegment (decompose text last ms).
Proof.
  revert last. induction ms as [|[[i m] a] ms IH]; intros last H; cbn [decompose].
  - destruct (last <? length text); [|constructor].
    constructor; [left; by eexists|constructor].
  - apply Forall_cons in H as [Ha H]. apply Forall_app. split.
    + destruct (last <? i); [|constructor].
      constructor; [left; by eexists|constructor].
    + constructor; [right; by do 2 eexists|by apply IH].
Qed.

Lemma resolve_anchor sc cs l :
  Forall (fun '(i, m, a) => a ≠ []) (omap (resolve sc cs) l).
Proof.
  induction l as [|[i m] l IH]; [constructor|]. cbn. unfold resolve at 1. cbn.
  destruct (lookupAnchor sc m cs) as [[|c a]|]; [done| |done].
  by constructor.
Qed.

(** [applyPattern] in terms of the matches: the result is fixed by the
    resolved matches alone. *)
Lemma applyPattern_spec sc re cs text r :
  global re = true →
  applyPattern sc re cs text = Done r →
  r = match omap (resolve sc cs) (allMatches re text) with
      | [] => None
      | ms => Some (decompose text 0 ms)
      end.
Proof.
  intros Hg. unfold applyPattern, applyPatternFrom, test, allMatches.
  destruct (exec re text 0) as [[[i m]|] li] eqn:E; cbn [bool_decide].
  - rewrite bool_decide_true by done.
    destruct (applyPatternLoop _ _ _ _ _ _ _ _ _) as [[r' li']|] eqn:E'; [|done].
    intros [= <-]. by apply applyPatternLoop_spec in E'.
  - rewrite bool_decide_false by (by intros [? ?]).
    intros [= <-]. cbn [matchesFrom]. by rewrite E.
Qed.

(** ** The sorted list and the loaded script *)

Lemma elem_of_map {A B} (f : A → B) (l : list A) y :
  y ∈ map f l ↔ ∃ x, y = f x ∧ x ∈ l.
Proof.
  rewrite list_elem_of_In, in_map_iff. setoid_rewrite list_elem_of_In.
  split; intros (x & H1 & H2); exists x; by split.
Qed.

Lemma elem_of_insertByLength e x l : e ∈ insertByLength x l ↔ e = x ∨ e ∈ l.
Proof.
  induction l as [|y l IH]; cbn [insertByLength].
  - rewrite list_elem_of_singleton, elem_of_nil. tauto.
  - destruct (length (name x) <? length (name y));
      rewrite !elem_of_cons, ?IH; tauto.
Qed.

Lemma elem_of_sortByLengthDesc e l : e ∈ sortByLengthDesc l ↔ e ∈ l.
Proof.
  induction l as [|x l IH]; [done|]. cbn [sortByLengthDesc foldr].
  rewrite elem_of_insertByLength. fold (sortByLengthDesc l).
  rewrite elem_of_cons, IH. tauto.
Qed.

Lemma length_insertByLength x l : length (insertByLength x l) = S (length l).
Proof.
  induction l as [|y l IH]; [done|]. cbn [insertByLength].
  destruct (length (name x) <? length (name y)); cbn [length]; by rewrite ?IH.
Qed.

Lemma length_sortByLengthDesc l : length (sortByLengthDesc l) = length l.
Proof.
  induction l as [|x l IH]; [done|]. cbn [sortByLengthDesc foldr].
  rewrite length_insertByLength. fold (sortByLengthDesc l). by rewrite IH.
Qed.

Lemma longestFirst_cons y l :
  longestFirst l → Forall (fun e => length (name e) ≤ length (name y)) l →
  longestFirst (y :: l).
Proof.
  intros Hl Hy [|p pre] e post E.
  - constructor.
  - injection E as <- ->. constructor.
    + rewrite Forall_app, Forall_cons in Hy. tauto.
    + by eapply Hl.
Qed.

Lemma longestFirst_tail y l : longestFirst (y :: l) → longestFirst l.
Proof. intros H pre e post ->. by eapply Forall_cons, (H (y :: pre)). Qed.

Lemma longestFirst_head y l :
  longestFirst (y :: l) → Forall (fun e => length (name e) ≤ length (name y)) l.
Proof.
  intros H. apply Forall_forall. intros e He.
  apply list_elem_of_split in He as (pre & post & ->).
  specialize (H (y :: pre) e post eq_refl). by apply Forall_cons in H as [? _].
Qed.

Lemma longestFirst_insert x l : longestFirst l → longestFirst (insertByLength x l).
Proof.
  induction l as [|y l IH]; intros Hl; cbn [insertByLength].
  - apply longestFirst_cons; [done|constructor].
  - destruct (length (name x) <? length (name y)) eqn:E.
    + apply Nat.ltb_lt in E. apply longestFirst_cons.
      * apply IH. by eapply longestFirst_tail.
      * apply Forall_forall. intros e He. apply elem_of_insertByLength in He as [->|He]; [lia|].
        pose proof (longestFirst_head _ _ Hl) as Hh. rewrite Forall_forall in Hh. by apply Hh.
    + apply Nat.ltb_ge in E. apply longestFirst_cons; [done|].
      constructor; [done|].
      pose proof (longestFirst_head _ _ Hl) as Hh.
      eapply Forall_impl; [done|]. cbn. intros. lia.
Qed.

Lemma longestFirst_sort l : longestFirst (sortByLengthDesc l).
Proof.
  induction l as [|x l IH]; cbn [sortByLengthDesc foldr].
  - intros [|??] ???; done.
  - by apply longestFirst_insert.
Qed.

Lemma compiledAlternatives_cons l :
  l ≠ [] → compiledAlternatives l = map (fun e => termsOf (name e)) (sortByLengthDesc l).
Proof.
  intros Hl. unfold compiledAlternatives.
  destruct (sortByLengthDesc l) eqn:E; [|done].
  apply (f_equal length) in E. rewrite length_sortByLengthDesc in E. by destruct l.
Qed.

Lemma compiledAlternatives_productive l :
  l ≠ [] → nonEmptyNames l → productive (compiledAlternatives l).
Proof.
  intros Hl Hn. rewrite compiledAlternatives_cons by done.
  apply Forall_forall. intros ts Hts.
  apply elem_of_map in Hts as (e & -> & He).
  rewrite elem_of_sortByLengthDesc in He. unfold nonEmptyNames in Hn.
  rewrite Forall_forall in Hn. specialize (Hn e He). by destruct (name e).
Qed.

Lemma compiledAlternatives_empty l :
  l = [] ∨ (∃ e, e ∈ l ∧ name e = []) → [] ∈ compiledAlternatives l.
Proof.
  intros [->|(e & He & Hn)]; [by left|].
  rewrite compiledAlternatives_cons by (by intros ->; apply elem_of_nil in He).
  apply elem_of_map. exists e. rewrite Hn. split; [done|].
  by apply elem_of_sortByLengthDesc.
Qed.

Lemma loadScript_spec l cs sc :
  loadScript l cs = Some sc →
  mainPattern sc = mainPatternOf l ∧ csPattern sc = csPatternOf cs ∧
  anchorMapCI sc = buildAnchorMapCI l ∧
  anchorMapCS sc = match cs with Some l' => buildAnchorMapCS l' | None => ∅ end.
Proof.
  unfold loadScript. rewrite makePattern_compiled. cbn [mbind option_bind].
  destruct cs as [[|e l']|]; cbn [length Nat.ltb Nat.leb fmap option_fmap option_map mbind option_bind];
    rewrite ?makePattern_compiled; cbn [fmap option_fmap option_map mbind option_bind];
    by intros [= <-].
Qed.

Lemma loadScript_total l cs : is_Some (loadScript l cs).
Proof.
  unfold loadScript. rewrite makePattern_compiled. cbn [mbind option_bind].
  destruct cs as [[|e l']|]; cbn [length Nat.ltb Nat.leb fmap option_fmap option_map mbind option_bind];
    rewrite ?makePattern_compiled; done.
Qed.

Lemma loadScript_global l cs sc :
  loadScript l cs = Some sc →
  global (mainPattern sc) = true ∧ ∀ re, csPattern sc = Some re → global re = true.
Proof.
  intros H. apply loadScript_spec in H as (-> & -> & _). split; [done|].
  destruct cs as [[|e l']|]; cbn; intros re [= <-]; done.
Qed.

Lemma applyPattern_segments sc re cs text frag :
  global re = true →
  applyPattern sc re cs text = Done (Some frag) → Forall isSegment frag.
Proof.
  intros Hg H. apply applyPattern_spec in H; [|done].
  remember (omap (resolve sc cs) (allMatches re text)) as ms eqn:Eo.
  destruct ms as [|m ms]; [done|].
  replace frag with (decompose text 0 (m :: ms)) by congruence. rewrite Eo.
  apply decompose_segments, resolve_anchor.
Qed.

Lemma loadScript_scriptOf l cs : loadScript l cs = Some (scriptOf l cs).
Proof.
  destruct (loadScript_total l cs) as [sc H]. rewrite H. f_equal.
  apply loadScript_spec in H as (H1 & H2 & H3 & H4).
  destruct sc. cbn in *. by subst.
Qed.

(** *** Markers *)

Lemma createHighlight_inj m a m' a' :
  createHighlight m a = createHighlight m' a' → m = m' ∧ a = a'.
Proof.
  unfold createHighlight. intros [= Ha Hm]. split; [|done].
  destruct m, m'; cbn in Hm; congruence.
Qed.

Lemma elem_of_decompose_marker text last ms m a :
  createHighlight m a ∈ decompose text last ms → ∃ i, (i, m, a) ∈ ms.
Proof.
  revert last. induction ms as [|[[i m'] a'] ms IH]; intros last; cbn [decompose].
  - destruct (last <? length text); [|by rewrite elem_of_nil].
    rewrite list_elem_of_singleton. done.
  - rewrite elem_of_app, elem_of_cons. intros [H|[H|H]].
    + destruct (last <? i); [|by apply elem_of_nil in H].
      apply list_elem_of_singleton in H. done.
    + apply createHighlight_inj in H as [-> ->]. exists i. by left.
    + apply IH in H as [j Hj]. exists j. by right.
Qed.

Lemma elem_of_omap_resolve sc cs (l : list (nat * str)) (i : nat) m a :
  (i, m, a) ∈ omap (resolve sc cs) l →
  (i, m) ∈ l ∧ lookupAnchor sc m cs = Some a ∧ a ≠ [].
Proof.
  intros H. apply list_elem_of_omap in H as ([j m'] & Hin & H).
  unfold resolve in H. cbn [fst snd] in H.
  destruct (lookupAnchor sc m' cs) as [[|c a']|] eqn:E; try done.
  injection H as <- <- <-. done.
Qed.

(** Every marker of a fragment carries a matched text whose lookup gave the
    anchor of the marker. *)
Lemma applyPattern_marker sc re cs text frag m a :
  global re = true →
  applyPattern sc re cs text = Done (Some frag) →
  createHighlight m a ∈ frag →
  (∃ i, (i, m) ∈ allMatches re text) ∧ lookupAnchor sc m cs = Some a ∧ a ≠ [].
Proof.
  intros Hg H Hin. apply applyPattern_spec in H; [|done].
  remember (omap (resolve sc cs) (allMatches re text)) as ms eqn:Eo.
  destruct ms as [|x ms]; [done|].
  replace frag with (decompose text 0 (x :: ms)) in Hin by congruence.
  apply elem_of_decompose_marker in Hin as [i Hi]. rewrite Eo in Hi.
  apply elem_of_omap_resolve in Hi as (H1 & H2 & H3). split; [by exists i|done].
Qed.

(** ** The node highlighter *)

(** [applyPattern] as a function of the matches, for a pattern whose loop
    ends. *)
Lemma applyPattern_matches sc re cs text :
  global re = true → productive (alternatives re) →
  applyPattern sc re cs text =
  Done (match omap (resolve sc cs) (allMatches re text) with
        | [] => None
        | ms => Some (decompose text 0 ms)
        end).
Proof.
  intros Hg Hp. destruct (applyPattern_productive sc re cs text Hg Hp) as [r Hr].
  rewrite Hr. f_equal. by apply applyPattern_spec.
Qed.



(** C4. Text-content preservation: the texts of the nodes that stand in the
    place of a text node after [highlightTextNode], in order, make up the
    text of the node as it was; the nodes of a replacement are new plain
    text nodes and markers. *)
Theorem C4_text_content_preserved (l : list NameEntry) (cs : option (list NameEntry))
    (sc : Script) (r : option nat) (text : str) (log : list bool) (nodes : list node) :
  loadScript l cs = Some sc →
  highlightTextNode sc (Text r text) = Done (log, nodes) →
  textOf nodes = text ∧ (nodes = [Text r text] ∨ Forall isSegment nodes).
Proof.
  intros Hsc. destruct (loadScript_global _ _ _ Hsc) as [Hg Hgcs].
  cbn [highlightTextNode].
  destruct (applyPattern sc (mainPattern sc) false text) as [[frag|]|] eqn:E1;
    cbn [mbind outcome_bind]; [| |done].
  - intros [= <- <-]. split; [by eapply applyPattern_text|right].
    by eapply applyPattern_segments.
  - destruct (csPattern sc) as [re|] eqn:Ecs.
    + destruct (applyPattern sc re true text) as [[frag|]|] eqn:E2;
        cbn [mbind outcome_bind default]; [| |done].
      * intros [= <- <-]. split; [eapply applyPattern_text; [|done]; by apply Hgcs|right].
        eapply applyPattern_segments; [|done]. by apply Hgcs.
      * intros [= <- <-]. split; [cbn; by rewrite app_nil_r|by left].
    + intros [= <- <-]. split; [cbn; by rewrite app_nil_r|by left].
Qed.

Lemma C4_text_content_preserved_witness :
  textOf [Text None (lit "xx "); createHighlight (lit "bill   clinton") (lit "Bill_Clinton");
          Text None (lit " met")] = lit "xx bill   clinton met".
Proof.
  apply (C4_text_content_preserved billList None (scriptOf billList None) None
           (lit "xx bill   clinton met") [false]).
  - apply loadScript_scriptOf.
  - vm_compute. reflexivity.
Defined.



(** ** Empty names *)

Lemma C7_counterexample :
  ∃ sc, loadScript emptyNameList None = Some sc ∧
        [] ∈ alternatives (mainPattern sc) ∧
        matchAlternatives true (alternatives (mainPattern sc)) (lit "Bill") = Some 4 ∧
        matchAlternatives true (alternatives (mainPattern sc)) (lit "xyz") = Some 0 ∧
        matchAlternatives true (alternatives (mainPattern sc)) [] = Some 0 ∧
        (¬ ∃ fuel r, applyPatternFrom fuel sc (mainPattern sc) false (lit "Bill") 0 = Some r) ∧
        highlightTextNode sc (Text None (lit "Bill")) = Diverges.
Proof.
  eexists. split; [apply loadScript_scriptOf|].
  assert (He : [] ∈ compiledAlternatives emptyNameList) by (right; left).
  split_and!; [done|done|done|done| |].
  - intros (fuel & r & H). by rewrite applyPatternFrom_diverges in H.
  - cbn [highlightTextNode]. by rewrite applyPattern_empty_alternative.
Qed.

(** C7 (as the code has it).  The pattern compiler rejects and skips
    nothing: every entry, whatever its name, is an alternative of the
    pattern.  For a list that is not empty and has no empty name the pattern
    never matches the empty string and the loop of [applyPattern] ends for
    every text; with an entry whose name is empty the loop ends for no
    text. *)
Theorem C7_empty_names_and_termination (l : list NameEntry) (flags : str) (re : RegExp) :
  makePattern l flags = Some re →
  "g"%char ∈ flags →
  (∀ e, e ∈ l → termsOf (name e) ∈ alternatives re) ∧
  (l ≠ [] → nonEmptyNames l →
     ∀ sc cs text,
       (∀ s, matchAlternatives (ignoreCase re) (alternatives re) s ≠ Some 0) ∧
       ∃ r, applyPattern sc re cs text = Done r) ∧
  ((∃ e, e ∈ l ∧ name e = []) →
     ∀ sc cs text,
       (∀ fuel, applyPatternFrom fuel sc re cs text 0 = None) ∧
       applyPattern sc re cs text = Diverges).
Proof.
  rewrite makePattern_compiled. intros [= <-] Hg. cbn [alternatives ignoreCase].
  split_and!.
  - intros e He. rewrite compiledAlternatives_cons by (by intros ->; apply elem_of_nil in He).
    apply elem_of_map. exists e. split; [done|]. by apply elem_of_sortByLengthDesc.
  - intros Hl Hn sc cs text.
    pose proof (compiledAlternatives_productive l Hl Hn) as Hp. split.
    + intros s H. apply matchAlternatives_productive in H; [lia|done].
    + apply applyPattern_productive; [by apply bool_decide_eq_true|done].
  - intros He sc cs text.
    assert (He' : [] ∈ compiledAlternatives l) by (apply compiledAlternatives_empty; by right).
    split.
    + intros fuel. by apply applyPatternFrom_diverges.
    + by apply applyPattern_empty_alternative.
Qed.

Lemma C7_empty_names_and_termination_witness :
  ∃ r, applyPattern (scriptOf billList None) (mainPatternOf billList) false
         (lit "Bill Clinton visited.") = Done r.
Proof.
  destruct (C7_empty_names_and_termination billList (lit "gi") (mainPatternOf billList))
    as (_ & H & _).
  - apply makePattern_compiled.
  - vm_compute. by left.
  - apply H; [done|]. repeat constructor; discriminate.
Defined.

(** ** Names, matches and the anchor maps *)

Lemma lookupAnchor_keyOf sc m cs :
  lookupAnchor sc m cs = anchorMapOf sc cs !! keyOf cs (trim (collapseWhiteSpace m)).
Proof. by destruct cs. Qed.

Lemma white_canon_id ic c : isWhiteSpace c = true → Canonicalize ic c = c.
Proof.
  destruct ic; [|done]. cbn.
  destruct c as [[] [] [] [] [] [] [] []]; vm_compute; intros; congruence.
Qed.

Lemma canon_white ic x c :
  Canonicalize ic c = Canonicalize ic x → isWhiteSpace x = isWhiteSpace c.
Proof.
  intros H. rewrite <- (white_Canonicalize ic x), <- (white_Canonicalize ic c). by rewrite H.
Qed.

Lemma canon_white_eq ic x c :
  Canonicalize ic c = Canonicalize ic x → isWhiteSpace c = true → x = c.
Proof.
  intros H Hc. pose proof (canon_white _ _ _ H) as Hx. rewrite Hc in Hx.
  by rewrite (white_canon_id ic c Hc), (white_canon_id ic x Hx) in H.
Qed.

Lemma canon_keyOf cs K nm :
  map (Canonicalize (negb cs)) K = map (Canonicalize (negb cs)) nm →
  keyOf cs K = keyOf cs nm.
Proof.
  destruct cs; cbn [negb keyOf].
  - cbn. by rewrite !map_id.
  - unfold toLowerCase. revert nm. induction K as [|x K IH]; intros [|c nm]; try done.
    cbn. intros [= H1 H2]. f_equal; [by apply upper_eq_lower_eq|by apply IH].
Qed.

Lemma tidyFrom_mono s : tidyFrom true s = true → tidyFrom false s = true.
Proof.
  destruct s as [|c s]; [done|]. cbn. destruct (isWhiteSpace c); [|done].
  by rewrite andb_false_r.
Qed.

Lemma tidyFrom_canon ic b K nm :
  map (Canonicalize ic) K = map (Canonicalize ic) nm → tidyFrom b K = tidyFrom b nm.
Proof.
  revert b nm. induction K as [|x K IH]; intros b [|c nm]; try done.
  cbn. intros [= H1 H2]. symmetry in H1. rewrite (canon_white _ _ _ H1).
  destruct (isWhiteSpace c) eqn:Hc.
  - rewrite (canon_white_eq _ _ _ H1 Hc). f_equal. by apply IH.
  - by apply IH.
Qed.

Lemma tidyFrom_last b K c : tidyFrom b (K ++ [c]) = true → isWhiteSpace c = false.
Proof.
  revert b. induction K as [|x K IH]; intros b; cbn.
  - destruct (isWhiteSpace c); [|done]. by rewrite andb_false_r.
  - destruct (isWhiteSpace x).
    + intros H. apply andb_true_iff in H as [_ H]. by eapply IH.
    + apply IH.
Qed.

Lemma tidy_trim K : tidy K = true → trim K = K.
Proof.
  intros H. unfold trim.
  assert (Hs : trimStart K = K).
  { destruct K as [|c K]; [done|]. unfold tidy in H. cbn in *.
    destruct (isWhiteSpace c); [|done]. by rewrite andb_false_r in H. }
  rewrite Hs. unfold trimEnd.
  destruct K as [|c0 K0] using rev_ind; [done|].
  apply tidyFrom_last in H. rewrite rev_app_distr. cbn. rewrite H. cbn.
  by rewrite rev_involutive.
Qed.

Lemma collapseFrom_white b x t :
  isWhiteSpace x = true → collapseFrom b (x :: t) = (if b then [] else [" "%char]) ++ collapseFrom true t.
Proof. intros H. cbn. rewrite H. by destruct b. Qed.

Lemma collapseFrom_plain b x t :
  isWhiteSpace x = false → collapseFrom b (x :: t) = x :: collapseFrom false t.
Proof. intros H. cbn. by rewrite H. Qed.

Lemma termOf_white c :
  isWhiteSpace c = true → Ascii.eqb c " " = true → termOf c = TPlus AWhite.
Proof. intros _ H. unfold termOf. by rewrite H. Qed.

Lemma termOf_plain c : isWhiteSpace c = false → termOf c = TAtom (AChar c).
Proof.
  intros H. unfold termOf. destruct (Ascii.eqb c " ") eqn:E; [|done].
  apply Ascii.eqb_eq in E. subst c. done.
Qed.

(** A text that a tidy name matches collapses to the name, up to the case
    of the letters when the pattern ignores case. *)
Lemma matchTerms_collapse ic nm s n :
  tidyFrom false nm = true →
  matchTerms ic (termsOf nm) s = Some n →
  map (Canonicalize ic) (collapseFrom false (take n s)) = map (Canonicalize ic) nm.
Proof.
  revert s n. induction nm as [|c nm IH]; intros s n Ht Hm.
  - injection Hm as <-. by rewrite take_0.
  - cbn [tidyFrom] in Ht. cbn [termsOf map] in Hm. fold (termsOf nm) in Hm.
    destruct (isWhiteSpace c) eqn:Hc.
    + apply andb_true_iff in Ht as [Ht Ht']. apply andb_true_iff in Ht as [Hsp _].
      rewrite (termOf_white c Hc Hsp) in Hm. apply Ascii.eqb_eq in Hsp. subst c.
      assert (Hin : map (Canonicalize ic) (collapseFrom true (take n s)) =
                    map (Canonicalize ic) nm ∧ ∃ x s' n', s = x :: s' ∧ n = S n' ∧
                                                      isWhiteSpace x = true).
      { revert n Hm. induction s as [|x s IHs]; intros n Hm; [done|].
        rewrite matchTerms_plus_cons in Hm. cbn [atomMatches] in Hm.
        rewrite white_Canonicalize in Hm.
        destruct (isWhiteSpace x) eqn:Hx; [|done].
        destruct (matchTerms ic (TPlus AWhite :: termsOf nm) s) as [n0|] eqn:E.
        - injection Hm as <-. destruct (IHs n0 eq_refl) as [IH1 _].
          split; [|by do 3 eexists]. cbn [take]. by rewrite collapseFrom_white.
        - destruct (matchTerms ic (termsOf nm) s) as [n0|] eqn:E'; [|done].
          injection Hm as <-. split; [|by do 3 eexists].
          cbn [take]. rewrite collapseFrom_white by done. cbn [app].
          rewrite <- (IH s n0 (tidyFrom_mono _ Ht') E').
          destruct nm as [|d nm]; [done|]. cbn [tidyFrom] in Ht'.
          destruct (isWhiteSpace d) eqn:Hd; [by rewrite andb_false_r in Ht'|].
          cbn [termsOf map] in E'. rewrite (termOf_plain d Hd) in E'.
          destruct s as [|y s]; [done|]. rewrite matchTerms_atom_cons in E'.
          cbn [atomMatches] in E'. case_bool_decide as Hy; [|done].
          destruct (matchTerms ic (map termOf nm) s) as [n1|]; [|done].
          injection E' as <-. cbn [take].
          rewrite !collapseFrom_plain; [done| |];
            by rewrite (canon_white _ _ _ Hy). }
      destruct Hin as (Hin & x & s' & n' & -> & -> & Hx).
      cbn [take] in *. rewrite collapseFrom_white in Hin by done.
      rewrite collapseFrom_white by done. cbn [app map] in *.
      by rewrite Hin.
    + rewrite (termOf_plain c Hc) in Hm. destruct s as [|x s]; [done|].
      rewrite matchTerms_atom_cons in Hm. cbn [atomMatches] in Hm.
      case_bool_decide as Hx; [|done].
      destruct (matchTerms ic (termsOf nm) s) as [n0|] eqn:E; [|done].
      injection Hm as <-. cbn [take].
      rewrite collapseFrom_plain by (by rewrite (canon_white _ _ _ Hx)).
      cbn [map]. rewrite Hx. f_equal. by apply IH.
Qed.

Lemma matchTerms_key cs nm s n :
  tidy nm = true →
  matchTerms (negb cs) (termsOf nm) s = Some n →
  keyOf cs (trim (collapseWhiteSpace (take n s))) = keyOf cs nm.
Proof.
  intros Ht Hm.
  pose proof (matchTerms_collapse _ _ _ _ (tidyFrom_mono _ Ht) Hm) as Hc.
  fold (collapseWhiteSpace (take n s)) in Hc.
  rewrite tidy_trim; [by apply canon_keyOf|].
  unfold tidy. by rewrite (tidyFrom_canon _ _ _ _ Hc).
Qed.

(** *** The anchor maps *)

Section AnchorMap.
Context (key : NameEntry → str).

Lemma build_lookup_keep l m0 k a :
  m0 !! k = Some a →
  ∃ a', buildFrom key m0 l !! k = Some a' ∧
        (a' = a ∨ ∃ e, e ∈ l ∧ key e = k ∧ a' = anchor e).
Proof.
  revert m0 a. induction l as [|x l IH]; intros m0 a H; cbn.
  - exists a. by split; [|left].
  - destruct (decide (key x = k)) as [<-|Hne].
    + destruct (IH (<[key x := anchor x]> m0) (anchor x)) as (a' & H1 & H2);
        [by rewrite lookup_insert_eq|].
      exists a'. split; [done|]. right. destruct H2 as [->|(e & He & Hk & ->)].
      * exists x. by split; [left|].
      * exists e. by split; [right|].
    + destruct (IH (<[key x := anchor x]> m0) a) as (a' & H1 & H2);
        [by rewrite lookup_insert_ne|].
      exists a'. split; [done|]. destruct H2 as [->|(e & He & Hk & ->)]; [by left|].
      right. exists e. by split; [right|].
Qed.

Lemma build_lookup_elem l m0 e :
  e ∈ l → ∃ e', e' ∈ l ∧ key e' = key e ∧ buildFrom key m0 l !! key e = Some (anchor e').
Proof.
  revert m0. induction l as [|x l IH]; intros m0 He; [by apply elem_of_nil in He|].
  cbn. apply elem_of_cons in He as [->|He].
  - destruct (build_lookup_keep l (<[key x := anchor x]> m0) (key x) (anchor x))
      as (a' & H1 & H2); [by rewrite lookup_insert_eq|].
    destruct H2 as [->|(e & He & Hk & ->)].
    + exists x. by split; [left|].
    + exists e. by split; [right|].
  - destruct (IH (<[key x := anchor x]> m0) He) as (e' & H1 & H2 & H3).
    exists e'. by split; [right|].
Qed.

Lemma build_lookup_inv l m0 k a :
  buildFrom key m0 l !! k = Some a →
  m0 !! k = Some a ∨ ∃ e, e ∈ l ∧ key e = k ∧ a = anchor e.
Proof.
  revert m0. induction l as [|x l IH]; intros m0 H; [by left|].
  cbn in H. apply IH in H as [H|(e & He & Hk & ->)].
  - destruct (decide (key x = k)) as [<-|Hne].
    + rewrite lookup_insert_eq in H. injection H as <-. right. exists x. by split; [left|].
    + rewrite lookup_insert_ne in H by done. by left.
  - right. exists e. by split; [right|].
Qed.

End AnchorMap.

Lemma anchorMapOf_loaded l cs sc b :
  loadScript l cs = Some sc →
  anchorMapOf sc b =
  foldl (fun m e => <[keyOf b (name e) := anchor e]> m) ∅ (partition l cs b).
Proof.
  intros H. apply loadScript_spec in H as (_ & _ & H1 & H2).
  destruct b; cbn [anchorMapOf partition keyOf].
  - rewrite H2. by destruct cs.
  - by rewrite H1.
Qed.

(** Every anchor the script can look up is the anchor of an entry whose
    name, as the partition spells its keys, is the key asked for. *)
Lemma lookupAnchor_entry l cs sc m b a :
  loadScript l cs = Some sc →
  lookupAnchor sc m b = Some a →
  ∃ e, e ∈ partition l cs b ∧ anchor e = a ∧
       keyOf b (name e) = keyOf b (trim (collapseWhiteSpace m)).
Proof.
  intros Hsc. rewrite lookupAnchor_keyOf, (anchorMapOf_loaded _ _ _ _ Hsc).
  intros H. apply build_lookup_inv in H as [H|(e & He & Hk & ->)]; [done|].
  by exists e.
Qed.

(** *** The first alternative that matches *)

Lemma matchAlternatives_first {A} ic (g : A → list term) (L : list A) s n :
  matchAlternatives ic (map g L) s = Some n →
  ∃ pre M post, L = pre ++ M :: post ∧ matchTerms ic (g M) s = Some n ∧
                Forall (fun x => matchTerms ic (g x) s = None) pre.
Proof.
  induction L as [|x L IH]; [done|]. cbn.
  destruct (matchTerms ic (g x) s) as [n'|] eqn:E.
  - intros [= <-]. exists [], x, L. by repeat split.
  - intros H. destruct (IH H) as (pre & M & post & -> & H1 & H2).
    exists (x :: pre), M, post. repeat split; [done|by constructor].
Qed.

Lemma keyOf_canon cs K nm :
  keyOf cs K = keyOf cs nm →
  map (Canonicalize (negb cs)) K = map (Canonicalize (negb cs)) nm.
Proof.
  destruct cs; cbn [negb keyOf].
  - intros ->. done.
  - unfold toLowerCase. revert nm. induction K as [|x K IH]; intros [|c nm]; try done.
    cbn. intros [= H1 H2]. f_equal; [by apply upper_eq_lower_eq|by apply IH].
Qed.

(** The alternative of a name matches where the name stands, whatever
    follows. *)
Lemma matchTerms_occurrence ic nm occ post :
  map (Canonicalize ic) occ = map (Canonicalize ic) nm →
  is_Some (matchTerms ic (termsOf nm) (occ ++ post)).
Proof.
  revert occ. induction nm as [|c nm IH]; intros [|x occ] H; try done.
  cbn in H. injection H as Hx H. specialize (IH occ H).
  cbn [termsOf map app]. fold (termsOf nm). unfold termOf.
  destruct (Ascii.eqb c " ") eqn:Hc.
  - apply Ascii.eqb_eq in Hc. subst c. rewrite matchTerms_plus_cons. cbn [atomMatches].
    rewrite Hx, white_Canonicalize. change (isWhiteSpace " ") with true. cbn iota.
    destruct (matchTerms ic (TPlus AWhite :: termsOf nm) (occ ++ post)); [done|].
    destruct IH as [n ->]. done.
  - rewrite matchTerms_atom_cons. cbn [atomMatches]. rewrite bool_decide_true by done.
    destruct IH as [n ->]. done.
Qed.

Lemma matchAlternatives_elem {A} ic (g : A → list term) (L : list A) e s :
  e ∈ L → is_Some (matchTerms ic (g e) s) →
  ∃ n pre M post, matchAlternatives ic (map g L) s = Some n ∧
                  L = pre ++ M :: post ∧ matchTerms ic (g M) s = Some n ∧
                  (M = e ∨ e ∈ post).
Proof.
  induction L as [|x L IH]; intros He Hm; [by apply elem_of_nil in He|]. cbn.
  destruct (matchTerms ic (g x) s) as [n'|] eqn:E.
  - exists n', [], x, L. apply elem_of_cons in He. split_and!; try done.
    destruct He as [->|He]; [by left|by right].
  - apply elem_of_cons in He as [->|He]; [rewrite E in Hm; by destruct Hm|].
    destruct (IH He Hm) as (n & pre & M & post & H1 & -> & H2 & H3).
    exists n, (x :: pre), M, post. by split_and!.
Qed.

Lemma search_here re s i n :
  matchAlternatives (ignoreCase re) (alternatives re) s = Some n →
  search re s i = Some (i, n).
Proof. intros H. destruct s; cbn [search]; by rewrite H. Qed.

Lemma length_termsOf nm : length (termsOf nm) = length nm.
Proof. apply length_map. Qed.

(** Where the name of an entry stands at the start of the text, the
    pattern of its list matches there, with an alternative that is the one
    of the entry or comes before it, and so takes at least as many code
    units as the name has. *)
Lemma exec_occurrence l b e occ post :
  e ∈ l → keyOf b occ = keyOf b (name e) →
  ∃ n M, exec (patternOf l b) (occ ++ post) 0 = (Some (0, take n (occ ++ post)), n) ∧
         M ∈ l ∧ length (name e) ≤ length (name M) ∧ length (name M) ≤ n ∧
         n ≤ length (occ ++ post) ∧
         matchTerms (negb b) (termsOf (name M)) (occ ++ post) = Some n.
Proof.
  intros He Hk. apply keyOf_canon in Hk.
  pose proof (matchTerms_occurrence _ _ _ post Hk) as Hm.
  assert (Hl : l ≠ []) by (intros ->; by apply elem_of_nil in He).
  rewrite <- elem_of_sortByLengthDesc in He.
  destruct (matchAlternatives_elem (negb b) (fun e => termsOf (name e))
              (sortByLengthDesc l) e (occ ++ post) He Hm)
    as (n & pre & M & post' & H1 & H2 & H3 & H4).
  exists n, M. pose proof (matchTerms_bounds _ _ _ _ H3) as [Hb1 Hb2].
  rewrite length_termsOf in Hb1. split_and!; try done.
  - unfold exec. cbn [patternOf global]. cbn [length Nat.ltb Nat.leb drop].
    rewrite (search_here _ _ _ n); [done|].
    cbn [patternOf alternatives ignoreCase]. by rewrite compiledAlternatives_cons.
  - apply elem_of_sortByLengthDesc. rewrite H2. apply elem_of_app. right. by left.
  - destruct H4 as [->|H4]; [done|].
    apply list_elem_of_split in H4 as (p1 & p2 & ->).
    pose proof (longestFirst_sort l) as Hs.
    specialize (Hs (pre ++ M :: p1) e p2). rewrite H2, <- app_assoc in Hs.
    specialize (Hs eq_refl). rewrite Forall_app, Forall_cons in Hs. tauto.
Qed.

(** The text that the alternative of a tidy name takes is looked up under
    the key of that name, and the map has an entry for it. *)
Lemma match_resolves l cs sc b M s n :
  loadScript l cs = Some sc →
  M ∈ partition l cs b → tidy (name M) = true →
  matchTerms (negb b) (termsOf (name M)) s = Some n →
  ∃ e, e ∈ partition l cs b ∧ keyOf b (name e) = keyOf b (name M) ∧
       length (name e) = length (name M) ∧
       lookupAnchor sc (take n s) b = Some (anchor e) ∧
       keyOf b (trim (collapseWhiteSpace (take n s))) = keyOf b (name e).
Proof.
  intros Hsc HM Ht Ha.
  pose proof (matchTerms_key b _ _ _ Ht Ha) as Hk.
  destruct (build_lookup_elem (fun e => keyOf b (name e)) (partition l cs b) ∅ M HM)
    as (e & He & Hke & Hlook).
  exists e. split_and!; try done.
  - destruct b; cbn [keyOf] in Hke; [by rewrite Hke|].
    apply (f_equal length) in Hke. unfold toLowerCase in Hke. by rewrite !length_map in Hke.
  - by rewrite lookupAnchor_keyOf, (anchorMapOf_loaded _ _ _ _ Hsc), Hk.
  - by rewrite Hk.
Qed.

(** With tidy names and non-empty anchors every match is resolved. *)
Lemma exec_resolves l cs sc b text li i m li' :
  loadScript l cs = Some sc →
  Forall wellFormedEntry (partition l cs b) → partition l cs b ≠ [] →
  exec (patternOf (partition l cs b) b) text li = (Some (i, m), li') →
  ∃ e, e ∈ partition l cs b ∧ anchor e ≠ [] ∧ lookupAnchor sc m b = Some (anchor e) ∧
       keyOf b (trim (collapseWhiteSpace m)) = keyOf b (name e) ∧
       length (name e) ≤ length m.
Proof.
  intros Hsc Hwf Hne He. apply exec_Some in He as (_ & _ & _ & Hm & Ha & _); [|done].
  cbn [patternOf alternatives ignoreCase] in Ha.
  rewrite compiledAlternatives_cons in Ha by done.
  apply matchAlternatives_first in Ha as (pre & M & post & HL & Ha & _).
  assert (HM : M ∈ partition l cs b).
  { apply elem_of_sortByLengthDesc. rewrite HL. apply elem_of_app. right. by left. }
  rewrite Forall_forall in Hwf. destruct (Hwf M HM) as [Ht _].
  destruct (match_resolves _ _ _ _ _ _ _ Hsc HM Ht Ha) as (e & He & Hke & Hlen & Hlook & Hk).
  rewrite <- Hm in Hlook, Hk.
  exists e. split_and!; try done.
  - by apply Hwf.
  - apply matchTerms_bounds in Ha as [Ha _]. rewrite length_termsOf in Ha. lia.
Qed.

Lemma tidy_nonempty s : tidy s = true → s ≠ [].
Proof. by intros H ->. Qed.

Lemma wellFormed_nonEmptyNames l : Forall wellFormedEntry l → nonEmptyNames l.
Proof.
  intros H. eapply Forall_impl; [done|]. intros e [Ht _]. by apply tidy_nonempty.
Qed.

Lemma mainPattern_loaded l cs sc :
  loadScript l cs = Some sc → mainPattern sc = patternOf l false.
Proof. intros H. by apply loadScript_spec in H as (-> & _). Qed.

Lemma csPattern_loaded l cs sc re :
  loadScript l cs = Some sc → csPattern sc = Some re →
  ∃ csl, cs = Some csl ∧ csl ≠ [] ∧ re = patternOf csl true.
Proof.
  intros H. apply loadScript_spec in H as (_ & -> & _).
  destruct cs as [[|e csl]|]; try done. intros [= <-]. by eexists.
Qed.

(** The first match at index 0, resolved: the fragment starts with its
    marker. *)
Lemma applyPattern_first_marker sc re cs text m n a :
  global re = true → productive (alternatives re) →
  exec re text 0 = (Some (0, m), n) →
  lookupAnchor sc m cs = Some a → a ≠ [] →
  ∃ rest, applyPattern sc re cs text = Done (Some (createHighlight m a :: rest)).
Proof.
  intros Hg Hp He Hl Ha.
  rewrite (applyPattern_matches sc re cs text Hg Hp).
  unfold allMatches. cbn [matchesFrom]. rewrite He. cbn [omap list_omap].
  unfold resolve at 1. cbn [fst snd]. rewrite Hl.
  destruct a as [|c a]; [done|]. cbn [decompose].
  change (0 <? 0) with false. cbn [app]. by eexists.
Qed.

(** ** Case-sensitive and case-insensitive names *)

Lemma tidyFrom_collapse K : tidyFrom false K = true → collapseFrom false K = K.
Proof.
  induction K as [|c K IH]; [done|]. cbn [tidyFrom]. destruct (isWhiteSpace c) eqn:Hc.
  - intros H. apply andb_true_iff in H as [H Ht]. apply andb_true_iff in H as [Hsp _].
    apply Ascii.eqb_eq in Hsp. subst c. rewrite collapseFrom_white by done. cbn [app].
    f_equal. rewrite <- IH at 2 by (by apply tidyFrom_mono).
    destruct K as [|d K]; [done|]. cbn [tidyFrom] in Ht.
    destruct (isWhiteSpace d) eqn:Hd; [by rewrite andb_false_r in Ht|].
    by rewrite !collapseFrom_plain.
  - intros H. rewrite collapseFrom_plain by done. f_equal. by apply IH.
Qed.

Lemma tidy_normalised K : tidy K = true → trim (collapseWhiteSpace K) = K.
Proof.
  intros H. unfold collapseWhiteSpace.
  rewrite tidyFrom_collapse by (by apply tidyFrom_mono). by apply tidy_trim.
Qed.

Lemma keyOf_tidy b t nm : keyOf b t = keyOf b nm → tidy nm = true → tidy t = true.
Proof.
  intros Hk Ht. apply keyOf_canon in Hk. unfold tidy.
  by rewrite (tidyFrom_canon _ _ _ _ Hk).
Qed.

Lemma keyOf_length b t nm : keyOf b t = keyOf b nm → length t = length nm.
Proof.
  destruct b; cbn [keyOf]; [by intros ->|]. intros H.
  apply (f_equal length) in H. unfold toLowerCase in H. by rewrite !length_map in H.
Qed.

Lemma exec_at_end re text :
  global re = true → productive (alternatives re) →
  exec re text (length text) = (None, 0).
Proof.
  intros Hg Hp. unfold exec. rewrite Hg, Nat.ltb_irrefl, drop_all. cbn [search].
  destruct (matchAlternatives _ _ []) as [n|] eqn:E; [|done].
  pose proof (matchAlternatives_productive _ _ _ _ Hp E).
  apply matchAlternatives_bounds in E. cbn in E. lia.
Qed.

(** A text that is one match from end to end, resolved: the fragment is
    its marker. *)
Lemma applyPattern_whole sc re cs t a :
  global re = true → productive (alternatives re) →
  exec re t 0 = (Some (0, t), length t) →
  lookupAnchor sc t cs = Some a → a ≠ [] →
  applyPattern sc re cs t = Done (Some [createHighlight t a]).
Proof.
  intros Hg Hp He Hl Ha.
  rewrite (applyPattern_matches sc re cs t Hg Hp).
  unfold allMatches. cbn [matchesFrom]. rewrite He.
  assert (Hm : matchesFrom (length t) re t (length t) = []).
  { destruct (length t) eqn:E; [done|]. cbn [matchesFrom].
    rewrite <- E. by rewrite exec_at_end. }
  rewrite Hm. cbn [omap list_omap]. unfold resolve. cbn [fst snd]. rewrite Hl.
  destruct a as [|c a]; [done|]. cbn [decompose].
  change (0 <? 0) with false. cbn [app plus]. by rewrite Nat.ltb_irrefl.
Qed.

Lemma valid_nonEmptyNames l : Forall validEntry l → nonEmptyNames l.
Proof. intros H. eapply Forall_impl; [done|]. by intros e [Hn _]. Qed.

(** A text node that is the tidy name of an entry of a partition, spelled
    as the partition reads it, becomes one marker under the pattern of the
    partition. *)
Lemma applyPattern_name l cs sc b e t :
  loadScript l cs = Some sc →
  Forall validEntry (partition l cs b) →
  e ∈ partition l cs b → tidy (name e) = true →
  keyOf b t = keyOf b (name e) →
  ∃ e', e' ∈ partition l cs b ∧ keyOf b (name e') = keyOf b (name e) ∧
        applyPattern sc (patternOf (partition l cs b) b) b t =
        Done (Some [createHighlight t (anchor e')]).
Proof.
  intros Hsc Hv He Hte Hk. set (L := partition l cs b) in *.
  assert (HL : L ≠ []) by (intros E; rewrite E in He; by apply elem_of_nil in He).
  destruct (exec_occurrence L b e t [] He Hk)
    as (n & M & Hex & HM & Hlen1 & Hlen2 & Hn & Hmatch).
  rewrite app_nil_r in *. pose proof (keyOf_length _ _ _ Hk) as Hlt.
  assert (n = length t) as -> by lia. rewrite take_ge in Hex by lia.
  destruct (build_lookup_elem (fun e => keyOf b (name e)) L ∅ e He)
    as (e' & He' & Hke & Hlook).
  pose proof Hv as Hv'. rewrite Forall_forall in Hv'.
  exists e'. split_and!; [done|done|].
  apply applyPattern_whole; try done.
  - apply compiledAlternatives_productive; [done|by apply valid_nonEmptyNames].
  - rewrite lookupAnchor_keyOf, (anchorMapOf_loaded _ _ _ _ Hsc).
    rewrite (tidy_normalised t) by (by eapply keyOf_tidy). by rewrite Hk.
  - by apply Hv'.
Qed.

(** ** The subtree walker *)

Lemma node_ind' (P : node → Prop) :
  (∀ r v, P (Text r v)) →
  (∀ r tag cls attrs kids, Forall P kids → P (Element r tag cls attrs kids)) →
  (∀ r t, P (Other r t)) →
  ∀ n, P n.
Proof.
  intros HT HE HO. fix IH 1. intros [r v|r tag cls attrs kids|r t].
  - apply HT.
  - apply HE. induction kids as [|k kids IHk]; constructor; [apply IH|apply IHk].
  - apply HO.
Qed.

Lemma processSubtree_Element sc a r tag cls attrs kids :
  processSubtree sc a (Element r tag cls attrs kids) =
  kids' ← processChildren sc tag (a || bool_decide (HL_CLASS ∈ cls)) kids;
  Done (Element r tag cls attrs kids').
Proof. reflexivity. Qed.

Lemma processChildren_cons sc tag b k l :
  processChildren sc tag b (k :: l) =
  new ← processChild sc tag b k; rest ← processChildren sc tag b l; Done (new ++ rest).
Proof. reflexivity. Qed.


(** Nothing below an element that carries the class is touched. *)
Lemma processSubtree_insideHL sc n : processSubtree sc true n = Done n.
Proof.
  induction n as [r v|r tag cls attrs kids IH|r t] using node_ind'; [done| |done].
  rewrite processSubtree_Element. cbn [orb].
  assert (H : processChildren sc tag true kids = Done kids).
  { induction IH as [|k kids Hk _ IHk]; [done|].
    rewrite processChildren_cons, IHk.
    assert (Hc : processChild sc tag true k = Done [k]).
    { destruct k as [r' v|r' tag' cls' attrs' kids'|r' t']; cbn [processChild].
      - unfold acceptNode. by destruct (bool_decide (tag ∈ SKIP_TAGS)).
      - by rewrite Hk.
      - done. }
    by rewrite Hc. }
  by rewrite H.
Qed.

Lemma processSubtree_HL sc a r tag cls attrs kids :
  HL_CLASS ∈ cls →
  processSubtree sc a (Element r tag cls attrs kids) = Done (Element r tag cls attrs kids).
Proof.
  intros H. pose proof (processSubtree_insideHL sc (Element r tag cls attrs kids)) as Hi.
  rewrite processSubtree_Element in *. rewrite bool_decide_true by done.
  by rewrite orb_true_r.
Qed.

(** ** Exclusion zones *)

Lemma protectedTexts_Element r tag cls attrs kids :
  protectedTexts (Element r tag cls attrs kids) = flat_map (protectedIn tag) kids.
Proof. cbn. induction kids as [|k kids IH]; [done|]. cbn. by rewrite IH. Qed.

Lemma C8_counterexample :
  ∃ sc, loadScript mainList None = Some sc ∧
    processSubtree sc false
      (Element None (lit "PRE") [] []
         [Element None (lit "B") [] [] [Text None (lit "Bill Clinton")]]) =
    Done (Element None (lit "PRE") [] []
            [Element None (lit "B") [] []
               [createHighlight (lit "Bill Clinton") (lit "Bill_Clinton")]]).
Proof.
  eexists. split; [apply loadScript_scriptOf|]. vm_compute. reflexivity.
Qed.

Lemma applyPatternLoop_segments fuel sc re cs text li last frag did frag' li' :
  applyPatternLoop fuel sc re cs text li last frag did = Some (Some frag', li') →
  Forall isSegment frag → Forall isSegment frag'.
Proof.
  revert li last frag did. induction fuel as [|fuel IH]; intros li last frag did; [done|].
  cbn [applyPatternLoop].
  destruct (exec re text li) as [[[i m]|] li1] eqn:E.
  - destruct (lookupAnchor sc m cs) as [[|c a]|]; try apply IH.
    intros H Hf. eapply IH; [done|]. apply Forall_app. split.
    + destruct (last <? i); [|done]. apply Forall_app. split; [done|].
      constructor; [left; by eexists|constructor].
    + constructor; [right; by do 2 eexists|constructor].
  - destruct did; cbn [negb]; [|done]. intros [= <- _] Hf.
    destruct (last <? length text); [|done]. apply Forall_app. split; [done|].
    constructor; [left; by eexists|constructor].
Qed.

Lemma highlightTextNode_nodes sc r v log nodes :
  highlightTextNode sc (Text r v) = Done (log, nodes) →
  nodes = [Text r v] ∨ Forall isSegment nodes.
Proof.
  assert (Hseg : ∀ re cs frag, applyPattern sc re cs v = Done (Some frag) →
                               Forall isSegment frag).
  { intros re cs frag. unfold applyPattern, applyPatternFrom.
    destruct (test re v 0) as [[] li]; [|done].
    destruct (applyPatternLoop _ _ _ _ _ _ _ _ _) as [[r' li']|] eqn:E; [|done].
    intros [= ->]. eapply applyPatternLoop_segments; [done|constructor]. }
  cbn [highlightTextNode].
  destruct (applyPattern sc (mainPattern sc) false v) as [[frag|]|] eqn:E1;
    cbn [mbind outcome_bind]; [| |done].
  - intros [= <- <-]. right. by eapply Hseg.
  - destruct (csPattern sc) as [re|].
    + destruct (applyPattern sc re true v) as [[frag|]|] eqn:E2;
        cbn [mbind outcome_bind default]; [| |done].
      * intros [= <- <-]. right. by eapply Hseg.
      * intros [= <- <-]. by left.
    + intros [= <- <-]. by left.
Qed.

Lemma protectedIn_segment tag n :
  bool_decide (tag ∈ SKIP_TAGS) = false → isSegment n → protectedIn tag n = [].
Proof.
  intros Ht [[v ->]|(m & a & -> & _)]; cbn [protectedIn]; [by rewrite Ht|].
  by destruct m.
Qed.

Lemma processChild_protected sc tag b k new :
  (∀ a k', processSubtree sc a k = Done k' → protectedTexts k' = protectedTexts k) →
  processChild sc tag b k = Done new →
  flat_map (protectedIn tag) new = protectedIn tag k.
Proof.
  intros IH. destruct k as [r v|r tag' cls attrs kids|r t]; cbn [processChild].
  - unfold acceptNode. destruct (bool_decide (tag ∈ SKIP_TAGS)) eqn:Ht.
    { intros [= <-]. cbn [flat_map]. by rewrite app_nil_r. }
    destruct b; [intros [= <-]; cbn [flat_map]; by rewrite app_nil_r|].
    destruct (bool_decide (trim v = []));
      [intros [= <-]; cbn [flat_map]; by rewrite app_nil_r|].
    destruct (highlightTextNode sc (Text r v)) as [[log nodes]|] eqn:E; [|done].
    cbn [fmap outcome_fmap snd]. intros [= <-]. cbn [protectedIn]. rewrite Ht.
    apply highlightTextNode_nodes in E as [->|Hseg];
      [cbn [flat_map protectedIn]; by rewrite Ht|].
    induction Hseg as [|n nodes Hn _ IHn]; [done|]. cbn [flat_map].
    by rewrite (protectedIn_segment tag n Ht Hn), IHn.
  - destruct (processSubtree sc b (Element r tag' cls attrs kids)) as [k'|] eqn:E; [|done].
    cbn. intros [= <-]. cbn [flat_map]. rewrite app_nil_r.
    pose proof (IH _ _ E) as Hp. rewrite processSubtree_Element in E.
    destruct (processChildren _ _ _ _); [|done]. injection E as <-. done.
  - intros [= <-]. done.
Qed.

(** C8 (as the code has it).  The filter looks at the tag of the parent
    element of a text node, not further up.  In an element with a tag of
    the exclusion set a scan walks the child elements and leaves every other
    child, text nodes with names in them included, as it is and where it is;
    and over a whole subtree the text nodes that are children of excluded
    elements are after the scan what they were before. *)
Theorem C8_exclusion_zones (sc : Script) :
  (∀ a r tag cls attrs kids, tag ∈ SKIP_TAGS →
     processSubtree sc a (Element r tag cls attrs kids) =
     kids' ← mapM (walkElementsOnly sc (a || bool_decide (HL_CLASS ∈ cls))) kids;
     Done (Element r tag cls attrs kids')) ∧
  (∀ a root root', processSubtree sc a root = Done root' →
     protectedTexts root' = protectedTexts root).
Proof.
  split.
  - intros a r tag cls attrs kids Ht. rewrite processSubtree_Element.
    set (b := a || bool_decide (HL_CLASS ∈ cls)).
    assert (H : processChildren sc tag b kids = mapM (walkElementsOnly sc b) kids);
      [|by rewrite H].
    induction kids as [|k kids IH]; [done|].
    rewrite processChildren_cons, IH. cbn [mapM].
    destruct k as [r' v|r' tag' cls' attrs' kids'|r' t]; cbn [processChild walkElementsOnly].
    + unfold acceptNode. rewrite bool_decide_true by done. done.
    + destruct (processSubtree _ _ _); [|done]. done.
    + done.
  - intros a root. revert a.
    induction root as [r v|r tag cls attrs kids IH|r t] using node_ind';
      intros a root'; [by intros [= <-]| |by intros [= <-]].
    rewrite processSubtree_Element.
    destruct (processChildren _ _ _ kids) as [kids'|] eqn:E; [|done].
    cbn. intros [= <-]. rewrite !protectedTexts_Element.
    revert kids' E. induction IH as [|k kids Hk _ IHk]; intros kids' E.
    + by injection E as <-.
    + rewrite processChildren_cons in E.
      destruct (processChild _ _ _ k) as [new|] eqn:Ec; [|done]. cbn in E.
      destruct (processChildren _ _ _ kids) as [rest|]; [|done]. cbn in E.
      injection E as <-. rewrite flat_map_app. cbn [flat_map].
      rewrite (IHk rest eq_refl). f_equal.
      eapply processChild_protected; [|done]. intros a' k'. apply Hk.
Qed.

Lemma C8_exclusion_zones_witness :
  protectedTexts
    (Element None (lit "PRE") [] []
       [Text None (lit "Bill Clinton");
        Element None (lit "B") [] [] [createHighlight (lit "Bill Clinton") (lit "Bill_Clinton")]]) =
  protectedTexts
    (Element None (lit "PRE") [] []
       [Text None (lit "Bill Clinton");
        Element None (lit "B") [] [] [Text None (lit "Bill Clinton")]]).
Proof.
  destruct (C8_exclusion_zones (scriptOf mainList None)) as [_ H].
  apply (H false). vm_compute. reflexivity.
Defined.

(** ** Scanning again *)











Lemma processSubtree_is_Element sc a r tag cls attrs kids n :
  processSubtree sc a (Element r tag cls attrs kids) = Done n →
  ∃ kids', n = Element r tag cls attrs kids' ∧
           processChildren sc tag (a || bool_decide (HL_CLASS ∈ cls)) kids = Done kids'.
Proof.
  rewrite processSubtree_Element. destruct (processChildren _ _ _ _) as [kids'|]; [|done].
  intros [= <-]. by exists kids'.
Qed.






(** ** The mutation observer *)

Lemma labels_Element r tag cls attrs kids :
  labels (Element r tag cls attrs kids) =
  labelOf (Element r tag cls attrs kids) ++ flat_map labels kids.
Proof.
  reflexivity.
Qed.


Lemma findNode_leaf r n :
  (∀ ref tag cls attrs kids, n ≠ Element ref tag cls attrs kids) →
  findNode r n = if bool_decide (refOf n = Some r) then Some n else None.
Proof. destruct n; [done| |done]. intros H. by destruct (H ref tagName classList attributes childNodes). Qed.







Lemma keeps_refl L : keeps L L.
Proof. by split. Qed.

Lemma keeps_app L1 L1' L2 L2' : keeps L1 L1' → keeps L2 L2' → keeps (L1 ++ L2) (L1' ++ L2').
Proof.
  intros [S1 E1] [S2 E2]. split; [by apply sublist_app|].
  intros r sh. rewrite !elem_of_app. intros [H|H]; [left; by apply E1|right; by apply E2].
Qed.


Lemma labels_segments frag : Forall isSegment frag → flat_map labels frag = [].
Proof.
  induction 1 as [|n frag Hn _ IH]; [done|]. cbn [flat_map]. rewrite IH, app_nil_r.
  destruct Hn as [[v ->]|(m & a & -> & _)]; [done|]. by destruct m.
Qed.

Lemma keeps_dropped n :
  shapeOf n = None → keeps (labelOf n) [].
Proof.
  intros H. split; [apply sublist_nil_l|]. intros r sh. unfold labelOf. rewrite H.
  destruct (refOf n); [|by intros ?%elem_of_nil]. rewrite list_elem_of_singleton. done.
Qed.

Lemma processChild_keeps sc tag b k new :
  (∀ a k', processSubtree sc a k = Done k' → keeps (labels k) (labels k')) →
  processChild sc tag b k = Done new →
  keeps (labels k) (flat_map labels new).
Proof.
  intros IH. destruct k as [r v|r tag' cls attrs kids|r t]; cbn [processChild].
  - destruct (acceptNode tag b v).
    + destruct (highlightTextNode sc (Text r v)) as [[log nodes]|] eqn:E; [|done].
      cbn [fmap outcome_fmap snd]. intros [= <-].
      apply highlightTextNode_nodes in E as [->|Hseg].
      * cbn [flat_map]. rewrite app_nil_r. apply keeps_refl.
      * rewrite (labels_segments _ Hseg). cbn [labels]. rewrite app_nil_r.
        by apply keeps_dropped.
    + intros [= <-]. cbn [flat_map]. rewrite app_nil_r. apply keeps_refl.
  - destruct (processSubtree sc b (Element r tag' cls attrs kids)) as [k'|] eqn:E; [|done].
    cbn. intros [= <-]. cbn [flat_map]. rewrite app_nil_r. by eapply IH.
  - intros [= <-]. cbn [flat_map]. rewrite app_nil_r. apply keeps_refl.
Qed.

Lemma processSubtree_keeps sc a n n' :
  processSubtree sc a n = Done n' → keeps (labels n) (labels n').
Proof.
  revert a n'. induction n as [r v|r tag cls attrs kids IH|r t] using node_ind';
    intros a n'; [intros [= <-]; apply keeps_refl| |intros [= <-]; apply keeps_refl].
  intros H. apply processSubtree_is_Element in H as (kids' & -> & H).
  rewrite !labels_Element. apply keeps_app; [apply keeps_refl|].
  revert kids' H. induction IH as [|k kids Hk _ IHk]; intros kids' H.
  - injection H as <-. apply keeps_refl.
  - rewrite processChildren_cons in H.
    destruct (processChild _ _ _ k) as [new|] eqn:Ec; [|done]. cbn in H.
    destruct (processChildren _ _ _ kids) as [rest|]; [|done]. cbn in H.
    injection H as <-. rewrite flat_map_app. cbn [flat_map].
    apply keeps_app; [|by apply IHk]. by eapply processChild_keeps.
Qed.


Lemma processSubtreeAt_Element sc r a ref tag cls attrs kids :
  processSubtreeAt sc r a (Element ref tag cls attrs kids) =
  if bool_decide (ref = Some r) then processSubtree sc a (Element ref tag cls attrs kids)
  else kids' ← mapM (processSubtreeAt sc r (a || bool_decide (HL_CLASS ∈ cls))) kids;
       Done (Element ref tag cls attrs kids').
Proof.
  cbn [processSubtreeAt]. destruct (bool_decide (ref = Some r)); [done|].
  f_equal.
Qed.





Lemma observeAdded_spec sc scanned page r :
  observeAdded sc (Done (scanned, page)) r =
  if qualifies page r
  then page' ← mapM (processSubtreeAt sc r false) page; Done (scanned ++ [r], page')
  else Done (scanned, page).
Proof.
  unfold observeAdded, qualifies. cbn [mbind outcome_bind].
  destruct (findInPage r page) as [[ref v|ref tag cls attrs kids|ref t]|]; done.
Qed.

Lemma foldl_observeAdded_Diverges sc refs :
  foldl (observeAdded sc) Diverges refs = Diverges.
Proof. induction refs as [|r refs IH]; [done|]. cbn. apply IH. Qed.



Lemma observerCallback_foldl sc mutations st :
  foldl (fun st mutation => foldl (observeAdded sc) st (addedNodes mutation)) st mutations =
  foldl (observeAdded sc) st (flat_map addedNodes mutations).
Proof.
  revert st. induction mutations as [|m mutations IH]; intros st; [done|].
  cbn [foldl flat_map]. by rewrite foldl_app, IH.
Qed.

Lemma addedNodes_observed changes :
  flat_map addedNodes (filter (fun m => observed m = true) changes) =
  flat_map addedNodes changes.
Proof.
  induction changes as [|m changes IH]; [done|]. rewrite filter_cons.
  destruct m as [added removed|target|target attr]; cbn [observed].
  - rewrite decide_True by done. cbn [flat_map]. by rewrite IH.
  - rewrite decide_False by done. done.
  - rewrite decide_False by done. done.
Qed.

Lemma onMutations_foldl sc changes page :
  onMutations sc changes page =
  foldl (observeAdded sc) (Done ([], page)) (flat_map addedNodes changes).
Proof.
  unfold onMutations, observerCallback. by rewrite observerCallback_foldl, addedNodes_observed.
Qed.

(** ** The two variants *)

(** C9. The older script and the two-partition script on the main list
    with one entry, Bill Clinton.  The older script replaces a backslash
    followed by a space, which no escaped name of this list has, so its
    pattern keeps the space of the name as it is and finds the name only
    with that one space; the two-partition script replaces the space by
    [\s+].  On the text with two spaces the older script leaves the node
    alone and the two-partition script puts a marker; on the text with one
    space they agree. *)
Theorem C9_variants_differ :
  SingleList.patternSource mainList = lit "(Bill Clinton)" ∧
  patternSource mainList = lit "(Bill\s+Clinton)" ∧
  SingleList.run mainList (lit "Bill  Clinton") = Some (Done None) ∧
  SingleList.run mainList (lit "Bill Clinton") =
  Some (Done (Some [createHighlight (lit "Bill Clinton") (lit "Bill_Clinton")])) ∧
  ∃ sc, loadScript mainList None = Some sc ∧
        highlightTextNode sc (Text None (lit "Bill  Clinton")) =
        Done ([false], [createHighlight (lit "Bill  Clinton") (lit "Bill_Clinton")]) ∧
        highlightTextNode sc (Text None (lit "Bill Clinton")) =
        Done ([false], [createHighlight (lit "Bill Clinton") (lit "Bill_Clinton")]).
Proof.
  do 4 (split; [vm_compute; reflexivity|]).
  exists (scriptOf mainList None). split; [apply loadScript_scriptOf|].
  split; vm_compute; reflexivity.
Qed.

(** ** Escaped names, read back *)

Lemma parse_escaped_char c rest cur seen :
  parseDisjunction ((if isSyntaxCharacter c then ["\"%char; c] else [c]) ++ rest) cur seen =
  parseDisjunction rest (TAtom (AChar c) :: cur) seen.
Proof.
  destruct (isSyntaxCharacter c) eqn:Hs.
  - cbn [app parseDisjunction].
    change (Ascii.eqb "\" ")") with false.
    change (Ascii.eqb "\" "|") with false.
    change (Ascii.eqb "\" "+") with false.
    change (Ascii.eqb "\" "\") with true. cbn iota.
    by rewrite (syntax_not_s c Hs), Hs.
  - cbn [app parseDisjunction].
    rewrite !(plain_not_special c _ Hs) by (vm_compute; reflexivity).
    by rewrite Hs.
Qed.

Lemma parse_escaped nm rest cur seen :
  parseDisjunction (escapeRegex nm ++ rest) cur seen =
  parseDisjunction rest (rev (literalTerms nm) ++ cur) seen.
Proof.
  revert cur. induction nm as [|c nm IH]; intros cur; [done|].
  unfold escapeRegex. cbn [flat_map]. rewrite <- app_assoc.
  rewrite parse_escaped_char. fold (escapeRegex nm). rewrite IH.
  cbn [literalTerms map rev]. by rewrite <- app_assoc.
Qed.

(** The alternative of a name read code unit for code unit matches the
    texts that start with the name, letter for letter up to the case the
    pattern ignores, and takes the length of the name. *)
Lemma matchTerms_literal ic nm s n :
  matchTerms ic (literalTerms nm) s = Some n ↔
  n = length nm ∧ length nm ≤ length s ∧
  map (Canonicalize ic) (take n s) = map (Canonicalize ic) nm.
Proof.
  revert s n. induction nm as [|c nm IH]; intros s n.
  - cbn. split.
    + intros [= <-]. split_and!; [done|lia|by rewrite take_0].
    + intros (-> & _ & _). done.
  - cbn [literalTerms map]. destruct s as [|x s].
    { cbn. split; [done|]. intros (_ & H & _). cbn in H. lia. }
    rewrite matchTerms_atom_cons. cbn [atomMatches]. case_bool_decide as Hc.
    + fold (literalTerms nm). destruct (matchTerms ic (literalTerms nm) s) as [k|] eqn:E.
      * apply IH in E as (-> & Hl & He). cbn. split.
        -- intros [= <-]. split_and!; [done|lia|]. cbn. by rewrite Hc, He.
        -- intros (-> & _ & _). done.
      * cbn. split; [done|]. intros (-> & Hl & He). cbn in *.
        injection He as _ He.
        assert (matchTerms ic (literalTerms nm) s = Some (length nm)); [|congruence].
        apply IH. split_and!; [done|lia|done].
    + split; [done|]. intros (-> & _ & He). cbn in He. injection He as He _. congruence.
Qed.

Lemma newRegExp_escaped nm flags :
  newRegExp (lit "(" ++ escapeRegex nm ++ lit ")") flags =
  Some {| alternatives := [literalTerms nm];
          global := bool_decide ("g"%char ∈ flags);
          ignoreCase := bool_decide ("i"%char ∈ flags) |}.
Proof.
  unfold newRegExp. cbn [lit list_ascii_of_string app].
  change (Ascii.eqb "(" "(") with true. cbn iota.
  rewrite parse_escaped. cbn [parseDisjunction].
  change (Ascii.eqb ")" ")") with true. cbn iota. cbn [mbind option_bind rev app].
  by rewrite app_nil_r, rev_involutive.
Qed.

(** X1. [escapeRegex] makes a name stand for itself.  Whatever code units a
    name has, syntax characters included, the pattern built of its escaped
    form alone is taken by [new RegExp] and has one alternative, the code
    units of the name each as it is.  It matches a text exactly when the
    text starts with the name, up to the case of the letters when the
    pattern ignores case, and the match has the length of the name. *)
Theorem X1_escapeRegex_round_trip (nm flags : str) :
  ∃ re, newRegExp (lit "(" ++ escapeRegex nm ++ lit ")") flags = Some re ∧
        alternatives re = [literalTerms nm] ∧
        (∀ ic s n, matchAlternatives ic (alternatives re) s = Some n ↔
                   n = length nm ∧ length nm ≤ length s ∧
                   map (Canonicalize ic) (take n s) = map (Canonicalize ic) nm) ∧
        (∀ s, matchAlternatives false (alternatives re) (nm ++ s) = Some (length nm)).
Proof.
  eexists. split; [apply newRegExp_escaped|]. cbn [alternatives]. split; [done|].
  assert (H : ∀ ic s n, matchAlternatives ic [literalTerms nm] s = Some n ↔
                   n = length nm ∧ length nm ≤ length s ∧
                   map (Canonicalize ic) (take n s) = map (Canonicalize ic) nm).
  { intros ic s n. cbn [matchAlternatives]. rewrite <- matchTerms_literal.
    by destruct (matchTerms ic (literalTerms nm) s). }
  split; [done|]. intros s. apply H. split_and!; [done|rewrite length_app; lia|].
  by rewrite take_app_length.
Qed.

(** ** Every list compiles *)

(** X2. [makePattern] never fails with the flags the script passes.  For
    every list of names, under the flags [gi] of the main pattern and under
    the flag [g] of the case-sensitive pattern, the source that
    [makePattern] builds is taken by [new RegExp]; the pattern has one
    alternative for each entry, in the order of the sorted list (one empty
    alternative for the empty list), it is global, and it ignores case
    under [gi] only.  So the script loads for every dataset. *)
Theorem X2_makePattern_compiles (nameList : list NameEntry) :
  (∃ re, makePattern nameList (lit "gi") = Some re ∧
         alternatives re = compiledAlternatives nameList ∧
         global re = true ∧ ignoreCase re = true ∧
         length (alternatives re) = length nameList `max` 1) ∧
  (∃ re, makePattern nameList (lit "g") = Some re ∧
         alternatives re = compiledAlternatives nameList ∧
         global re = true ∧ ignoreCase re = false ∧
         length (alternatives re) = length nameList `max` 1) ∧
  (∀ cs, is_Some (loadScript nameList cs)).
Proof.
  assert (Hlen : length (compiledAlternatives nameList) = length nameList `max` 1).
  { unfold compiledAlternatives.
    destruct (sortByLengthDesc nameList) as [|e srt] eqn:E.
    + apply (f_equal length) in E. rewrite length_sortByLengthDesc in E.
      destruct nameList; [done|done].
    + rewrite <- E, length_map, length_sortByLengthDesc.
      apply (f_equal length) in E. rewrite length_sortByLengthDesc in E. cbn in E. lia. }
  split_and!.
  - eexists. split; [apply makePattern_compiled|]. by split_and!.
  - eexists. split; [apply makePattern_compiled|]. by split_and!.
  - intros cs. apply loadScript_total.
Qed.

(** ** The order of the alternatives *)

Lemma insertByLength_Permutation x l : insertByLength x l ≡ₚ x :: l.
Proof.
  induction l as [|y l IH]; [done|]. cbn [insertByLength].
  destruct (_ <? _); [|done]. rewrite IH. apply Permutation_swap.
Qed.

Lemma sortByLengthDesc_Permutation l : sortByLengthDesc l ≡ₚ l.
Proof.
  induction l as [|x l IH]; [done|]. unfold sortByLengthDesc. cbn [foldr].
  fold (sortByLengthDesc l). by rewrite insertByLength_Permutation, IH.
Qed.

Lemma filter_insertByLength n x l :
  filter (fun e => length (name e) = n) (insertByLength x l) =
  filter (fun e => length (name e) = n) (x :: l).
Proof.
  induction l as [|y l IH]; [done|]. cbn [insertByLength].
  destruct (length (name x) <? length (name y)) eqn:E; [|done].
  apply Nat.ltb_lt in E. rewrite filter_cons, IH, !filter_cons.
  destruct (decide (length (name y) = n)), (decide (length (name x) = n)); try done.
  lia.
Qed.

Lemma filter_sortByLengthDesc n l :
  filter (fun e => length (name e) = n) (sortByLengthDesc l) =
  filter (fun e => length (name e) = n) l.
Proof.
  induction l as [|x l IH]; [done|]. unfold sortByLengthDesc. cbn [foldr].
  fold (sortByLengthDesc l). rewrite filter_insertByLength, !filter_cons, IH. done.
Qed.

(** X3. The sort of [makePattern] rearranges the list and nothing more: the
    sorted list has the entries of the list, each as often; no name in it
    is longer than one before it; and the entries with names of one length
    stand in the order they have in the list. *)
Theorem X3_sort_stable (l : list NameEntry) :
  sortByLengthDesc l ≡ₚ l ∧
  longestFirst (sortByLengthDesc l) ∧
  ∀ n, filter (fun e => length (name e) = n) (sortByLengthDesc l) =
       filter (fun e => length (name e) = n) l.
Proof.
  split_and!; [apply sortByLengthDesc_Permutation|apply longestFirst_sort|].
  intros n. apply filter_sortByLengthDesc.
Qed.

(** ** What a lookup gives *)

Lemma buildFrom_last key l m0 k :
  buildFrom key m0 l !! k =
  match last (filter (fun e => key e = k) l) with
  | Some e => Some (anchor e)
  | None => m0 !! k
  end.
Proof.
  revert m0. induction l as [|e l IH]; intros m0; [done|].
  unfold buildFrom. cbn [foldl]. fold (buildFrom key (<[key e:=anchor e]> m0) l).
  rewrite IH, filter_cons. destruct (decide (key e = k)) as [<-|Hk].
  - rewrite last_cons. destruct (last _); [done|]. by rewrite lookup_insert_eq.
  - destruct (last _); [done|]. by rewrite lookup_insert_ne.
Qed.

Lemma lookupAnchor_last l cs sc m b :
  loadScript l cs = Some sc →
  lookupAnchor sc m b =
  anchor <$> last (filter (fun e => keyOf b (name e) = keyOf b (trim (collapseWhiteSpace m)))
                          (partition l cs b)).
Proof.
  intros Hsc. rewrite lookupAnchor_keyOf, (anchorMapOf_loaded _ _ _ b Hsc).
  change (foldl _ ∅ ?L) with (buildFrom (fun e => keyOf b (name e)) ∅ L).
  rewrite buildFrom_last. by destruct (last _).
Qed.

(** X4. The anchor of the last entry wins.  [lookupAnchor] gives the anchor
    of the last entry of the list whose name is the normalised text (for
    the main list: whose lower-cased name is the lower-cased normalised
    text), and undefined when the list has no such entry. *)
Theorem X4_lookup_gives_last_entry (l : list NameEntry) (cs : option (list NameEntry))
    (sc : Script) (m : str) :
  loadScript l cs = Some sc →
  lookupAnchor sc m false =
    anchor <$> last (filter (fun e => toLowerCase (name e) =
                                        toLowerCase (trim (collapseWhiteSpace m))) l) ∧
  lookupAnchor sc m true =
    anchor <$> last (filter (fun e => name e = trim (collapseWhiteSpace m))
                            (default [] cs)).
Proof.
  intros Hsc. split.
  - apply (lookupAnchor_last l cs sc m false Hsc).
  - apply (lookupAnchor_last l cs sc m true Hsc).
Qed.

Lemma X4_lookup_gives_last_entry_witness :
  lookupAnchor (scriptOf caseList None) (lit "BILL   Clinton ") false = Some (lit "Second").
Proof.
  destruct (X4_lookup_gives_last_entry caseList None (scriptOf caseList None)
              (lit "BILL   Clinton ")) as [H _].
  - apply loadScript_scriptOf.
  - rewrite H. vm_compute. reflexivity.
Defined.

Lemma lower_lower c : lowerChar (lowerChar c) = lowerChar c.
Proof. destruct c as [[] [] [] [] [] [] [] []]; vm_compute; reflexivity. Qed.

Lemma toLowerCase_idemp s : toLowerCase (toLowerCase s) = toLowerCase s.
Proof.
  unfold toLowerCase. rewrite map_map. apply map_ext. intros c. apply lower_lower.
Qed.

Lemma collapseFrom_lower b s :
  collapseFrom b (toLowerCase s) = toLowerCase (collapseFrom b s).
Proof.
  revert b. induction s as [|c s IH]; intros b; [done|].
  cbn [toLowerCase map collapseFrom]. rewrite white_lower.
  destruct (isWhiteSpace c); [destruct b|]; cbn [map]; f_equal; try apply IH.
Qed.

Lemma trimStart_lower s : trimStart (toLowerCase s) = toLowerCase (trimStart s).
Proof.
  induction s as [|c s IH]; [done|]. cbn [toLowerCase map trimStart].
  rewrite white_lower. by destruct (isWhiteSpace c).
Qed.

Lemma trim_lower s : trim (toLowerCase s) = toLowerCase (trim s).
Proof.
  unfold trim, trimEnd. rewrite trimStart_lower.
  unfold toLowerCase at 1. rewrite <- map_rev. fold (toLowerCase (rev (trimStart s))).
  rewrite trimStart_lower. unfold toLowerCase. by rewrite map_rev.
Qed.

Lemma spaced_collapse b s : spacedFrom b (collapseFrom b s) = true.
Proof.
  revert b. induction s as [|c s IH]; intros b; [done|]. cbn [collapseFrom].
  destruct (isWhiteSpace c) eqn:Hc.
  - destruct b; [apply IH|]. cbn [spacedFrom].
    change (isWhiteSpace " ") with true. cbn. apply IH.
  - cbn [spacedFrom]. rewrite Hc. apply IH.
Qed.

Lemma spaced_trimStart b s : spacedFrom b s = true → spacedFrom true (trimStart s) = true.
Proof.
  revert b. induction s as [|c s IH]; intros b; [done|]. cbn [spacedFrom trimStart].
  destruct (isWhiteSpace c) eqn:Hc.
  - intros H. apply andb_true_iff in H as [_ H]. by eapply IH.
  - cbn [spacedFrom]. by rewrite Hc.
Qed.

Lemma spaced_app_l b s t : spacedFrom b (s ++ t) = true → spacedFrom b s = true.
Proof.
  revert b. induction s as [|c s IH]; intros b; [done|]. cbn [app spacedFrom].
  destruct (isWhiteSpace c).
  - intros H. apply andb_true_iff in H as [H1 H]. rewrite H1. cbn. by eapply IH.
  - apply IH.
Qed.

Lemma spaced_tidy b s c :
  spacedFrom b (s ++ [c]) = true → isWhiteSpace c = false → tidyFrom b (s ++ [c]) = true.
Proof.
  revert b. induction s as [|x s IH]; intros b H Hc.
  - cbn in *. by rewrite Hc.
  - cbn [app spacedFrom tidyFrom] in *. destruct (isWhiteSpace x).
    + apply andb_true_iff in H as [H1 H]. rewrite H1. cbn. by apply IH.
    + by apply IH.
Qed.

Lemma trimEnd_snoc s c :
  trimEnd (s ++ [c]) = if isWhiteSpace c then trimEnd s else s ++ [c].
Proof.
  unfold trimEnd. rewrite rev_app_distr. cbn [rev app trimStart].
  destruct (isWhiteSpace c); [done|]. cbn [rev]. by rewrite rev_involutive.
Qed.

Lemma spaced_trimEnd b s :
  spacedFrom b s = true → trimEnd s = [] ∨ tidyFrom b (trimEnd s) = true.
Proof.
  induction s as [|c s IH] using rev_ind; intros H; [by left|].
  rewrite trimEnd_snoc. destruct (isWhiteSpace c) eqn:Hc.
  - apply IH. by eapply spaced_app_l.
  - right. by apply spaced_tidy.
Qed.

(** The text under which [lookupAnchor] asks the map is empty or tidy. *)
Lemma normalised_form m :
  trim (collapseWhiteSpace m) = [] ∨ tidy (trim (collapseWhiteSpace m)) = true.
Proof.
  unfold trim, tidy. apply spaced_trimEnd. eapply spaced_trimStart.
  apply spaced_collapse.
Qed.

Lemma normalised_idemp m :
  trim (collapseWhiteSpace (trim (collapseWhiteSpace m))) = trim (collapseWhiteSpace m).
Proof.
  destruct (normalised_form m) as [->|H]; [done|]. by apply tidy_normalised.
Qed.

Lemma tidyFrom_lower b s : tidyFrom b (toLowerCase s) = tidyFrom b s.
Proof.
  revert b. induction s as [|c s IH]; intros b; [done|].
  cbn [toLowerCase map tidyFrom]. rewrite white_lower.
  destruct (isWhiteSpace c) eqn:Hc; [|apply IH].
  fold (toLowerCase s). rewrite IH. f_equal. f_equal.
  destruct (Ascii.eqb c " ") eqn:E.
  - apply Ascii.eqb_eq in E as ->. done.
  - destruct (Ascii.eqb (lowerChar c) " ") eqn:E'; [|done].
    apply Ascii.eqb_eq in E'. exfalso. revert Hc E E'.
    destruct c as [[] [] [] [] [] [] [] []]; vm_compute; congruence.
Qed.

Lemma keyOf_tidy_eq b s : tidy (keyOf b s) = tidy s.
Proof. destruct b; [done|]. apply tidyFrom_lower. Qed.

(** A lookup that succeeds gives the anchor of an entry whose name is
    empty or tidy. *)
Lemma lookupAnchor_tidy l cs sc m b a :
  loadScript l cs = Some sc →
  lookupAnchor sc m b = Some a →
  ∃ e, e ∈ partition l cs b ∧ anchor e = a ∧
       keyOf b (name e) = keyOf b (trim (collapseWhiteSpace m)) ∧
       (name e = [] ∨ tidy (name e) = true).
Proof.
  intros Hsc H. destruct (lookupAnchor_entry l cs sc m b a Hsc H) as (e & He & Ha & Hk).
  exists e. split_and!; try done.
  destruct (normalised_form m) as [E|E].
  - left. rewrite E in Hk. apply (f_equal length) in Hk.
    destruct b; cbn in Hk; [|unfold toLowerCase in Hk; rewrite length_map in Hk];
      by destruct (name e).
  - right. rewrite <- (keyOf_tidy_eq b), Hk, keyOf_tidy_eq. done.
Qed.

(** X5. The text a lookup asks the map for is empty or tidy: no white space
    at its ends, single spaces inside.  A lookup gives the same for a text
    and for its normalised form, and in the main list the same for a text
    and for its lower-cased form.  So a lookup that succeeds gives the
    anchor of an entry whose name is empty or tidy: an entry with two
    spaces in a row, a tab, or a space at an end of its name is never the
    one that a lookup finds. *)
Theorem X5_lookup_normal_form (l : list NameEntry) (cs : option (list NameEntry))
    (sc : Script) (m : str) :
  loadScript l cs = Some sc →
  (trim (collapseWhiteSpace m) = [] ∨ tidy (trim (collapseWhiteSpace m)) = true) ∧
  (∀ b, lookupAnchor sc (trim (collapseWhiteSpace m)) b = lookupAnchor sc m b) ∧
  lookupAnchor sc (toLowerCase m) false = lookupAnchor sc m false ∧
  (∀ b a, lookupAnchor sc m b = Some a →
     ∃ e, e ∈ partition l cs b ∧ anchor e = a ∧
          keyOf b (name e) = keyOf b (trim (collapseWhiteSpace m)) ∧
          (name e = [] ∨ tidy (name e) = true)).
Proof.
  intros Hsc. split_and!.
  - apply normalised_form.
  - intros b. unfold lookupAnchor. by rewrite normalised_idemp.
  - unfold lookupAnchor, collapseWhiteSpace.
    by rewrite collapseFrom_lower, trim_lower, toLowerCase_idemp.
  - intros b a. by apply lookupAnchor_tidy.
Qed.

Lemma X5_lookup_normal_form_witness :
  lookupAnchor (scriptOf mainList None) (lit "BILL CLINTON") false =
  Some (lit "Bill_Clinton").
Proof.
  destruct (X5_lookup_normal_form mainList None (scriptOf mainList None)
              (lit "BILL CLINTON") (loadScript_scriptOf _ _)) as (_ & _ & H & _).
  rewrite <- H. vm_compute. reflexivity.
Defined.

(** ** The state of the pattern between calls *)

Lemma applyPatternFrom_applyPattern fuel sc re cs text r li' :
  global re = true →
  applyPatternFrom fuel sc re cs text 0 = Some (r, li') →
  applyPattern sc re cs text = Done r.
Proof.
  intros Hg H. unfold applyPattern.
  destruct (applyPatternLoop_dichotomy sc re cs text Hg) as [Hd|Hd]; [|by rewrite Hd in H].
  destruct (Hd (S (length text))) as [[r2 li2] E]; [lia|]. rewrite E. f_equal.
  unfold applyPatternFrom in H, E.
  destruct (test re text 0) as [[] li]; [|congruence].
  destruct (decide (fuel ≤ S (length text))).
  - eapply applyPatternLoop_fuel_mono in H; [|done]. congruence.
  - eapply applyPatternLoop_fuel_mono in E; [|apply Nat.lt_le_incl, Nat.nle_gt; done].
    congruence.
Qed.

(** X6. [applyPattern] leaves [regex.lastIndex] at 0.  Whatever the value
    on entry and whether the call replaces the node or not, a call that
    returns leaves 0 in [regex.lastIndex]; so the next call on the same
    pattern starts as a call on a fresh pattern does, and a call entered
    with 0 returns what [applyPattern] is defined to return. *)
Theorem X6_lastIndex_left_at_zero (fuel : nat) (sc : Script) (re : RegExp) (cs : bool)
    (text : str) (li : nat) (r : option (list node)) (li' : nat) :
  applyPatternFrom fuel sc re cs text li = Some (r, li') →
  li' = 0 ∧
  (∀ fuel2 cs2 text2,
     applyPatternFrom fuel2 sc re cs2 text2 li' = applyPatternFrom fuel2 sc re cs2 text2 0) ∧
  (global re = true → li = 0 → applyPattern sc re cs text = Done r).
Proof.
  intros H. pose proof (applyPatternFrom_lastIndex _ _ _ _ _ _ _ _ H) as ->.
  split_and!; [done|done|]. intros Hg ->. by eapply applyPatternFrom_applyPattern.
Qed.

Lemma X6_lastIndex_left_at_zero_witness :
  applyPattern (scriptOf mainList None) (mainPatternOf mainList) false
    (lit "Bill Clinton") =
  Done (Some [createHighlight (lit "Bill Clinton") (lit "Bill_Clinton")]).
Proof.
  destruct (X6_lastIndex_left_at_zero 3 (scriptOf mainList None) (mainPatternOf mainList)
              false (lit "Bill Clinton") 0
              (Some [createHighlight (lit "Bill Clinton") (lit "Bill_Clinton")]) 0)
    as (_ & _ & H).
  - vm_compute. reflexivity.
  - apply H; reflexivity.
Defined.

(** ** The text of the page *)

Lemma textContent_Element r tag cls attrs kids :
  textContent (Element r tag cls attrs kids) = textOf kids.
Proof.
  cbn [textContent]. unfold textOf. induction kids as [|k kids IH]; [done|].
  cbn [flat_map]. by rewrite IH.
Qed.

Lemma highlightTextNode_text sc r text log nodes :
  global (mainPattern sc) = true →
  (∀ re, csPattern sc = Some re → global re = true) →
  highlightTextNode sc (Text r text) = Done (log, nodes) → textOf nodes = text.
Proof.
  intros Hg Hgcs. cbn [highlightTextNode].
  destruct (applyPattern sc (mainPattern sc) false text) as [[frag|]|] eqn:E1;
    cbn [mbind outcome_bind]; [| |done].
  - intros [= <- <-]. by eapply applyPattern_text.
  - destruct (csPattern sc) as [re|] eqn:Ecs.
    + destruct (applyPattern sc re true text) as [[frag|]|] eqn:E2;
        cbn [mbind outcome_bind default]; [| |done].
      * intros [= <- <-]. eapply applyPattern_text; [|done]. by apply Hgcs.
      * intros [= <- <-]. cbn. by rewrite app_nil_r.
    + intros [= <- <-]. cbn. by rewrite app_nil_r.
Qed.

Lemma highlightTextNode_total sc n :
  global (mainPattern sc) = true →
  (∀ re, csPattern sc = Some re → global re = true) →
  productive (alternatives (mainPattern sc)) →
  (∀ re, csPattern sc = Some re → productive (alternatives re)) →
  ∃ res, highlightTextNode sc n = Done res.
Proof.
  intros Hg Hgcs Hp Hpcs. destruct n as [r text| |]; [|by eexists..].
  cbn [highlightTextNode].
  destruct (applyPattern_productive sc (mainPattern sc) false text Hg Hp) as [[frag|] ->];
    cbn [mbind outcome_bind]; [by eexists|].
  destruct (csPattern sc) as [re|] eqn:Ecs; [|by eexists].
  destruct (applyPattern_productive sc re true text) as [r2 ->]; [by apply Hgcs|by apply Hpcs|].
  cbn. by eexists.
Qed.

Lemma processChild_text sc tag b k new :
  global (mainPattern sc) = true →
  (∀ re, csPattern sc = Some re → global re = true) →
  (∀ a k', processSubtree sc a k = Done k' → textContent k' = textContent k) →
  processChild sc tag b k = Done new → textOf new = textContent k.
Proof.
  intros Hg Hgcs IH. destruct k as [r v|r tag' cls attrs kids|r t]; cbn [processChild].
  - destruct (acceptNode tag b v).
    + destruct (highlightTextNode sc (Text r v)) as [[log nodes]|] eqn:E; [|done].
      cbn. intros [= <-]. by eapply highlightTextNode_text.
    + intros [= <-]. cbn. by rewrite app_nil_r.
  - destruct (processSubtree sc b _) as [k'|] eqn:E; [|done]. cbn. intros [= <-].
    cbn [textOf flat_map]. rewrite app_nil_r. by eapply IH.
  - intros [= <-]. done.
Qed.

Lemma processSubtree_text sc a root root' :
  global (mainPattern sc) = true →
  (∀ re, csPattern sc = Some re → global re = true) →
  processSubtree sc a root = Done root' → textContent root' = textContent root.
Proof.
  intros Hg Hgcs. revert a root'.
  induction root as [r v|r tag cls attrs kids IH|r t] using node_ind';
    intros a root'; [by intros [= <-]| |by intros [= <-]].
  intros H. apply processSubtree_is_Element in H as (kids' & -> & H).
  rewrite !textContent_Element.
  revert kids' H. induction IH as [|k kids Hk _ IHk]; intros kids' H.
  - by injection H as <-.
  - rewrite processChildren_cons in H.
    destruct (processChild _ _ _ k) as [new|] eqn:Ec; [|done]. cbn in H.
    destruct (processChildren _ _ _ kids) as [rest|]; [|done]. cbn in H.
    injection H as <-. rewrite textOf_app. cbn [textOf flat_map].
    fold (textOf rest). fold (textOf kids). rewrite (IHk rest eq_refl). f_equal.
    by eapply processChild_text.
Qed.

Lemma processSubtree_total sc a root :
  global (mainPattern sc) = true →
  (∀ re, csPattern sc = Some re → global re = true) →
  productive (alternatives (mainPattern sc)) →
  (∀ re, csPattern sc = Some re → productive (alternatives re)) →
  ∃ root', processSubtree sc a root = Done root'.
Proof.
  intros Hg Hgcs Hp Hpcs. revert a.
  induction root as [r v|r tag cls attrs kids IH|r t] using node_ind';
    intros a; [by eexists| |by eexists].
  rewrite processSubtree_Element. set (b := a || _).
  assert (H : ∃ kids', processChildren sc tag b kids = Done kids'); [|by destruct H as [? ->]; eexists].
  clearbody b. induction IH as [|k kids Hk _ IHk]; [by eexists|].
  rewrite processChildren_cons. destruct IHk as [rest ->].
  assert (Hc : ∃ new, processChild sc tag b k = Done new); [|by destruct Hc as [? ->]; eexists].
  destruct k as [r' v|r' tag' cls' attrs' kids'|r' t]; cbn [processChild].
  - destruct (acceptNode tag b v); [|by eexists].
    destruct (highlightTextNode_total sc (Text r' v) Hg Hgcs Hp Hpcs) as [res ->]. by eexists.
  - destruct (Hk b) as [k' ->]. by eexists.
  - by eexists.
Qed.

Lemma loaded_productive l cs sc :
  loadScript l cs = Some sc →
  l ≠ [] → nonEmptyNames l → nonEmptyNames (default [] cs) →
  productive (alternatives (mainPattern sc)) ∧
  (∀ re, csPattern sc = Some re → productive (alternatives re)).
Proof.
  intros Hsc Hl Hn Hncs. apply loadScript_spec in Hsc as (H1 & H2 & _). split.
  - rewrite H1. by apply compiledAlternatives_productive.
  - intros re. rewrite H2. destruct cs as [[|e csl]|]; try done. intros [= <-].
    cbn [alternatives]. by apply compiledAlternatives_productive.
Qed.

(** X7. A scan keeps the text.  The text content of a subtree after
    [processSubtree] is its text content before.  And with a main list
    that is not empty and no empty name in either list, [processSubtree]
    returns for every subtree. *)
Theorem X7_scan_keeps_text (l : list NameEntry) (cs : option (list NameEntry))
    (sc : Script) :
  loadScript l cs = Some sc →
  (∀ a root root', processSubtree sc a root = Done root' →
     textContent root' = textContent root) ∧
  (l ≠ [] → nonEmptyNames l → nonEmptyNames (default [] cs) →
   ∀ a root, ∃ root', processSubtree sc a root = Done root').
Proof.
  intros Hsc. destruct (loadScript_global _ _ _ Hsc) as [Hg Hgcs]. split.
  - intros a root root'. by apply processSubtree_text.
  - intros Hl Hn Hncs a root.
    destruct (loaded_productive l cs sc Hsc Hl Hn Hncs) as [Hp Hpcs].
    by apply processSubtree_total.
Qed.

Lemma X7_scan_keeps_text_witness :
  ∃ root', processSubtree (scriptOf billList None) false
             (Element None (lit "P") [] [] [Text None (lit "Bill met Bill Clinton.")]) =
           Done root' ∧
           textContent root' = lit "Bill met Bill Clinton.".
Proof.
  destruct (X7_scan_keeps_text billList None (scriptOf billList None)
              (loadScript_scriptOf _ _)) as [Ht Hd].
  destruct (Hd ltac:(discriminate) ltac:(repeat constructor; discriminate)
              ltac:(constructor) false
              (Element None (lit "P") [] [] [Text None (lit "Bill met Bill Clinton.")]))
    as [root' H].
  exists root'. split; [exact H|]. exact (Ht _ _ _ H).
Defined.

Lemma processSubtreeAt_text sc r a n n' :
  global (mainPattern sc) = true →
  (∀ re, csPattern sc = Some re → global re = true) →
  processSubtreeAt sc r a n = Done n' → textContent n' = textContent n.
Proof.
  intros Hg Hgcs. revert a n'.
  induction n as [ref v|ref tag cls attrs kids IH|ref t] using node_ind';
    intros a n'; [by intros [= <-]| |by intros [= <-]].
  rewrite processSubtreeAt_Element. case_bool_decide as Hr.
  - by apply processSubtree_text.
  - destruct (mapM _ kids) as [kids'|] eqn:E; [|done]. cbn. intros [= <-].
    rewrite !textContent_Element. revert kids' E.
    induction IH as [|k kids Hk _ IHk]; intros kids'; [by intros [= <-]|].
    cbn [mapM]. destruct (processSubtreeAt sc r _ k) as [k'|] eqn:Ek; [|done].
    cbn [mbind outcome_bind]. destruct (mapM _ kids) as [rest|]; [|done]. cbn.
    intros [= <-]. cbn [textOf flat_map]. fold (textOf rest). fold (textOf kids).
    rewrite (IHk rest eq_refl). f_equal. by eapply Hk.
Qed.

Lemma processSubtreeAt_total sc r a n :
  (∀ a root, ∃ root', processSubtree sc a root = Done root') →
  ∃ n', processSubtreeAt sc r a n = Done n'.
Proof.
  intros Ht. revert a.
  induction n as [ref v|ref tag cls attrs kids IH|ref t] using node_ind';
    intros a; [by eexists| |by eexists].
  rewrite processSubtreeAt_Element. case_bool_decide as Hr; [apply Ht|].
  set (b := a || _). clearbody b.
  assert (H : ∃ kids', mapM (processSubtreeAt sc r b) kids = Done kids');
    [|by destruct H as [? ->]; eexists].
  induction IH as [|k kids Hk _ IHk]; [by eexists|].
  cbn [mapM]. destruct (Hk b) as [k' ->]. destruct IHk as [rest ->]. by eexists.
Qed.

Lemma scanPage_text sc r page page' :
  global (mainPattern sc) = true →
  (∀ re, csPattern sc = Some re → global re = true) →
  mapM (processSubtreeAt sc r false) page = Done page' →
  map textContent page' = map textContent page.
Proof.
  intros Hg Hgcs. revert page'. induction page as [|t page IH]; intros page'.
  - by intros [= <-].
  - cbn [mapM]. destruct (processSubtreeAt sc r false t) as [t'|] eqn:Et; [|done].
    cbn [mbind outcome_bind]. destruct (mapM _ page) as [rest|]; [|done]. cbn.
    intros [= <-]. cbn [map]. rewrite (IH rest eq_refl). f_equal.
    by eapply processSubtreeAt_text.
Qed.

Lemma scanPage_total sc r page :
  (∀ a root, ∃ root', processSubtree sc a root = Done root') →
  ∃ page', mapM (processSubtreeAt sc r false) page = Done page'.
Proof.
  intros Ht. induction page as [|t page [rest IH]]; [by eexists|].
  cbn [mapM]. destruct (processSubtreeAt_total sc r false t Ht) as [t' ->].
  rewrite IH. by eexists.
Qed.

Lemma foldl_observeAdded_text sc refs scanned0 page0 scanned page' :
  global (mainPattern sc) = true →
  (∀ re, csPattern sc = Some re → global re = true) →
  foldl (observeAdded sc) (Done (scanned0, page0)) refs = Done (scanned, page') →
  map textContent page' = map textContent page0.
Proof.
  intros Hg Hgcs. revert scanned0 page0. induction refs as [|r refs IH]; intros scanned0 page0.
  - cbn. by intros [= <- <-].
  - cbn [foldl]. rewrite observeAdded_spec. destruct (qualifies page0 r).
    + destruct (mapM (processSubtreeAt sc r false) page0) as [page1|] eqn:E;
        cbn [mbind outcome_bind]; [|by rewrite foldl_observeAdded_Diverges].
      intros H. apply IH in H. rewrite H. by eapply scanPage_text.
    + apply IH.
Qed.

Lemma foldl_observeAdded_total sc refs scanned0 page0 :
  (∀ a root, ∃ root', processSubtree sc a root = Done root') →
  ∃ scanned page', foldl (observeAdded sc) (Done (scanned0, page0)) refs = Done (scanned, page').
Proof.
  intros Ht. revert scanned0 page0. induction refs as [|r refs IH]; intros scanned0 page0.
  - by do 2 eexists.
  - cbn [foldl]. rewrite observeAdded_spec. destruct (qualifies page0 r); [|apply IH].
    destruct (scanPage_total sc r page0 Ht) as [page1 ->]. cbn [mbind outcome_bind]. apply IH.
Qed.

(** X8. The observer keeps the text.  Whatever a batch of changes makes the
    callback do, every tree of the page has afterwards the text content it
    had.  And with a main list that is not empty and no empty name in
    either list the callback returns for every batch and every page. *)
Theorem X8_observer_keeps_text (l : list NameEntry) (cs : option (list NameEntry))
    (sc : Script) :
  loadScript l cs = Some sc →
  (∀ changes page scanned page', onMutations sc changes page = Done (scanned, page') →
     map textContent page' = map textContent page) ∧
  (l ≠ [] → nonEmptyNames l → nonEmptyNames (default [] cs) →
   ∀ changes page, ∃ scanned page', onMutations sc changes page = Done (scanned, page')).
Proof.
  intros Hsc. destruct (loadScript_global _ _ _ Hsc) as [Hg Hgcs]. split.
  - intros changes page scanned page'. rewrite onMutations_foldl.
    by apply foldl_observeAdded_text.
  - intros Hl Hn Hncs changes page. rewrite onMutations_foldl.
    destruct (loaded_productive l cs sc Hsc Hl Hn Hncs) as [Hp Hpcs].
    apply foldl_observeAdded_total. intros a root. by apply processSubtree_total.
Qed.

Lemma X8_observer_keeps_text_witness :
  ∃ scanned page', onMutations (scriptOf billList None) [ChildList [1; 3] [7]] examplePage =
                   Done (scanned, page') ∧
                   map textContent page' = map textContent examplePage.
Proof.
  destruct (X8_observer_keeps_text billList None (scriptOf billList None)
              (loadScript_scriptOf _ _)) as [Ht Hd].
  destruct (Hd ltac:(discriminate) ltac:(repeat constructor; discriminate)
              ltac:(constructor) [ChildList [1; 3] [7]] examplePage)
    as (scanned & page' & H).
  exists scanned, page'. split; [exact H|]. exact (Ht _ _ _ _ H).
Defined.

(** ** Inside a highlight *)

Lemma processSubtreeAt_insideHL sc r n : processSubtreeAt sc r true n = Done n.
Proof.
  induction n as [ref v|ref tag cls attrs kids IH|ref t] using node_ind'; [done| |done].
  rewrite processSubtreeAt_Element. case_bool_decide as Hr; [apply processSubtree_insideHL|].
  cbn [orb]. assert (H : mapM (processSubtreeAt sc r true) kids = Done kids); [|by rewrite H].
  induction IH as [|k kids Hk _ IHk]; [done|]. cbn [mapM]. by rewrite Hk, IHk.
Qed.

(** X9. Nothing inside an element that carries the class is touched.  A
    scan of such an element, and a scan of any element added below it,
    leaves it as it is, whatever its tag and whatever elements and names it
    holds; so does a scan of any node that lies below such an element. *)
Theorem X9_inside_highlight_untouched (sc : Script) (a : bool) (ref : option nat)
    (tag : str) (cls : list str) (attrs : list (str * str)) (kids : list node) :
  HL_CLASS ∈ cls →
  processSubtree sc a (Element ref tag cls attrs kids) =
    Done (Element ref tag cls attrs kids) ∧
  (∀ r, ref ≠ Some r →
        processSubtreeAt sc r a (Element ref tag cls attrs kids) =
        Done (Element ref tag cls attrs kids)) ∧
  (∀ n, processSubtree sc true n = Done n).
Proof.
  intros Hc. split_and!.
  - by apply processSubtree_HL.
  - intros r Hr. rewrite processSubtreeAt_Element, bool_decide_false by done.
    rewrite bool_decide_true, orb_true_r by done.
    assert (H : mapM (processSubtreeAt sc r true) kids = Done kids); [|by rewrite H].
    induction kids as [|k kids IH]; [done|]. cbn [mapM].
    by rewrite processSubtreeAt_insideHL, IH.
  - apply processSubtree_insideHL.
Qed.

Lemma X9_inside_highlight_untouched_witness :
  processSubtree (scriptOf billList None) false
    (Element None (lit "DIV") [HL_CLASS] []
       [Element None (lit "B") [] [] [Text None (lit "Bill Clinton")]]) =
  Done (Element None (lit "DIV") [HL_CLASS] []
          [Element None (lit "B") [] [] [Text None (lit "Bill Clinton")]]).
Proof.
  apply (X9_inside_highlight_untouched (scriptOf billList None) false None (lit "DIV")
           [HL_CLASS] [] [Element None (lit "B") [] [] [Text None (lit "Bill Clinton")]]).
  left.
Defined.

(** ** The matches of a scan *)

Lemma slice_take (text : str) i n : slice text i (i + n) = take n (drop i text).
Proof. unfold slice. by replace (i + n - i) with n by lia. Qed.

Lemma matchesFrom_scan fuel re text li :
  global re = true → productive (alternatives re) →
  li ≤ length text → length text - li < fuel →
  leftmostScan re text li (matchesFrom fuel re text li).
Proof.
  intros Hg Hp. revert li. induction fuel as [|fuel IH]; intros li Hl Hf; [lia|].
  cbn [matchesFrom]. destruct (exec re text li) as [[[i m]|] li'] eqn:E.
  - apply exec_Some in E as (H1 & H2 & -> & H4 & H5 & H6); [|done].
    pose proof (matchAlternatives_productive _ _ _ _ Hp H5) as Hpos.
    cbn [leftmostScan]. split_and!; [done| |done| |done|done|].
    + intros E. rewrite E in Hpos. cbn in Hpos. lia.
    + by rewrite slice_take.
    + apply IH; lia.
  - cbn [leftmostScan]. intros k Hk1 Hk2. by apply (exec_None _ _ _ _ Hg Hl E).
Qed.

Lemma leftmostScan_unique re text last ms ms' :
  leftmostScan re text last ms → leftmostScan re text last ms' → ms = ms'.
Proof.
  revert last ms'. induction ms as [|[i m] ms IH]; intros last [|[j m'] ms'];
    cbn [leftmostScan].
  - done.
  - intros H (H1 & _ & H3 & _ & H5 & _). rewrite H in H5; [done|done|lia].
  - intros (H1 & _ & H3 & _ & H5 & _) H. rewrite H in H5; [done|done|lia].
  - intros (H1 & H2 & H3 & H4 & H5 & H6 & H7) (G1 & G2 & G3 & G4 & G5 & G6 & G7).
    assert (i = j) as <-.
    { destruct (decide (i < j)) as [Hlt|Hge].
      - rewrite (G6 i) in H5; [done|done|done].
      - destruct (decide (j < i)) as [Hlt|Hge']; [|lia].
        rewrite (H6 j) in G5; [done|done|done]. }
    assert (length m = length m') as Hlen by congruence.
    assert (m = m') as <- by (rewrite H4, G4, Hlen; done).
    f_equal. by eapply IH.
Qed.

Lemma leftmostScan_elem re text last ms i m :
  leftmostScan re text last ms → (i, m) ∈ ms →
  last ≤ i ∧ m ≠ [] ∧ i + length m ≤ length text ∧ m = slice text i (i + length m).
Proof.
  revert last. induction ms as [|[j m'] ms IH]; intros last; [by rewrite elem_of_nil|].
  cbn [leftmostScan]. intros (H1 & H2 & H3 & H4 & H5 & H6 & H7).
  rewrite elem_of_cons. intros [[= -> ->]|Hin]; [done|].
  destruct (IH _ H7 Hin) as (G1 & G2 & G3 & G4). split_and!; try done. lia.
Qed.

Lemma leftmostScan_covers re text last ms p n :
  leftmostScan re text last ms →
  last ≤ p → p ≤ length text →
  matchAlternatives (ignoreCase re) (alternatives re) (drop p text) = Some n →
  ∃ i m, (i, m) ∈ ms ∧ i ≤ p ∧ p < i + length m.
Proof.
  revert last. induction ms as [|[i m] ms IH]; intros last; cbn [leftmostScan].
  - intros H H1 H2 Hm. rewrite H in Hm; done.
  - intros (H1 & H2 & H3 & H4 & H5 & H6 & H7) Hp1 Hp2 Hm.
    destruct (decide (p < i)) as [Hlt|Hge]; [rewrite H6 in Hm; done|].
    destruct (decide (p < i + length m)) as [Hin|Hout].
    + exists i, m. split_and!; [by left|lia|done].
    + destruct (IH _ H7) with (1 := ltac:(lia) : i + length m ≤ p) (2 := Hp2) (3 := Hm)
        as (j & m' & Hj & Hj1 & Hj2).
      exists j, m'. split_and!; [by right|done|done].
Qed.

Lemma leftmostScan_match re text last ms i m :
  leftmostScan re text last ms → (i, m) ∈ ms →
  matchAlternatives (ignoreCase re) (alternatives re) (drop i text) = Some (length m) ∧
  m = take (length m) (drop i text).
Proof.
  revert last. induction ms as [|[j m'] ms IH]; intros last; [by rewrite elem_of_nil|].
  cbn [leftmostScan]. intros (H1 & H2 & H3 & H4 & H5 & H6 & H7).
  rewrite elem_of_cons. intros [[= -> ->]|Hin]; [|by eapply IH].
  split; [done|]. by rewrite slice_take in H4.
Qed.

Lemma allMatches_scan re text :
  global re = true → productive (alternatives re) →
  leftmostScan re text 0 (allMatches re text).
Proof. intros Hg Hp. apply matchesFrom_scan; [done|done|lia|lia]. Qed.

(** X12. The matches that the loop of [applyPattern] meets.  For a global
    pattern that cannot match the empty text they are the leftmost matches
    taken one behind the other: each match is a non-empty slice of the
    text, starts at or behind the end of the one before, no match begins at
    an index passed over, and behind the last match none begins.  They are
    the only list of that kind. *)
Theorem X12_matches_leftmost_disjoint (re : RegExp) (text : str) :
  global re = true → productive (alternatives re) →
  leftmostScan re text 0 (allMatches re text) ∧
  (∀ ms, leftmostScan re text 0 ms → ms = allMatches re text).
Proof.
  intros Hg Hp.
  assert (H : leftmostScan re text 0 (allMatches re text)).
  { apply matchesFrom_scan; [done|done|lia|lia]. }
  split; [done|]. intros ms Hms. by eapply leftmostScan_unique.
Qed.

Lemma X12_matches_leftmost_disjoint_witness :
  leftmostScan (mainPatternOf billList) (lit "Bill met Bill Clinton") 0
    (allMatches (mainPatternOf billList) (lit "Bill met Bill Clinton")).
Proof.
  apply (X12_matches_leftmost_disjoint (mainPatternOf billList) (lit "Bill met Bill Clinton")).
  - reflexivity.
  - apply compiledAlternatives_productive; [discriminate|repeat constructor; discriminate].
Defined.

(** ** Markers and listed names *)

Lemma Done_productive sc re cs text r :
  applyPattern sc re cs text = Done r → productive (alternatives re).
Proof.
  intros H. destruct (productive_or_empty (alternatives re)) as [Hp|He]; [done|].
  by rewrite applyPattern_empty_alternative in H.
Qed.

Lemma pass_marker l cs sc b text frag m a :
  loadScript l cs = Some sc →
  applyPattern sc (patternOf (partition l cs b) b) b text = Done (Some frag) →
  createHighlight m a ∈ frag →
  ∃ e i, e ∈ partition l cs b ∧ tidy (name e) = true ∧
         keyOf b (trim (collapseWhiteSpace m)) = keyOf b (name e) ∧
         a = anchor e ∧ a ≠ [] ∧
         i + length m ≤ length text ∧ m = slice text i (i + length m).
Proof.
  intros Hsc Hap Hin. pose proof (Done_productive _ _ _ _ _ Hap) as Hp.
  destruct (applyPattern_marker sc (patternOf (partition l cs b) b) b text frag m a
              eq_refl Hap Hin) as ([i Hi] & Hlook & Ha).
  pose proof (allMatches_scan (patternOf (partition l cs b) b) text eq_refl Hp) as Hscan.
  destruct (leftmostScan_elem _ _ _ _ _ _ Hscan Hi) as (_ & _ & Hlen & Hm).
  destruct (lookupAnchor_tidy _ _ _ _ _ _ Hsc Hlook) as (e & He & Hae & Hk & Ht).
  exists e, i. split_and!; try done.
  destruct Ht as [Hn|Ht]; [|done]. exfalso.
  cbn [patternOf alternatives] in Hp.
  assert (Hemp : [] ∈ compiledAlternatives (partition l cs b)).
  { apply compiledAlternatives_empty. right. by exists e. }
  unfold productive in Hp. rewrite Forall_forall in Hp. by apply (Hp [] Hemp).
Qed.

(** X10. Every marker belongs to a listed name.  A marker that
    [highlightTextNode] puts carries a slice of the text of the node, and
    its anchor is the non-empty anchor of an entry of the list of the pass
    that put it; the name of that entry is tidy and is the normalised text
    of the marker (for the main list up to the case of the letters). *)
Theorem X10_markers_are_listed (l : list NameEntry) (cs : option (list NameEntry))
    (sc : Script) (r : option nat) (text : str) (log : list bool) (nodes : list node)
    (m a : str) :
  loadScript l cs = Some sc →
  highlightTextNode sc (Text r text) = Done (log, nodes) →
  createHighlight m a ∈ nodes →
  ∃ (b : bool) (e : NameEntry) (i : nat), log = (if b then [false; true] else [false]) ∧
           e ∈ partition l cs b ∧ tidy (name e) = true ∧
           keyOf b (trim (collapseWhiteSpace m)) = keyOf b (name e) ∧
           a = anchor e ∧ a ≠ [] ∧
           i + length m ≤ length text ∧ m = slice text i (i + length m).
Proof.
  intros Hsc. cbn [highlightTextNode]. rewrite (mainPattern_loaded _ _ _ Hsc).
  destruct (applyPattern sc (patternOf l false) false text) as [[frag|]|] eqn:E1;
    cbn [mbind outcome_bind]; [| |done].
  - intros [= <- <-] Hin.
    destruct (pass_marker l cs sc false text frag m a Hsc E1 Hin) as (e & i & H).
    by exists false, e, i.
  - destruct (csPattern sc) as [re|] eqn:Ecs.
    + destruct (csPattern_loaded _ _ _ _ Hsc Ecs) as (csl & -> & Hne & ->).
      destruct (applyPattern sc (patternOf csl true) true text) as [[frag|]|] eqn:E2;
        cbn [mbind outcome_bind default]; [| |done].
      * intros [= <- <-] Hin.
        destruct (pass_marker l (Some csl) sc true text frag m a Hsc E2 Hin) as (e & i & H).
        by exists true, e, i.
      * intros [= <- <-] Hin. by apply list_elem_of_singleton in Hin.
    + intros [= <- <-] Hin. by apply list_elem_of_singleton in Hin.
Qed.

Lemma X10_markers_are_listed_witness :
  ∃ (b : bool) (e : NameEntry) (i : nat),
    e ∈ partition mainList (Some csList) b ∧ lit "Donald_Trump" = anchor e ∧
    lit "Trump" = slice (lit "met Trump") i (i + 5).
Proof.
  destruct (X10_markers_are_listed mainList (Some csList) (scriptOf mainList (Some csList))
              None (lit "met Trump") [false; true]
              [Text None (lit "met "); createHighlight (lit "Trump") (lit "Donald_Trump")]
              (lit "Trump") (lit "Donald_Trump"))
    as (b & e & i & _ & He & _ & _ & Ha & _ & _ & Hm).
  - apply loadScript_scriptOf.
  - vm_compute. reflexivity.
  - right. left.
  - exists b, e, i. split_and!; [exact He|exact Ha|exact Hm].
Defined.

Lemma elem_of_decompose text last ms i m a :
  (i, m, a) ∈ ms → createHighlight m a ∈ decompose text last ms.
Proof.
  revert last. induction ms as [|[[j m'] a'] ms IH]; intros last; [by rewrite elem_of_nil|].
  rewrite elem_of_cons. cbn [decompose]. rewrite elem_of_app, elem_of_cons.
  intros [[= -> -> ->]|Hin]; [right; by left|]. right. right. by apply IH.
Qed.

Lemma match_at_resolves l cs sc b s n :
  loadScript l cs = Some sc →
  Forall wellFormedEntry (partition l cs b) → partition l cs b ≠ [] →
  matchAlternatives (negb b) (compiledAlternatives (partition l cs b)) s = Some n →
  ∃ e, e ∈ partition l cs b ∧ anchor e ≠ [] ∧
       lookupAnchor sc (take n s) b = Some (anchor e).
Proof.
  intros Hsc Hwf Hne Ha. rewrite compiledAlternatives_cons in Ha by done.
  apply matchAlternatives_first in Ha as (pre & M & post & HL & Ha & _).
  assert (HM : M ∈ partition l cs b).
  { apply elem_of_sortByLengthDesc. rewrite HL. apply elem_of_app. right. by left. }
  rewrite Forall_forall in Hwf. destruct (Hwf M HM) as [Ht _].
  destruct (match_resolves _ _ _ _ _ _ _ Hsc HM Ht Ha) as (e & He & Hke & Hlen & Hlook & Hk).
  exists e. split_and!; try done. by apply Hwf.
Qed.

(** A text that collapses to a tidy name, up to the case of the letters
    when the pattern ignores case, is matched by the alternative of the
    name from end to end, whatever follows it. *)
Lemma matchTerms_spaced ic nm t post :
  tidyFrom false nm = true →
  map (Canonicalize ic) (collapseFrom false t) = map (Canonicalize ic) nm →
  matchTerms ic (termsOf nm) (t ++ post) = Some (length t).
Proof.
  revert t. induction nm as [|c nm IH]; intros t Ht Hc.
  - destruct t as [|x t]; [done|]. cbn in Hc. by destruct (isWhiteSpace x).
  - cbn [tidyFrom] in Ht. cbn [termsOf map]. fold (termsOf nm).
    destruct (isWhiteSpace c) eqn:Hw.
    + apply andb_true_iff in Ht as [Ht Ht']. apply andb_true_iff in Ht as [Hsp _].
      rewrite (termOf_white c Hw Hsp). apply Ascii.eqb_eq in Hsp. subst c.
      destruct t as [|x t]; [done|].
      destruct (isWhiteSpace x) eqn:Hx.
      2:{ rewrite collapseFrom_plain in Hc by done. cbn [map] in Hc. injection Hc as Hc _.
          symmetry in Hc. apply canon_white in Hc. rewrite Hc in Hx. done. }
      rewrite collapseFrom_white in Hc by done. cbn [app map] in Hc.
      injection Hc as Hc. clear Hw.
      revert x Hx Hc. induction t as [|y t IHt]; intros x Hx Hc.
      * cbn in Hc. destruct nm; [done|done].
      * cbn [app length]. rewrite matchTerms_plus_cons. cbn [atomMatches].
        rewrite white_Canonicalize, Hx.
        destruct (isWhiteSpace y) eqn:Hy.
        -- rewrite collapseFrom_white in Hc by done. cbn [app] in Hc.
           specialize (IHt y Hy Hc). cbn [app length] in IHt. by rewrite IHt.
        -- rewrite collapseFrom_plain in Hc by done.
           assert (Hn : matchTerms ic (TPlus AWhite :: termsOf nm) (y :: t ++ post) = None).
           { rewrite matchTerms_plus_cons. cbn [atomMatches].
             by rewrite white_Canonicalize, Hy. }
           rewrite Hn.
           rewrite <- (collapseFrom_plain false y t Hy) in Hc.
           pose proof (IH (y :: t) (tidyFrom_mono _ Ht') Hc) as Hm.
           cbn [app length] in Hm. by rewrite Hm.
    + rewrite (termOf_plain c Hw). destruct t as [|x t].
      { cbn in Hc. done. }
      destruct (isWhiteSpace x) eqn:Hx.
      { rewrite collapseFrom_white in Hc by done. cbn [app map] in Hc. injection Hc as Hc _.
        symmetry in Hc. apply canon_white in Hc. rewrite Hw in Hc. cbn in Hc. done. }
      rewrite collapseFrom_plain in Hc by done. cbn [map] in Hc. injection Hc as Hx' Hc.
      cbn [app length]. rewrite matchTerms_atom_cons. cbn [atomMatches].
      rewrite bool_decide_true by done. by rewrite (IH t Ht Hc).
Qed.

(** Where a name of the list stands in a text, in any casing under a
    pattern that ignores case and with any runs of white space for its
    spaces, the pattern matches. *)
Lemma spaced_occurrence_matches l b e occ post :
  e ∈ l → tidy (name e) = true →
  keyOf b (collapseWhiteSpace occ) = keyOf b (name e) →
  ∃ n, matchAlternatives (negb b) (compiledAlternatives l) (occ ++ post) = Some n.
Proof.
  intros He Ht Hk. apply keyOf_canon in Hk.
  assert (Hm : is_Some (matchTerms (negb b) (termsOf (name e)) (occ ++ post))).
  { rewrite (matchTerms_spaced _ _ _ post (tidyFrom_mono _ Ht) Hk). done. }
  assert (Hl : l ≠ []) by (intros ->; by apply elem_of_nil in He).
  rewrite <- elem_of_sortByLengthDesc in He.
  destruct (matchAlternatives_elem (negb b) (fun e => termsOf (name e))
              (sortByLengthDesc l) e (occ ++ post) He Hm)
    as (n & pre & M & post' & H1 & _).
  exists n. by rewrite compiledAlternatives_cons.
Qed.

Lemma scan_resolves l cs sc b text last ms j m :
  loadScript l cs = Some sc →
  Forall wellFormedEntry (partition l cs b) → partition l cs b ≠ [] →
  leftmostScan (patternOf (partition l cs b) b) text last ms → (j, m) ∈ ms →
  ∃ e, e ∈ partition l cs b ∧ anchor e ≠ [] ∧ lookupAnchor sc m b = Some (anchor e).
Proof.
  intros Hsc Hwf Hl. revert last.
  induction ms as [|[i m'] ms IH]; intros last; [by rewrite elem_of_nil|].
  cbn [leftmostScan]. intros (_ & _ & _ & H4 & H5 & _ & H7). rewrite elem_of_cons.
  intros [[= -> ->]|Hin]; [|by eapply IH].
  destruct (match_at_resolves l cs sc b _ _ Hsc Hwf Hl H5) as (e' & He' & Ha & Hlook).
  exists e'. split_and!; [done|done|].
  rewrite slice_take in H4. by rewrite <- H4 in Hlook.
Qed.

(** One pass over a text in which a name of its list stands: the pass
    replaces the node, and a marker covers the place where the name
    starts. *)
Lemma pass_covers l cs sc b e pre occ post :
  loadScript l cs = Some sc →
  Forall wellFormedEntry (partition l cs b) →
  e ∈ partition l cs b →
  keyOf b (collapseWhiteSpace occ) = keyOf b (name e) →
  ∃ ms i m e',
    applyPattern sc (patternOf (partition l cs b) b) b (pre ++ occ ++ post) =
      Done (Some (decompose (pre ++ occ ++ post) 0 ms)) ∧
    (i, m, anchor e') ∈ ms ∧ e' ∈ partition l cs b ∧
    createHighlight m (anchor e') ∈ decompose (pre ++ occ ++ post) 0 ms ∧
    m = slice (pre ++ occ ++ post) i (i + length m) ∧
    i ≤ length pre ∧ length pre < i + length m.
Proof.
  intros Hsc Hwf He Hk. set (L := partition l cs b) in *. set (text := pre ++ occ ++ post).
  assert (Hl : L ≠ []) by (intros E; rewrite E in He; by apply elem_of_nil in He).
  pose proof (compiledAlternatives_productive L Hl (wellFormed_nonEmptyNames L Hwf)) as Hp.
  pose proof (allMatches_scan (patternOf L b) text eq_refl Hp) as Hscan.
  assert (Hte : tidy (name e) = true).
  { rewrite Forall_forall in Hwf. by destruct (Hwf e He). }
  destruct (spaced_occurrence_matches L b e occ post He Hte Hk) as [n Hn].
  destruct (leftmostScan_covers _ _ _ _ (length pre) n Hscan) as (i & m & Hi & Hi1 & Hi2).
  { lia. }
  { unfold text. rewrite length_app. lia. }
  { unfold text. by rewrite drop_app_length. }
  destruct (leftmostScan_elem _ _ _ _ _ _ Hscan Hi) as (_ & _ & Hlen & Hm).
  destruct (scan_resolves l cs sc b text 0 _ i m Hsc Hwf Hl Hscan Hi)
    as (e' & He' & Ha & Hlook).
  assert (Hin : (i, m, anchor e') ∈ omap (resolve sc b) (allMatches (patternOf L b) text)).
  { apply list_elem_of_omap. exists (i, m). split; [done|].
    unfold resolve. cbn [fst snd]. rewrite Hlook. by destruct (anchor e'). }
  exists (omap (resolve sc b) (allMatches (patternOf L b) text)), i, m, e'.
  split_and!; try done; [|by apply (elem_of_decompose _ _ _ i)].
  rewrite (applyPattern_matches sc (patternOf L b) b text eq_refl Hp).
  destruct (omap _ _) as [|x ms]; [by apply elem_of_nil in Hin|]. done.
Qed.

(** X11. No listed name is passed over.  With tidy names and non-empty
    anchors in the main list: where a name of the main list stands in the
    text of a node, in any casing and with any runs of white space for its
    spaces, [highlightTextNode] replaces the node and a marker of an entry
    of the list covers the place where the name starts.  The same holds
    for a name of the case-sensitive list in its own casing, on a node
    that the main pass leaves alone. *)
Theorem X11_occurrence_is_marked (l : list NameEntry) (cs : option (list NameEntry))
    (sc : Script) (pre occ post : str) (r : option nat) :
  loadScript l cs = Some sc →
  (∀ e, Forall wellFormedEntry l → e ∈ l →
     toLowerCase (collapseWhiteSpace occ) = toLowerCase (name e) →
     ∃ ms i m e',
       highlightTextNode sc (Text r (pre ++ occ ++ post)) =
         Done ([false], decompose (pre ++ occ ++ post) 0 ms) ∧
       (i, m, anchor e') ∈ ms ∧ e' ∈ l ∧
       createHighlight m (anchor e') ∈ decompose (pre ++ occ ++ post) 0 ms ∧
       m = slice (pre ++ occ ++ post) i (i + length m) ∧
       i ≤ length pre ∧ length pre < i + length m) ∧
  (∀ e, Forall wellFormedEntry (default [] cs) → e ∈ default [] cs →
     collapseWhiteSpace occ = name e →
     applyPattern sc (mainPattern sc) false (pre ++ occ ++ post) = Done None →
     ∃ ms i m e',
       highlightTextNode sc (Text r (pre ++ occ ++ post)) =
         Done ([false; true], decompose (pre ++ occ ++ post) 0 ms) ∧
       (i, m, anchor e') ∈ ms ∧ e' ∈ default [] cs ∧
       createHighlight m (anchor e') ∈ decompose (pre ++ occ ++ post) 0 ms ∧
       m = slice (pre ++ occ ++ post) i (i + length m) ∧
       i ≤ length pre ∧ length pre < i + length m).
Proof.
  intros Hsc. split.
  - intros e Hwf He Hk.
    destruct (pass_covers l cs sc false e pre occ post Hsc Hwf He Hk)
      as (ms & i & m & e' & Hap & H).
    exists ms, i, m, e'. split; [|done].
    cbn [highlightTextNode]. rewrite (mainPattern_loaded _ _ _ Hsc).
    cbn [partition] in Hap. by rewrite Hap.
  - intros e Hwf He Hk Hmain.
    destruct (pass_covers l cs sc true e pre occ post Hsc Hwf He Hk)
      as (ms & i & m & e' & Hap & H).
    exists ms, i, m, e'. split; [|done].
    cbn [highlightTextNode]. rewrite Hmain. cbn [mbind outcome_bind].
    cbn [partition] in Hap.
    assert (Hcs : csPattern sc = Some (patternOf (default [] cs) true)).
    { apply loadScript_spec in Hsc as (_ & -> & _).
      destruct cs as [[|e0 csl]|]; [by apply elem_of_nil in He|done|by apply elem_of_nil in He]. }
    rewrite Hcs, Hap. done.
Qed.

Lemma X11_occurrence_is_marked_witness :
  ∃ ms i m e',
    highlightTextNode (scriptOf billList None)
      (Text None (lit "He met " ++ lit "BILL
  clinton" ++ lit " today")) =
      Done ([false], decompose (lit "He met " ++ lit "BILL
  clinton" ++ lit " today") 0 ms) ∧
    (i, m, anchor e') ∈ ms ∧ i ≤ 7 ∧ 7 < i + length m.
Proof.
  destruct (X11_occurrence_is_marked billList None (scriptOf billList None)
              (lit "He met ") (lit "BILL
  clinton") (lit " today") None (loadScript_scriptOf _ _)) as [Hmain _].
  destruct (Hmain (entry "Bill Clinton" "Bill_Clinton"))
    as (ms & i & m & e' & H & Hin & _ & _ & _ & H1 & H2).
  - repeat constructor; discriminate.
  - left.
  - vm_compute. reflexivity.
  - exists ms, i, m, e'. split_and!; [exact H|exact Hin|exact H1|exact H2].
Defined.

(** ** The older script *)

Lemma parse_joined (enc : str → str) (terms : str → list term) :
  (∀ nm rest cur seen,
     parseDisjunction (enc nm ++ rest) cur seen =
     parseDisjunction rest (rev (terms nm) ++ cur) seen) →
  ∀ (l : list NameEntry) cur seen,
    parseDisjunction (join (lit "|") (map (fun e => enc (name e)) l) ++ lit ")") cur seen =
    match l with
    | [] => Some (rev (rev cur :: seen))
    | e :: l' =>
        Some (rev seen ++ (rev cur ++ terms (name e)) :: map (fun e => terms (name e)) l')
    end.
Proof.
  intros Henc l. induction l as [|e l IH]; intros cur seen; [done|].
  destruct l as [|e' l].
  - cbn [map join]. rewrite Henc. cbn. by rewrite rev_app_distr, rev_involutive.
  - change (join (lit "|") (map _ (e :: e' :: l)))
      with (enc (name e) ++ lit "|" ++
            join (lit "|") (map (fun e => enc (name e)) (e' :: l))).
    rewrite <- !app_assoc, Henc.
    cbn [lit list_ascii_of_string app parseDisjunction].
    change (Ascii.eqb "|" ")") with false.
    change (Ascii.eqb "|" "|") with true. cbn iota.
    rewrite IH. cbn [rev app map]. f_equal.
    rewrite rev_app_distr, rev_involutive, <- app_assoc. done.
Qed.

Lemma replaceEscapedSpaces_plain c X :
  Ascii.eqb c "\" = false →
  SingleList.replaceEscapedSpaces (c :: X) = c :: SingleList.replaceEscapedSpaces X.
Proof. intros H. destruct X; cbn; by rewrite ?H. Qed.

Lemma replaceEscapedSpaces_other h T :
  Ascii.eqb h " " = false →
  SingleList.replaceEscapedSpaces ("\"%char :: h :: T) =
  "\"%char :: SingleList.replaceEscapedSpaces (h :: T).
Proof. intros H. cbn. rewrite H. by cbn. Qed.

Lemma replaceEscapedSpaces_space T :
  SingleList.replaceEscapedSpaces ("\"%char :: " "%char :: T) =
  lit "\s+" ++ SingleList.replaceEscapedSpaces T.
Proof. reflexivity. Qed.

Lemma escapeRegex_cons c nm :
  escapeRegex (c :: nm) =
  (if isSyntaxCharacter c then ["\"%char; c] else [c]) ++ escapeRegex nm.
Proof. reflexivity. Qed.

Lemma escapeRegex_head_not_space d nm :
  Ascii.eqb d " " = false →
  ∃ h T, escapeRegex (d :: nm) = h :: T ∧ Ascii.eqb h " " = false.
Proof.
  intros H. rewrite escapeRegex_cons. destruct (isSyntaxCharacter d); cbn [app].
  - by do 2 eexists.
  - by do 2 eexists.
Qed.

Lemma parse_single nm rest cur seen :
  parseDisjunction (SingleList.replaceEscapedSpaces (escapeRegex nm) ++ rest) cur seen =
  parseDisjunction rest (rev (singleTermsOf nm) ++ cur) seen.
Proof.
  remember (length nm) as n eqn:Hn. assert (Hle : length nm ≤ n) by lia. clear Hn.
  revert nm cur Hle. induction n as [|n IH]; intros nm cur Hle.
  { destruct nm; [done|cbn in Hle; lia]. }
  destruct nm as [|c nm]; [done|]. cbn [length] in Hle.
  destruct (Ascii.eqb c "\") eqn:Hc.
  - apply Ascii.eqb_eq in Hc. subst c. rewrite escapeRegex_cons.
    change (isSyntaxCharacter "\") with true. cbn iota. cbn [app].
    rewrite replaceEscapedSpaces_other by done.
    destruct nm as [|d nm].
    + cbn [escapeRegex flat_map SingleList.replaceEscapedSpaces app parseDisjunction].
      change (Ascii.eqb "\" ")") with false.
      change (Ascii.eqb "\" "|") with false.
      change (Ascii.eqb "\" "+") with false.
      change (Ascii.eqb "\" "\") with true. cbn iota.
      change (Ascii.eqb "\" "s") with false.
      change (isSyntaxCharacter "\") with true. cbn iota. done.
    + destruct (Ascii.eqb d " ") eqn:Hd.
      * apply Ascii.eqb_eq in Hd. subst d. rewrite escapeRegex_cons.
        change (isSyntaxCharacter " ") with false. cbn iota. cbn [app].
        rewrite replaceEscapedSpaces_space.
        cbn [lit list_ascii_of_string app parseDisjunction].
        change (Ascii.eqb "\" ")") with false.
        change (Ascii.eqb "\" "|") with false.
        change (Ascii.eqb "\" "+") with false.
        change (Ascii.eqb "\" "\") with true. cbn iota.
        change (Ascii.eqb "\" "s") with false.
        change (isSyntaxCharacter "\") with true. cbn iota.
        change (Ascii.eqb "s" ")") with false.
        change (Ascii.eqb "s" "|") with false.
        change (Ascii.eqb "s" "+") with false.
        change (Ascii.eqb "s" "\") with false.
        change (isSyntaxCharacter "s") with false. cbn iota.
        change (Ascii.eqb "+" ")") with false.
        change (Ascii.eqb "+" "|") with false.
        change (Ascii.eqb "+" "+") with true. cbn iota.
        rewrite IH by (cbn in Hle; lia).
        cbn [singleTermsOf]. change (Ascii.eqb "\" "\") with true.
        change (Ascii.eqb " " " ") with true. cbn iota. cbn [rev].
        by rewrite <- !app_assoc.
      * destruct (escapeRegex_head_not_space d nm Hd) as (h & T & E & Hh).
        rewrite E, replaceEscapedSpaces_other by done. rewrite <- E.
        cbn [app parseDisjunction].
        change (Ascii.eqb "\" ")") with false.
        change (Ascii.eqb "\" "|") with false.
        change (Ascii.eqb "\" "+") with false.
        change (Ascii.eqb "\" "\") with true. cbn iota.
        change (Ascii.eqb "\" "s") with false.
        change (isSyntaxCharacter "\") with true. cbn iota.
        rewrite IH by (cbn in *; lia).
        cbn [singleTermsOf]. change (Ascii.eqb "\" "\") with true. cbn iota.
        rewrite Hd. cbn [rev]. by rewrite <- !app_assoc.
  - rewrite escapeRegex_cons.
    assert (E : SingleList.replaceEscapedSpaces
                  ((if isSyntaxCharacter c then ["\"%char; c] else [c]) ++ escapeRegex nm) =
                (if isSyntaxCharacter c then ["\"%char; c] else [c]) ++
                SingleList.replaceEscapedSpaces (escapeRegex nm)).
    { destruct (isSyntaxCharacter c) eqn:Hs; cbn [app].
      - rewrite replaceEscapedSpaces_other by (by apply syntax_not_space).
        by rewrite replaceEscapedSpaces_plain.
      - by rewrite replaceEscapedSpaces_plain. }
    rewrite E, <- app_assoc, parse_escaped_char, IH by lia.
    cbn [singleTermsOf]. rewrite Hc. cbn [rev]. by rewrite <- !app_assoc.
Qed.

(** The older script loads for every list. *)
Lemma SingleList_compiled l :
  SingleList.loadScript l =
  Some {| SingleList.pattern :=
            {| alternatives := singleAlternatives l; global := true; ignoreCase := true |};
          SingleList.anchorMap := buildAnchorMapCI l |}.
Proof.
  unfold SingleList.loadScript, SingleList.patternSource, newRegExp, singleAlternatives.
  cbn [lit list_ascii_of_string app]. change (Ascii.eqb "(" "(") with true. cbn iota.
  change [")"%char] with (lit ")").
  rewrite (parse_joined (fun nm => SingleList.replaceEscapedSpaces (escapeRegex nm))
             singleTermsOf parse_single).
  destruct (sortByLengthDesc l); done.
Qed.

Lemma singleTermsOf_literal nm : "\"%char ∉ nm → singleTermsOf nm = literalTerms nm.
Proof.
  induction nm as [|c nm IH]; [done|]. intros H. apply not_elem_of_cons in H as [Hc H].
  cbn [singleTermsOf literalTerms map]. f_equal.
  destruct (Ascii.eqb c "\") eqn:E; [by apply Ascii.eqb_eq in E|]. by apply IH.
Qed.

Lemma toLowerCase_canon K nm :
  map (Canonicalize true) K = map (Canonicalize true) nm → toLowerCase K = toLowerCase nm.
Proof. apply (canon_keyOf false). Qed.

(** X13. The pattern of the older script.  The older script loads for every
    list; its pattern has the flags g and i and one alternative for each
    entry, the longest names first, and its map is the one of the lower
    cased names.  For names without a backslash the alternatives are the
    names code unit for code unit: what the pattern matches is a name of
    the list up to the case of the letters, with the white space of the
    name and no other. *)
Theorem X13_single_list_pattern (l : list NameEntry) :
  ∃ sc, SingleList.loadScript l = Some sc ∧
        alternatives (SingleList.pattern sc) = singleAlternatives l ∧
        global (SingleList.pattern sc) = true ∧
        ignoreCase (SingleList.pattern sc) = true ∧
        SingleList.anchorMap sc = buildAnchorMapCI l ∧
        (l ≠ [] → Forall (fun e => "\"%char ∉ name e) l →
         ∀ s n, matchAlternatives true (alternatives (SingleList.pattern sc)) s = Some n →
                ∃ e, e ∈ l ∧ n = length (name e) ∧
                     toLowerCase (take n s) = toLowerCase (name e)).
Proof.
  eexists. split; [apply SingleList_compiled|].
  cbn [SingleList.pattern SingleList.anchorMap alternatives global ignoreCase].
  split_and!; try done. intros Hl Hb s n. unfold singleAlternatives.
  destruct (sortByLengthDesc l) as [|e0 srt] eqn:Es.
  { apply (f_equal length) in Es. rewrite length_sortByLengthDesc in Es. by destruct l. }
  rewrite <- Es. intros H.
  apply matchAlternatives_first in H as (pre & M & post & HL & Hm & _).
  assert (HM : M ∈ l).
  { apply elem_of_sortByLengthDesc. rewrite HL. apply elem_of_app. right. by left. }
  rewrite Forall_forall in Hb. rewrite (singleTermsOf_literal _ (Hb M HM)) in Hm.
  apply matchTerms_literal in Hm as (-> & _ & Hc).
  exists M. split_and!; [done|done|]. by apply toLowerCase_canon.
Qed.

Lemma highlightLoop_spec fuel sc text li last frag res li' :
  global (SingleList.pattern sc) = true →
  SingleList.highlightLoop fuel sc text li last frag = Some (res, li') →
  res = frag ++ decompose text last
                  (map (linked sc) (matchesFrom fuel (SingleList.pattern sc) text li)).
Proof.
  intros Hg. revert li last frag.
  induction fuel as [|fuel IH]; intros li last frag; [done|].
  cbn [SingleList.highlightLoop matchesFrom].
  destruct (exec (SingleList.pattern sc) text li) as [[[i m]|] li1] eqn:E.
  - apply exec_Some in E as (_ & _ & -> & _); [|done].
    intros H. apply IH in H as ->. cbn [map decompose linked fst snd].
    fold (anchorOrUndefined sc m). fold (linked sc).
    destruct (last <? i); by rewrite <- ?app_assoc.
  - intros [= <- _]. cbn [map decompose].
    destruct (last <? length text); by rewrite ?app_nil_r.
Qed.

Lemma highlightLoop_terminates fuel sc text li last frag :
  global (SingleList.pattern sc) = true →
  productive (alternatives (SingleList.pattern sc)) →
  length text - li < fuel →
  is_Some (SingleList.highlightLoop fuel sc text li last frag).
Proof.
  intros Hg Hp. revert li last frag.
  induction fuel as [|fuel IH]; intros li last frag Hf; [lia|].
  cbn [SingleList.highlightLoop].
  destruct (exec (SingleList.pattern sc) text li) as [[[i m]|] li1] eqn:E; [|done].
  apply exec_Some in E as (H1 & H2 & -> & H4 & H5 & _); [|done].
  apply matchAlternatives_productive in H5; [|done]. apply IH. lia.
Qed.

Lemma highlightLoop_diverges fuel sc text li last frag :
  [] ∈ alternatives (SingleList.pattern sc) → li ≤ length text →
  SingleList.highlightLoop fuel sc text li last frag = None.
Proof.
  intros He. revert li last frag.
  induction fuel as [|fuel IH]; intros li last frag Hl; [done|].
  cbn [SingleList.highlightLoop].
  destruct (exec_empty_alternative (SingleList.pattern sc) text li He Hl)
    as (i & m & li' & -> & Hl').
  by apply IH.
Qed.

Lemma single_highlightTextNode_matches sc text :
  global (SingleList.pattern sc) = true →
  productive (alternatives (SingleList.pattern sc)) →
  SingleList.highlightTextNode sc text =
  Done (match allMatches (SingleList.pattern sc) text with
        | [] => None
        | ms => Some (decompose text 0 (map (linked sc) ms))
        end).
Proof.
  intros Hg Hp. unfold SingleList.highlightTextNode, test, allMatches.
  destruct (exec (SingleList.pattern sc) text 0) as [[[i m]|] li] eqn:E; cbn [bool_decide].
  - rewrite bool_decide_true by done.
    destruct (highlightLoop_terminates (S (length text)) sc text 0 0 [] Hg Hp)
      as [[res li'] Hr]; [lia|].
    rewrite Hr. apply highlightLoop_spec in Hr; [|done]. cbn [app] in Hr. subst res.
    cbn [matchesFrom]. rewrite E. done.
  - rewrite bool_decide_false by (by intros [? ?]). cbn [matchesFrom]. by rewrite E.
Qed.

Lemma single_highlightTextNode_diverges sc text :
  [] ∈ alternatives (SingleList.pattern sc) →
  SingleList.highlightTextNode sc text = Diverges.
Proof.
  intros He. unfold SingleList.highlightTextNode, test.
  destruct (exec_empty_alternative (SingleList.pattern sc) text 0 He) as (i & m & li' & -> & _);
    [lia|].
  rewrite bool_decide_true by done.
  rewrite highlightLoop_diverges; [done|done|lia].
Qed.

Lemma textOf_decompose re text last (anchorOf : str → str) ms :
  leftmostScan re text last ms → last ≤ length text →
  textOf (decompose text last (map (fun im => (im.1, im.2, anchorOf im.2)) ms)) =
  drop last text.
Proof.
  revert last. induction ms as [|[i m] ms IH]; intros last; cbn [leftmostScan map decompose].
  - intros _ Hl. destruct (last <? length text) eqn:E.
    + cbn. by rewrite app_nil_r.
    + apply Nat.ltb_ge in E. cbn. by rewrite drop_ge.
  - intros (H1 & H2 & H3 & H4 & H5 & H6 & H7) Hl. cbn [fst snd].
    rewrite textOf_app. cbn [textOf flat_map]. fold (textOf).
    change (flat_map textContent ?x) with (textOf x).
    rewrite textContent_createHighlight, IH by (done || lia).
    rewrite slice_take in H4.
    rewrite <- (take_drop (i - last) (drop last text)), drop_drop.
    replace (last + (i - last)) with i by lia.
    rewrite <- (take_drop (length m) (drop i text)), drop_drop, <- H4.
    f_equal. destruct (last <? i) eqn:E.
    + cbn. by rewrite app_nil_r.
    + apply Nat.ltb_ge in E. replace (i - last) with 0 by lia. by rewrite take_0.
Qed.

Lemma single_highlightTextNode_text sc text frag :
  global (SingleList.pattern sc) = true →
  SingleList.highlightTextNode sc text = Done (Some frag) → textOf frag = text.
Proof.
  intros Hg. destruct (productive_or_empty (alternatives (SingleList.pattern sc))) as [Hp|He].
  - rewrite (single_highlightTextNode_matches sc text Hg Hp).
    pose proof (allMatches_scan _ text Hg Hp) as Hscan.
    destruct (allMatches (SingleList.pattern sc) text) as [|x ms]; [done|].
    intros [= <-].
    apply (textOf_decompose _ text 0 (anchorOrUndefined sc) (x :: ms) Hscan). lia.
  - by rewrite single_highlightTextNode_diverges.
Qed.

Lemma singleAlternatives_productive l :
  l ≠ [] → nonEmptyNames l → productive (singleAlternatives l).
Proof.
  intros Hl Hn. unfold singleAlternatives.
  destruct (sortByLengthDesc l) as [|e0 srt] eqn:Es.
  { apply (f_equal length) in Es. rewrite length_sortByLengthDesc in Es. by destruct l. }
  rewrite <- Es. unfold productive. apply Forall_forall. intros ts Hts.
  apply elem_of_map in Hts as (e & -> & He). rewrite elem_of_sortByLengthDesc in He.
  unfold nonEmptyNames in Hn. rewrite Forall_forall in Hn. specialize (Hn e He).
  by destruct (name e).
Qed.

(** X14. The older script marks every match.  For a list that is not empty
    and has no empty name, [highlightTextNode] of the older script returns:
    it leaves a text without a match alone and replaces any other by the
    decomposition of all its matches, each with a marker, and the texts of
    the new nodes make up the text of the node.  A match whose lookup
    fails is marked as well, with a link that ends in the text
    [undefined]. *)
Theorem X14_single_list_marks_every_match (l : list NameEntry) (sc : SingleList.Script)
    (text : str) :
  SingleList.loadScript l = Some sc →
  l ≠ [] → nonEmptyNames l →
  SingleList.highlightTextNode sc text =
    Done (match allMatches (SingleList.pattern sc) text with
          | [] => None
          | ms => Some (decompose text 0 (map (linked sc) ms))
          end) ∧
  (∀ frag, SingleList.highlightTextNode sc text = Done (Some frag) → textOf frag = text) ∧
  (∀ i m, (i, m) ∈ allMatches (SingleList.pattern sc) text →
          SingleList.lookupAnchor sc m = None →
          ∃ frag, SingleList.highlightTextNode sc text = Done (Some frag) ∧
                  createHighlight m (lit "undefined") ∈ frag).
Proof.
  rewrite SingleList_compiled. intros [= <-] Hl Hn.
  set (sc := {| SingleList.pattern := _; SingleList.anchorMap := _ |}).
  assert (Hg : global (SingleList.pattern sc) = true) by done.
  assert (Hp : productive (alternatives (SingleList.pattern sc))).
  { by apply singleAlternatives_productive. }
  pose proof (single_highlightTextNode_matches sc text Hg Hp) as H.
  split_and!; [done| |].
  - intros frag. rewrite H.
    pose proof (allMatches_scan _ text Hg Hp) as Hscan.
    destruct (allMatches (SingleList.pattern sc) text) as [|x ms]; [done|].
    intros [= <-].
    apply (textOf_decompose _ text 0 (anchorOrUndefined sc) (x :: ms) Hscan). lia.
  - intros i m Hin Hmiss. rewrite H.
    destruct (allMatches (SingleList.pattern sc) text) as [|x ms] eqn:E;
      [by apply elem_of_nil in Hin|].
    eexists. split; [done|]. apply (elem_of_decompose _ _ _ i).
    apply elem_of_map. exists (i, m). split; [|done].
    unfold linked, anchorOrUndefined. cbn [fst snd]. by rewrite Hmiss.
Qed.

Lemma X14_single_list_marks_every_match_witness :
  ∃ sc, SingleList.loadScript missList = Some sc ∧
        SingleList.highlightTextNode sc (lit "Bill  Clinton") =
        Done (Some [createHighlight (lit "Bill  Clinton") (lit "undefined")]).
Proof.
  eexists. split; [apply SingleList_compiled|].
  match goal with |- SingleList.highlightTextNode ?sc _ = _ =>
    destruct (X14_single_list_marks_every_match missList sc (lit "Bill  Clinton"))
      as (H & _ & _)
  end.
  - apply SingleList_compiled.
  - discriminate.
  - repeat constructor; discriminate.
  - rewrite H. vm_compute. reflexivity.
Defined.

(** A match of the older pattern of tidy names without a backslash is a
    name of the list up to the case of the letters, and its lookup gives
    the anchor of an entry with that name. *)
Lemma single_match_resolves l s n :
  l ≠ [] → Forall wellFormedEntry l → Forall (fun e => "\"%char ∉ name e) l →
  matchAlternatives true (singleAlternatives l) s = Some n →
  ∃ e, e ∈ l ∧ anchor e ≠ [] ∧
       toLowerCase (take n s) = toLowerCase (name e) ∧
       buildAnchorMapCI l !! toLowerCase (trim (collapseWhiteSpace (take n s))) =
       Some (anchor e).
Proof.
  intros Hl Hwf Hb. unfold singleAlternatives.
  destruct (sortByLengthDesc l) as [|e0 srt] eqn:Es.
  { apply (f_equal length) in Es. rewrite length_sortByLengthDesc in Es. by destruct l. }
  rewrite <- Es. intros H.
  apply matchAlternatives_first in H as (pre & M & post & HL & Hm & _).
  assert (HM : M ∈ l).
  { apply elem_of_sortByLengthDesc. rewrite HL. apply elem_of_app. right. by left. }
  rewrite Forall_forall in Hb, Hwf. rewrite (singleTermsOf_literal _ (Hb M HM)) in Hm.
  apply matchTerms_literal in Hm as (-> & _ & Hc). apply toLowerCase_canon in Hc.
  destruct (Hwf M HM) as [Ht _].
  assert (Htm : tidy (take (length (name M)) s) = true).
  { by apply (keyOf_tidy false _ (name M)). }
  rewrite (tidy_normalised _ Htm), Hc.
  destruct (build_lookup_elem (fun e => toLowerCase (name e)) l ∅ M HM)
    as (e & He & Hke & Hlook).
  exists e. split_and!; [done|by apply Hwf|by rewrite Hke|exact Hlook].
Qed.

(** X19. The links of the older script on tidy names.  For a list of
    entries with tidy names and non-empty anchors whose names have no
    backslash, every match of the older pattern is a name of the list up to
    the case of the letters and its lookup gives the anchor of an entry
    with that name; so every marker that the older [highlightTextNode] puts
    carries such a text and the non-empty anchor of such an entry, never
    the text [undefined]. *)
Theorem X19_single_list_links_listed_anchors (l : list NameEntry)
    (sc : SingleList.Script) (text : str) :
  SingleList.loadScript l = Some sc →
  l ≠ [] → Forall wellFormedEntry l → Forall (fun e => "\"%char ∉ name e) l →
  (∀ i m, (i, m) ∈ allMatches (SingleList.pattern sc) text →
     ∃ e, e ∈ l ∧ toLowerCase m = toLowerCase (name e) ∧
          SingleList.lookupAnchor sc m = Some (anchor e) ∧ anchor e ≠ []) ∧
  (∀ frag m a, SingleList.highlightTextNode sc text = Done (Some frag) →
     createHighlight m a ∈ frag →
     ∃ e, e ∈ l ∧ toLowerCase m = toLowerCase (name e) ∧ a = anchor e ∧ a ≠ []).
Proof.
  rewrite SingleList_compiled. intros [= <-] Hl Hwf Hb.
  set (sc := {| SingleList.pattern := _; SingleList.anchorMap := _ |}).
  assert (Hp : productive (alternatives (SingleList.pattern sc))).
  { apply singleAlternatives_productive; [done|by apply wellFormed_nonEmptyNames]. }
  pose proof (allMatches_scan (SingleList.pattern sc) text eq_refl Hp) as Hscan.
  assert (Hall : ∀ i m, (i, m) ∈ allMatches (SingleList.pattern sc) text →
     ∃ e, e ∈ l ∧ toLowerCase m = toLowerCase (name e) ∧
          SingleList.lookupAnchor sc m = Some (anchor e) ∧ anchor e ≠ []).
  { intros i m Hin. destruct (leftmostScan_match _ _ _ _ _ _ Hscan Hin) as [Hm Hslice].
    destruct (single_match_resolves l _ _ Hl Hwf Hb Hm) as (e & He & Ha & Hk & Hlook).
    rewrite <- Hslice in Hk, Hlook. exists e. by split_and!. }
  split; [done|]. intros frag m a.
  rewrite (single_highlightTextNode_matches sc text eq_refl Hp).
  destruct (allMatches (SingleList.pattern sc) text) as [|x ms] eqn:E; [done|].
  rewrite <- E. intros Heq Hin.
  assert (frag = decompose text 0 (map (linked sc) (allMatches (SingleList.pattern sc) text)))
    as -> by (rewrite E in *; congruence).
  clear Heq. apply elem_of_decompose_marker in Hin as [i Hi].
  apply elem_of_map in Hi as ([j m'] & Heq & Hin). unfold linked in Heq. cbn [fst snd] in Heq.
  injection Heq as -> -> ->.
  rewrite E in Hin. destruct (Hall j m' Hin) as (e & He & Hk & Hlook & Ha).
  exists e. unfold anchorOrUndefined. rewrite Hlook. by split_and!.
Qed.

Lemma X19_single_list_links_listed_anchors_witness :
  ∃ sc e, SingleList.loadScript billList = Some sc ∧ e ∈ billList ∧
          SingleList.lookupAnchor sc (lit "bill clinton") = Some (anchor e).
Proof.
  eexists.
  match goal with |- ∃ e, ?L = Some ?sc ∧ _ =>
    destruct (X19_single_list_links_listed_anchors billList sc (lit "He met bill clinton"))
      as [H _]
  end.
  - apply SingleList_compiled.
  - discriminate.
  - repeat constructor; discriminate.
  - repeat constructor; apply (bool_decide_unpack _); vm_compute; reflexivity.
  - destruct (H 7 (lit "bill clinton")) as (e & He & _ & Hlook & _).
    + apply (bool_decide_unpack _). vm_compute. reflexivity.
    + exists e. split_and!; [apply SingleList_compiled|exact He|exact Hlook].
Defined.

(** ** An empty list *)

(** X15. With an empty main list the scripts never return.  The pattern of
    the empty list is the empty group, which matches at every index without
    moving on: [highlightTextNode] runs forever on every text node, and so
    does a scan, begun outside a highlight, of an element outside the
    exclusion set that has a child text node with more than white space and
    no class that is the class of the markers in any casing of A to Z (the
    casing counts for nothing in the selector of a document in quirks
    mode).  The older script does the same.  An empty case-sensitive list
    is no harm: the script loads as with none. *)
Theorem X15_empty_list_never_returns (cs : option (list NameEntry)) (sc : Script)
    (r : option nat) (text : str) :
  loadScript [] cs = Some sc →
  highlightTextNode sc (Text r text) = Diverges ∧
  (∀ ref tag cls attrs kids,
     tag ∉ SKIP_TAGS → Forall (fun c => toAsciiLowerCase c ≠ HL_CLASS) cls →
     trim text ≠ [] → Text r text ∈ kids →
     processSubtree sc false (Element ref tag cls attrs kids) = Diverges) ∧
  SingleList.run [] text = Some Diverges ∧
  (∀ l, loadScript l (Some []) = loadScript l None).
Proof.
  intros Hsc.
  assert (Hd : highlightTextNode sc (Text r text) = Diverges).
  { cbn [highlightTextNode]. rewrite (mainPattern_loaded _ _ _ Hsc).
    rewrite applyPattern_empty_alternative; [done|]. by left. }
  split_and!; [done| | |done].
  - intros ref tag cls attrs kids Ht Hcls Hv Hin.
    assert (Hc : HL_CLASS ∉ cls).
    { intros Hc. rewrite Forall_forall in Hcls. by apply (Hcls _ Hc). }
    rewrite processSubtree_Element.
    rewrite bool_decide_false by done. cbn [orb].
    assert (H : processChildren sc tag false kids = Diverges); [|by rewrite H].
    induction kids as [|k kids IH]; [by apply elem_of_nil in Hin|].
    rewrite processChildren_cons. apply elem_of_cons in Hin as [<-|Hin].
    + cbn [processChild]. unfold acceptNode.
      rewrite !bool_decide_false by done. by rewrite Hd.
    + rewrite (IH Hin). by destruct (processChild sc tag false k).
  - unfold SingleList.run. rewrite SingleList_compiled. cbn [mbind option_bind].
    f_equal. apply single_highlightTextNode_diverges. by left.
Qed.

Lemma X15_empty_list_never_returns_witness :
  processSubtree (scriptOf [] None) false
    (Element None (lit "P") [lit "Lead"] [] [Text None (lit "any text")]) = Diverges.
Proof.
  destruct (X15_empty_list_never_returns None (scriptOf [] None) None (lit "any text"))
    as (_ & H & _).
  - apply loadScript_scriptOf.
  - apply H.
    + apply (bool_decide_unpack _). vm_compute. reflexivity.
    + repeat constructor. discriminate.
    + discriminate.
    + left.
Defined.

(** ** Elements *)

(** X16. A scan keeps the elements.  After [processSubtree] the root has
    the identity, the tag and the classes it had, and of the nodes of the
    subtree that have an identity, every element is still there, with its
    tag and classes and in the same order; nothing with an identity is
    added. *)
Theorem X16_scan_keeps_elements (sc : Script) (a : bool) (root root' : node) :
  processSubtree sc a root = Done root' →
  refOf root' = refOf root ∧ shapeOf root' = shapeOf root ∧
  keeps (labels root) (labels root').
Proof.
  intros H. split_and!; [| |by eapply processSubtree_keeps].
  - destruct root as [r v|r tag cls attrs kids|r t]; [by injection H as <-| |by injection H as <-].
    by apply processSubtree_is_Element in H as (kids' & -> & _).
  - destruct root as [r v|r tag cls attrs kids|r t]; [by injection H as <-| |by injection H as <-].
    by apply processSubtree_is_Element in H as (kids' & -> & _).
Qed.

Lemma X16_scan_keeps_elements_witness :
  keeps [(0, Some (lit "BODY", [])); (1, Some (lit "P", [])); (2, None); (3, None)]
        [(0, Some (lit "BODY", [])); (1, Some (lit "P", []))].
Proof.
  destruct (X16_scan_keeps_elements (scriptOf billList None) false
              (Element (Some 0) (lit "BODY") [] []
                 [Element (Some 1) (lit "P") [] [] [Text (Some 2) (lit "Bill Clinton")];
                  Text (Some 3) (lit "Bill Clinton")])
              (Element (Some 0) (lit "BODY") [] []
                 [Element (Some 1) (lit "P") [] []
                    [createHighlight (lit "Bill Clinton") (lit "Bill_Clinton")];
                  createHighlight (lit "Bill Clinton") (lit "Bill_Clinton")]))
    as (_ & _ & H).
  - vm_compute. reflexivity.
  - exact H.
Defined.

(** ** Where the two scripts agree *)

Lemma termsOf_literal nm : " "%char ∉ nm → termsOf nm = literalTerms nm.
Proof.
  induction nm as [|c nm IH]; [done|]. intros H. apply not_elem_of_cons in H as [Hc H].
  cbn [termsOf literalTerms map]. f_equal; [|by apply IH].
  unfold termOf. destruct (Ascii.eqb c " ") eqn:E; [by apply Ascii.eqb_eq in E|done].
Qed.

Lemma omap_map {A B} (f : A → option B) (g : A → B) (l : list A) :
  (∀ x, x ∈ l → f x = Some (g x)) → omap f l = map g l.
Proof.
  induction l as [|x l IH]; intros H; [done|]. cbn.
  rewrite (H x) by left. f_equal. apply IH. intros y Hy. apply H. by right.
Qed.

(** For names with neither a space nor a backslash the two compilers give
    the same alternatives, and with tidy names and non-empty anchors every
    match is resolved, so the two loops build the same fragment. *)
Lemma variants_agree l text :
  Forall wellFormedEntry l →
  Forall (fun e => (" "%char ∉ name e) ∧ ("\"%char ∉ name e)) l →
  singleAlternatives l = compiledAlternatives l ∧
  (l ≠ [] →
   SingleList.highlightTextNode
     {| SingleList.pattern := mainPatternOf l;
        SingleList.anchorMap := buildAnchorMapCI l |} text =
   applyPattern (scriptOf l None) (mainPatternOf l) false text).
Proof.
  intros Hwf Hns. split.
  { unfold singleAlternatives, compiledAlternatives.
    assert (H : Forall (fun e => (" "%char ∉ name e) ∧ ("\"%char ∉ name e))
                  (sortByLengthDesc l)).
    { apply Forall_forall. intros e He. rewrite elem_of_sortByLengthDesc in He.
      rewrite Forall_forall in Hns. by apply Hns. }
    destruct (sortByLengthDesc l) as [|e0 srt]; [done|].
    induction H as [|e srt' [H1 H2] _ IH]; [done|]. cbn [map]. f_equal; [|apply IH].
    by rewrite singleTermsOf_literal, termsOf_literal. }
  intros Hl.
  set (old := {| SingleList.pattern := mainPatternOf l;
                 SingleList.anchorMap := buildAnchorMapCI l |}).
  assert (Hp : productive (alternatives (mainPatternOf l))).
  { apply compiledAlternatives_productive; [done|by apply wellFormed_nonEmptyNames]. }
  rewrite (single_highlightTextNode_matches old text eq_refl Hp).
  rewrite (applyPattern_matches (scriptOf l None) (mainPatternOf l) false text eq_refl Hp).
  cbn [SingleList.pattern old].
  pose proof (allMatches_scan (mainPatternOf l) text eq_refl Hp) as Hscan.
  rewrite (omap_map (resolve (scriptOf l None) false) (linked old)).
  { by destruct (allMatches (mainPatternOf l) text). }
  intros [j m] Hin.
  destruct (scan_resolves l None (scriptOf l None) false text 0 _ j m
              (loadScript_scriptOf _ _) Hwf Hl Hscan Hin) as (e & He & Hne & Hlook).
  unfold resolve, linked, anchorOrUndefined. cbn [fst snd]. rewrite Hlook.
  assert (Hold : SingleList.lookupAnchor old m = Some (anchor e)) by exact Hlook.
  rewrite Hold. cbn [default]. by destruct (anchor e).
Qed.

(** X17. The two scripts agree on names without spaces.  For a list of
    entries with tidy names and non-empty anchors whose names have neither
    a space nor a backslash, the older script and the script with an
    undefined case-sensitive list have the same pattern and the same map,
    and [highlightTextNode] of the older script gives for every text what
    [applyPattern] of the other gives with its main pattern. *)
Theorem X17_variants_agree_without_spaces (l : list NameEntry) (text : str) :
  Forall wellFormedEntry l →
  Forall (fun e => (" "%char ∉ name e) ∧ ("\"%char ∉ name e)) l →
  ∃ old new,
    SingleList.loadScript l = Some old ∧ loadScript l None = Some new ∧
    SingleList.pattern old = mainPattern new ∧
    SingleList.anchorMap old = anchorMapCI new ∧
    (l ≠ [] →
     SingleList.highlightTextNode old text = applyPattern new (mainPattern new) false text).
Proof.
  intros Hwf Hns. destruct (variants_agree l text Hwf Hns) as [Ha Hagree].
  eexists. exists (scriptOf l None).
  split; [apply SingleList_compiled|]. split; [apply loadScript_scriptOf|].
  cbn [SingleList.pattern SingleList.anchorMap scriptOf mainPattern anchorMapCI].
  rewrite Ha. by split_and!.
Qed.

Lemma X17_variants_agree_without_spaces_witness :
  ∃ old new,
    SingleList.loadScript [entry "Clinton" "Bill_Clinton"; entry "Trump" "Donald_Trump"] =
      Some old ∧
    loadScript [entry "Clinton" "Bill_Clinton"; entry "Trump" "Donald_Trump"] None =
      Some new ∧
    SingleList.highlightTextNode old (lit "Mr Trump met Mr Clinton") =
    applyPattern new (mainPattern new) false (lit "Mr Trump met Mr Clinton").
Proof.
  destruct (X17_variants_agree_without_spaces
              [entry "Clinton" "Bill_Clinton"; entry "Trump" "Donald_Trump"]
              (lit "Mr Trump met Mr Clinton"))
    as (old & new & H1 & H2 & _ & _ & H).
  - repeat constructor; discriminate.
  - repeat constructor; apply (bool_decide_unpack _); vm_compute; reflexivity.
  - exists old, new. split_and!; [exact H1|exact H2|]. apply H. discriminate.
Defined.

Lemma single_processSubtree_Element sc a r tag cls attrs kids :
  SingleList.processSubtree sc a (Element r tag cls attrs kids) =
  kids' ← singleProcessChildren sc tag (a || bool_decide (HL_CLASS ∈ cls)) kids;
  Done (Element r tag cls attrs kids').
Proof. reflexivity. Qed.

Lemma singleProcessChildren_cons sc tag b k l :
  singleProcessChildren sc tag b (k :: l) =
  new ← singleProcessChild sc tag b k; rest ← singleProcessChildren sc tag b l;
  Done (new ++ rest).
Proof. reflexivity. Qed.

(** The walk of the older script in terms of what it does with a child. *)
Lemma single_walk (P : node → node → Prop) (Q : node → list node → Prop) sc :
  (∀ n, P n n) →
  (∀ r tag cls attrs kids kids',
     Forall2 Q kids kids' → P (Element r tag cls attrs kids)
                              (Element r tag cls attrs (concat kids'))) →
  (∀ tag b k new, (∀ a k', SingleList.processSubtree sc a k = Done k' → P k k') →
                  singleProcessChild sc tag b k = Done new → Q k new) →
  ∀ a root root', SingleList.processSubtree sc a root = Done root' → P root root'.
Proof.
  intros Hrefl Helem Hchild a root. revert a.
  induction root as [r v|r tag cls attrs kids IH|r t] using node_ind';
    intros a root'; [intros [= <-]; apply Hrefl| |intros [= <-]; apply Hrefl].
  rewrite single_processSubtree_Element. set (b := a || _). clearbody b.
  destruct (singleProcessChildren sc tag b kids) as [kids'|] eqn:E; [|done].
  cbn. intros [= <-].
  assert (H : ∃ parts, Forall2 Q kids parts ∧ kids' = concat parts).
  { revert kids' E. induction IH as [|k kids Hk _ IHk]; intros kids' E.
    - injection E as <-. by exists [].
    - rewrite singleProcessChildren_cons in E.
      destruct (singleProcessChild sc tag b k) as [new|] eqn:Ec; [|done]. cbn in E.
      destruct (singleProcessChildren sc tag b kids) as [rest|]; [|done]. cbn in E.
      injection E as <-. destruct (IHk rest eq_refl) as (parts & Hp & ->).
      exists (new :: parts). split; [|done]. constructor; [|done].
      eapply Hchild; [|done]. intros a' k'. apply Hk. }
  destruct H as (parts & Hp & ->). by apply Helem.
Qed.

Lemma textOf_concat parts : textOf (concat parts) = concat (map textOf parts).
Proof.
  induction parts as [|p parts IH]; [done|]. cbn [concat map].
  by rewrite textOf_app, IH.
Qed.

Lemma single_processSubtree_text sc a root root' :
  global (SingleList.pattern sc) = true →
  SingleList.processSubtree sc a root = Done root' → textContent root' = textContent root.
Proof.
  intros Hg.
  apply (single_walk (fun n n' => textContent n' = textContent n)
           (fun k new => textOf new = textContent k) sc).
  - done.
  - intros r tag cls attrs kids kids' H. rewrite !textContent_Element, textOf_concat.
    induction H as [|k new kids kids' Hk _ IH]; [done|].
    cbn [map concat textOf flat_map]. fold (textOf kids). by rewrite Hk, IH.
  - intros tag b k new IH. destruct k as [r v|r tag' cls attrs kids|r t];
      cbn [singleProcessChild].
    + destruct (acceptNode tag b v).
      * destruct (SingleList.highlightTextNode sc v) as [[frag|]|] eqn:E; [| |done].
        -- cbn. intros [= <-]. by eapply single_highlightTextNode_text.
        -- cbn. intros [= <-]. cbn. by rewrite app_nil_r.
      * intros [= <-]. cbn. by rewrite app_nil_r.
    + destruct (SingleList.processSubtree sc b _) as [k'|] eqn:E; [|done]. cbn. intros [= <-].
      cbn [textOf flat_map]. rewrite app_nil_r. by eapply IH.
    + intros [= <-]. done.
Qed.

Lemma single_processSubtree_total sc a root :
  global (SingleList.pattern sc) = true →
  productive (alternatives (SingleList.pattern sc)) →
  ∃ root', SingleList.processSubtree sc a root = Done root'.
Proof.
  intros Hg Hp. revert a.
  induction root as [r v|r tag cls attrs kids IH|r t] using node_ind';
    intros a; [by eexists| |by eexists].
  rewrite single_processSubtree_Element. set (b := a || _). clearbody b.
  assert (H : ∃ kids', singleProcessChildren sc tag b kids = Done kids');
    [|by destruct H as [? ->]; eexists].
  induction IH as [|k kids Hk _ IHk]; [by eexists|].
  rewrite singleProcessChildren_cons. destruct IHk as [rest ->].
  assert (Hc : ∃ new, singleProcessChild sc tag b k = Done new);
    [|by destruct Hc as [? ->]; eexists].
  destruct k as [r' v|r' tag' cls' attrs' kids'|r' t]; cbn [singleProcessChild].
  - destruct (acceptNode tag b v); [|by eexists].
    rewrite (single_highlightTextNode_matches sc v Hg Hp). by eexists.
  - destruct (Hk b) as [k' ->]. by eexists.
  - by eexists.
Qed.

Lemma single_processSubtree_agrees old new a root :
  csPattern new = None →
  (∀ text, SingleList.highlightTextNode old text =
           applyPattern new (mainPattern new) false text) →
  SingleList.processSubtree old a root = processSubtree new a root.
Proof.
  intros Hcs Hagree. revert a.
  induction root as [r v|r tag cls attrs kids IH|r t] using node_ind'; intros a; [done| |done].
  rewrite single_processSubtree_Element, processSubtree_Element. set (b := a || _). clearbody b.
  assert (H : singleProcessChildren old tag b kids = processChildren new tag b kids);
    [|by rewrite H].
  induction IH as [|k kids Hk _ IHk]; [done|].
  rewrite singleProcessChildren_cons, processChildren_cons, IHk.
  assert (Hc : singleProcessChild old tag b k = processChild new tag b k); [|by rewrite Hc].
  destruct k as [r' v|r' tag' cls' attrs' kids'|r' t]; cbn [singleProcessChild processChild].
  - destruct (acceptNode tag b v); [|done].
    rewrite Hagree. cbn [highlightTextNode]. rewrite Hcs.
    by destruct (applyPattern new (mainPattern new) false v) as [[frag|]|].
  - by rewrite Hk.
  - done.
Qed.

(** X18. The scan of the older script.  [processSubtree] of the older
    script keeps the text content of every subtree; for a list that is not
    empty and has no empty name it returns for every subtree; and for a
    list of entries with tidy names and non-empty anchors whose names have
    neither a space nor a backslash it gives for every subtree what
    [processSubtree] of the script with an undefined case-sensitive list
    gives. *)
Theorem X18_single_list_scan (l : list NameEntry) (old : SingleList.Script) :
  SingleList.loadScript l = Some old →
  (∀ a root root', SingleList.processSubtree old a root = Done root' →
     textContent root' = textContent root) ∧
  (l ≠ [] → nonEmptyNames l →
   ∀ a root, ∃ root', SingleList.processSubtree old a root = Done root') ∧
  (l ≠ [] → Forall wellFormedEntry l →
   Forall (fun e => (" "%char ∉ name e) ∧ ("\"%char ∉ name e)) l →
   ∀ new, loadScript l None = Some new →
          ∀ a root, SingleList.processSubtree old a root = processSubtree new a root).
Proof.
  rewrite SingleList_compiled. intros [= <-].
  set (old := {| SingleList.pattern := _; SingleList.anchorMap := _ |}).
  split_and!.
  - intros a root root'. by apply single_processSubtree_text.
  - intros Hl Hn a root. apply single_processSubtree_total; [done|].
    by apply singleAlternatives_productive.
  - intros Hl Hwf Hns new Hnew a root. apply single_processSubtree_agrees.
    + by apply loadScript_spec in Hnew as (_ & -> & _).
    + intros text. destruct (variants_agree l text Hwf Hns) as [Ha Hagree].
      rewrite loadScript_scriptOf in Hnew. injection Hnew as <-.
      unfold old. rewrite Ha. by apply Hagree.
Qed.

Lemma X18_single_list_scan_witness :
  ∃ old root',
    SingleList.loadScript missList = Some old ∧
    SingleList.processSubtree old false
      (Element None (lit "P") [] [] [Text None (lit "Mr Clinton, Bill  Clinton")]) =
    Done root' ∧
    textContent root' = lit "Mr Clinton, Bill  Clinton".
Proof.
  eexists.
  match goal with |- ∃ root', ?L = Some ?sc ∧ _ =>
    destruct (X18_single_list_scan missList sc) as (Ht & Hd & _)
  end.
  - apply SingleList_compiled.
  - destruct (Hd ltac:(discriminate) ltac:(repeat constructor; discriminate) false
                (Element None (lit "P") [] [] [Text None (lit "Mr Clinton, Bill  Clinton")]))
      as [root' H].
    exists root'. split_and!; [apply SingleList_compiled|exact H|exact (Ht _ _ _ H)].
Defined.

(** ** The observer of the older script *)

Lemma single_processSubtreeAt_Element sc r a ref tag cls attrs kids :
  SingleList.processSubtreeAt sc r a (Element ref tag cls attrs kids) =
  if bool_decide (ref = Some r)
  then SingleList.processSubtree sc a (Element ref tag cls attrs kids)
  else kids' ← mapM (SingleList.processSubtreeAt sc r (a || bool_decide (HL_CLASS ∈ cls))) kids;
       Done (Element ref tag cls attrs kids').
Proof.
  cbn [SingleList.processSubtreeAt]. destruct (bool_decide (ref = Some r)); [done|].
  f_equal.
Qed.

Lemma single_processSubtreeAt_text sc r a n n' :
  global (SingleList.pattern sc) = true →
  SingleList.processSubtreeAt sc r a n = Done n' → textContent n' = textContent n.
Proof.
  intros Hg. revert a n'.
  induction n as [ref v|ref tag cls attrs kids IH|ref t] using node_ind';
    intros a n'; [by intros [= <-]| |by intros [= <-]].
  rewrite single_processSubtreeAt_Element. case_bool_decide as Hr.
  - by apply single_processSubtree_text.
  - destruct (mapM _ kids) as [kids'|] eqn:E; [|done]. cbn. intros [= <-].
    rewrite !textContent_Element. revert kids' E.
    induction IH as [|k kids Hk _ IHk]; intros kids'; [by intros [= <-]|].
    cbn [mapM]. destruct (SingleList.processSubtreeAt sc r _ k) as [k'|] eqn:Ek; [|done].
    cbn [mbind outcome_bind]. destruct (mapM _ kids) as [rest|]; [|done]. cbn.
    intros [= <-]. cbn [textOf flat_map]. fold (textOf rest). fold (textOf kids).
    rewrite (IHk rest eq_refl). f_equal. by eapply Hk.
Qed.

Lemma single_processSubtreeAt_agrees old new r a n :
  (∀ a root, SingleList.processSubtree old a root = processSubtree new a root) →
  SingleList.processSubtreeAt old r a n = processSubtreeAt new r a n.
Proof.
  intros Hagree. revert a.
  induction n as [ref v|ref tag cls attrs kids IH|ref t] using node_ind'; intros a; [done| |done].
  rewrite single_processSubtreeAt_Element, processSubtreeAt_Element, Hagree.
  destruct (bool_decide (ref = Some r)); [done|]. set (b := a || _). clearbody b.
  assert (H : mapM (SingleList.processSubtreeAt old r b) kids = mapM (processSubtreeAt new r b) kids);
    [|by rewrite H].
  induction IH as [|k kids Hk _ IHk]; [done|]. cbn [mapM]. by rewrite Hk, IHk.
Qed.

Lemma single_observeAdded_Diverges sc refs :
  foldl (SingleList.observeAdded sc) Diverges refs = Diverges.
Proof. induction refs as [|r refs IH]; [done|]. cbn. apply IH. Qed.

Lemma single_onMutations_foldl sc changes page :
  SingleList.onMutations sc changes page =
  foldl (SingleList.observeAdded sc) (Done ([], page)) (flat_map addedNodes changes).
Proof.
  unfold SingleList.onMutations, SingleList.observerCallback.
  rewrite <- (addedNodes_observed changes).
  generalize (Done ([], page) : outcome (list nat * list node)).
  induction (filter _ changes) as [|m ms IH]; intros st; [done|].
  cbn [foldl flat_map]. by rewrite foldl_app, IH.
Qed.

Lemma single_observeAdded_text sc refs scanned0 page0 scanned page' :
  global (SingleList.pattern sc) = true →
  foldl (SingleList.observeAdded sc) (Done (scanned0, page0)) refs = Done (scanned, page') →
  map textContent page' = map textContent page0.
Proof.
  intros Hg. revert scanned0 page0. induction refs as [|r refs IH]; intros scanned0 page0.
  - cbn. by intros [= <- <-].
  - cbn [foldl]. unfold SingleList.observeAdded at 2. cbn [mbind outcome_bind].
    assert (Hscan : ∀ page1, mapM (SingleList.processSubtreeAt sc r false) page0 = Done page1 →
                             map textContent page1 = map textContent page0).
    { intros page1. revert page1. induction page0 as [|t page0 IHp]; intros page1.
      - by intros [= <-].
      - cbn [mapM]. destruct (SingleList.processSubtreeAt sc r false t) as [t'|] eqn:Et; [|done].
        cbn [mbind outcome_bind]. destruct (mapM _ page0) as [rest|]; [|done]. cbn.
        intros [= <-]. cbn [map]. rewrite (IHp rest eq_refl). f_equal.
        by eapply single_processSubtreeAt_text. }
    destruct (findInPage r page0) as [[ref v|ref tag cls attrs kids|ref t]|]; try apply IH.
    destruct (negb _ && negb _); [|apply IH].
    destruct (mapM (SingleList.processSubtreeAt sc r false) page0) as [page1|] eqn:E;
      cbn [mbind outcome_bind]; [|by rewrite single_observeAdded_Diverges].
    intros H. apply IH in H. rewrite H. by apply Hscan.
Qed.

Lemma single_observeAdded_agrees old new st r :
  (∀ a root, SingleList.processSubtree old a root = processSubtree new a root) →
  SingleList.observeAdded old st r = observeAdded new st r.
Proof.
  intros Hagree. unfold SingleList.observeAdded, observeAdded.
  destruct st as [[scanned page]|]; [|done]. cbn [mbind outcome_bind].
  destruct (findInPage r page) as [[ref v|ref tag cls attrs kids|ref t]|]; try done.
  destruct (negb _ && negb _); [|done].
  assert (H : mapM (SingleList.processSubtreeAt old r false) page =
              mapM (processSubtreeAt new r false) page); [|by rewrite H].
  induction page as [|t0 page IH]; [done|]. cbn [mapM].
  by rewrite (single_processSubtreeAt_agrees old new r false t0 Hagree), IH.
Qed.

(** X20. The observer of the older script.  Whatever a batch of changes
    makes the older callback do, every tree of the page has afterwards the
    text content it had; what it does depends on the added nodes of the
    batch alone; and for a list of entries with tidy names and non-empty
    anchors whose names have neither a space nor a backslash it does for
    every batch and page what the callback of the script with an undefined
    case-sensitive list does. *)
Theorem X20_single_list_observer (l : list NameEntry) (old : SingleList.Script) :
  SingleList.loadScript l = Some old →
  (∀ changes page scanned page',
     SingleList.onMutations old changes page = Done (scanned, page') →
     map textContent page' = map textContent page) ∧
  (∀ changes changes' page,
     map addedNodes changes' = map addedNodes changes →
     SingleList.onMutations old changes' page = SingleList.onMutations old changes page) ∧
  (l ≠ [] → Forall wellFormedEntry l →
   Forall (fun e => (" "%char ∉ name e) ∧ ("\"%char ∉ name e)) l →
   ∀ new, loadScript l None = Some new →
          ∀ changes page, SingleList.onMutations old changes page = onMutations new changes page).
Proof.
  intros Hold.
  assert (Hg : global (SingleList.pattern old) = true).
  { rewrite SingleList_compiled in Hold. by injection Hold as <-. }
  split_and!.
  - intros changes page scanned page'. rewrite single_onMutations_foldl.
    by apply single_observeAdded_text.
  - intros changes changes' page Heq. rewrite !single_onMutations_foldl.
    rewrite !flat_map_concat_map. by rewrite Heq.
  - intros Hl Hwf Hns new Hnew changes page.
    rewrite single_onMutations_foldl, onMutations_foldl.
    assert (Hagree : ∀ a root, SingleList.processSubtree old a root = processSubtree new a root).
    { rewrite SingleList_compiled in Hold. injection Hold as <-.
      intros a root. apply single_processSubtree_agrees.
      - by apply loadScript_spec in Hnew as (_ & -> & _).
      - intros text. destruct (variants_agree l text Hwf Hns) as [Ha Hag].
        rewrite loadScript_scriptOf in Hnew. injection Hnew as <-.
        rewrite Ha. by apply Hag. }
    generalize (Done ([], page) : outcome (list nat * list node)).
    induction (flat_map addedNodes changes) as [|r refs IH]; intros st; [done|].
    cbn [foldl]. by rewrite (single_observeAdded_agrees old new st r Hagree), IH.
Qed.

Lemma X20_single_list_observer_witness :
  ∃ old scanned page',
    SingleList.loadScript billList = Some old ∧
    SingleList.onMutations old [ChildList [1; 3] [7]; CharacterData 2] examplePage =
      Done (scanned, page') ∧
    map textContent page' = map textContent examplePage.
Proof.
  eexists.
  match goal with |- ∃ scanned page', ?L = Some ?sc ∧ _ =>
    destruct (X20_single_list_observer billList sc) as (Ht & _ & _)
  end.
  - apply SingleList_compiled.
  - do 2 eexists. split; [apply SingleList_compiled|].
    match goal with |- ?A = Done (?s, ?p) ∧ _ =>
      assert (E : A = Done ([1],
                [Element (Some 0) (lit "BODY") [] []
                   [Element (Some 1) (lit "P") [] []
                      [createHighlight (lit "Bill Clinton") (lit "Bill_Clinton")];
                    Text (Some 3) (lit "Bill Clinton")]])) by (vm_compute; reflexivity)
    end.
    split; [exact E|]. exact (Ht _ _ _ _ E).
Defined.

(** ** Outside the scanned elements *)

Lemma pruneAt_Element rs ref tag cls attrs kids :
  pruneAt rs (Element ref tag cls attrs kids) =
  Element ref tag cls attrs (if namedBy rs ref then [] else map (pruneAt rs) kids).
Proof. reflexivity. Qed.

Lemma processSubtreeAt_prune sc r a rs n n' :
  r ∈ rs → processSubtreeAt sc r a n = Done n' → pruneAt rs n' = pruneAt rs n.
Proof.
  intros Hr. revert a n'.
  induction n as [ref v|ref tag cls attrs kids IH|ref t] using node_ind';
    intros a n'; [by intros [= <-]| |by intros [= <-]].
  rewrite processSubtreeAt_Element. case_bool_decide as Href.
  - intros H. apply processSubtree_is_Element in H as (kids' & -> & _).
    rewrite !pruneAt_Element. subst ref. cbn [namedBy]. by rewrite bool_decide_true.
  - destruct (mapM _ kids) as [kids'|] eqn:E; [|done]. cbn. intros [= <-].
    rewrite !pruneAt_Element. destruct (namedBy rs ref); [done|]. f_equal.
    revert kids' E. induction IH as [|k kids Hk _ IHk]; intros kids'; [by intros [= <-]|].
    cbn [mapM]. destruct (processSubtreeAt sc r _ k) as [k'|] eqn:Ek; [|done].
    cbn [mbind outcome_bind]. destruct (mapM _ kids) as [rest|]; [|done]. cbn.
    intros [= <-]. cbn [map]. rewrite (IHk rest eq_refl). f_equal. by eapply Hk.
Qed.

Lemma scanPage_prune sc r rs page page' :
  r ∈ rs → mapM (processSubtreeAt sc r false) page = Done page' →
  map (pruneAt rs) page' = map (pruneAt rs) page.
Proof.
  intros Hr. revert page'. induction page as [|t page IH]; intros page'.
  - by intros [= <-].
  - cbn [mapM]. destruct (processSubtreeAt sc r false t) as [t'|] eqn:Et; [|done].
    cbn [mbind outcome_bind]. destruct (mapM _ page) as [rest|]; [|done]. cbn.
    intros [= <-]. cbn [map]. rewrite (IH rest eq_refl). f_equal.
    by eapply processSubtreeAt_prune.
Qed.

Lemma foldl_observeAdded_prune sc refs scanned0 page0 scanned page' :
  foldl (observeAdded sc) (Done (scanned0, page0)) refs = Done (scanned, page') →
  (∀ x, x ∈ scanned0 → x ∈ scanned) ∧
  (∀ rs, (∀ x, x ∈ scanned → x ∈ rs) →
         map (pruneAt rs) page' = map (pruneAt rs) page0).
Proof.
  revert scanned0 page0. induction refs as [|r refs IH]; intros scanned0 page0.
  - cbn. by intros [= <- <-].
  - cbn [foldl]. rewrite observeAdded_spec. destruct (qualifies page0 r); [|apply IH].
    destruct (mapM (processSubtreeAt sc r false) page0) as [page1|] eqn:E;
      cbn [mbind outcome_bind]; [|by rewrite foldl_observeAdded_Diverges].
    intros H. apply IH in H as [Hsub Hprune]. split.
    + intros x Hx. apply Hsub, elem_of_app. by left.
    + intros rs Hrs. rewrite (Hprune rs Hrs). eapply scanPage_prune; [|done].
      apply Hrs, Hsub, elem_of_app. right. by left.
Qed.

(** X21. The callback changes nothing outside the elements it scans.  The
    nodes that the callback scans are added nodes of the batch, and the
    page without what lies below the scanned elements is after the batch
    what it was before: every other node is where it was and as it was. *)
Theorem X21_observer_is_local (sc : Script) (changes : list MutationRecord)
    (page : list node) (scanned : list nat) (page' : list node) :
  onMutations sc changes page = Done (scanned, page') →
  map (pruneAt scanned) page' = map (pruneAt scanned) page ∧
  (∀ r, r ∈ scanned → r ∈ flat_map addedNodes changes).
Proof.
  rewrite onMutations_foldl. intros H. split.
  - by apply (foldl_observeAdded_prune _ _ _ _ _ _ H).
  - revert H. generalize (flat_map addedNodes changes). intros refs.
    assert (G : ∀ scanned0 page0,
              foldl (observeAdded sc) (Done (scanned0, page0)) refs = Done (scanned, page') →
              ∀ r, r ∈ scanned → r ∈ scanned0 ∨ r ∈ refs).
    { induction refs as [|r0 refs IH]; intros scanned0 page0.
      - cbn. intros [= <- <-] r Hr. by left.
      - cbn [foldl]. rewrite observeAdded_spec. destruct (qualifies page0 r0).
        + destruct (mapM (processSubtreeAt sc r0 false) page0) as [page1|] eqn:E;
            cbn [mbind outcome_bind]; [|by rewrite foldl_observeAdded_Diverges].
          intros H r Hr. destruct (IH _ _ H r Hr) as [Hin|Hin].
          * apply elem_of_app in Hin as [Hin|Hin]; [by left|].
            apply list_elem_of_singleton in Hin as ->. right. by left.
          * right. by right.
        + intros H r Hr. destruct (IH _ _ H r Hr) as [Hin|Hin]; [by left|right; by right]. }
    intros H r Hr. destruct (G [] page H r Hr) as [Hin|Hin]; [by apply elem_of_nil in Hin|done].
Qed.

Lemma X21_observer_is_local_witness :
  map (pruneAt [1])
    [Element (Some 0) (lit "BODY") [] []
       [Element (Some 1) (lit "P") [] []
          [createHighlight (lit "Bill Clinton") (lit "Bill_Clinton")];
        Text (Some 3) (lit "Bill Clinton")]] =
  map (pruneAt [1]) examplePage.
Proof.
  apply (X21_observer_is_local (scriptOf billList None)
           [ChildList [1; 3] [7]; CharacterData 2] examplePage [1]).
  vm_compute. reflexivity.
Defined.

(** ** Longest name first *)










(** ** Case-sensitive and case-insensitive names in running text *)

Lemma C6_counterexample :
  (∃ sc, loadScript [entry "Bill  Clinton" "Bill_Clinton"] None = Some sc ∧
         highlightTextNode sc (Text None (lit "Bill  Clinton")) =
         Done ([false], [Text None (lit "Bill  Clinton")])) ∧
  (∃ sc, loadScript mainList (Some [entry "Donald  Trump" "Donald_Trump"]) = Some sc ∧
         highlightTextNode sc (Text None (lit "Donald  Trump")) =
         Done ([false; true], [Text None (lit "Donald  Trump")])) ∧
  (∃ sc, loadScript missList None = Some sc ∧
         highlightTextNode sc (Text None (lit "Bill  Clinton")) =
         Done ([false], [Text None (lit "Bill  Clinton")]) ∧
         highlightTextNode sc (Text None (lit "Mr Clinton")) =
         Done ([false], [Text None (lit "Mr ");
                         createHighlight (lit "Clinton") (lit "Clinton")])) ∧
  (∃ sc, loadScript mainList (Some csList) = Some sc ∧
         highlightTextNode sc (Text None (lit "Bill Clinton met Trump")) =
         Done ([false], [createHighlight (lit "Bill Clinton") (lit "Bill_Clinton");
                         Text None (lit " met Trump")]) ∧
         highlightTextNode sc (Text None (lit "He met Trump")) =
         Done ([false; true], [Text None (lit "He met ");
                               createHighlight (lit "Trump") (lit "Donald_Trump")])).
Proof.
  split_and!; eexists; (split; [apply loadScript_scriptOf|]);
    try split; vm_compute; reflexivity.
Qed.

(** C6 (as the code has it).  Case-sensitivity of the partitions, for
    entries with names and anchors that are not empty and for names that are
    tidy.  In running text: an occurrence of a name of the main list, in any
    casing, lies under a marker of the scan that links to an entry of the
    main list; an occurrence of a name of the case-sensitive list in its
    exact casing lies under a marker that links to an entry of that list,
    when the main pass leaves the node alone (when it does not, the
    case-sensitive pattern is not tried).  For a text node that is the name
    from end to end: a tidy name of the main list in any casing becomes one
    marker; a tidy name of the case-sensitive list spelled exactly becomes
    one marker under the case-sensitive pattern, and in the scan when the
    main pass leaves it alone.  Every marker of the case-sensitive pass
    carries a text that, normalised, is a name of the case-sensitive list
    letter for letter.  And no scan marks a differently cased spelling of a
    tidy name that only the case-sensitive list has. *)
Theorem C6_case_sensitivity (l : list NameEntry) (cs : option (list NameEntry))
    (sc : Script) :
  loadScript l cs = Some sc →
  Forall validEntry l → Forall validEntry (default [] cs) →
  (Forall (fun e => tidy (name e) = true) l →
   ∀ e pre occ post r, e ∈ l →
     toLowerCase (collapseWhiteSpace occ) = toLowerCase (name e) →
     ∃ ms i m e',
       highlightTextNode sc (Text r (pre ++ occ ++ post)) =
         Done ([false], decompose (pre ++ occ ++ post) 0 ms) ∧
       (i, m, anchor e') ∈ ms ∧ e' ∈ l ∧
       createHighlight m (anchor e') ∈ decompose (pre ++ occ ++ post) 0 ms ∧
       m = slice (pre ++ occ ++ post) i (i + length m) ∧
       i ≤ length pre ∧ length pre < i + length m) ∧
  (Forall (fun e => tidy (name e) = true) (default [] cs) →
   ∀ e pre occ post r, e ∈ default [] cs →
     collapseWhiteSpace occ = name e →
     applyPattern sc (mainPattern sc) false (pre ++ occ ++ post) = Done None →
     ∃ ms i m e',
       highlightTextNode sc (Text r (pre ++ occ ++ post)) =
         Done ([false; true], decompose (pre ++ occ ++ post) 0 ms) ∧
       (i, m, anchor e') ∈ ms ∧ e' ∈ default [] cs ∧
       createHighlight m (anchor e') ∈ decompose (pre ++ occ ++ post) 0 ms ∧
       m = slice (pre ++ occ ++ post) i (i + length m) ∧
       i ≤ length pre ∧ length pre < i + length m) ∧
  (∀ e t r, e ∈ l → tidy (name e) = true →
     toLowerCase t = toLowerCase (name e) →
     ∃ e', e' ∈ l ∧ toLowerCase (name e') = toLowerCase (name e) ∧
           highlightTextNode sc (Text r t) =
           Done ([false], [createHighlight t (anchor e')])) ∧
  (∀ re e, csPattern sc = Some re → e ∈ default [] cs → tidy (name e) = true →
     ∃ e', e' ∈ default [] cs ∧ name e' = name e ∧
           applyPattern sc re true (name e) =
             Done (Some [createHighlight (name e) (anchor e')]) ∧
           ∀ r, applyPattern sc (mainPattern sc) false (name e) = Done None →
                highlightTextNode sc (Text r (name e)) =
                Done ([false; true], [createHighlight (name e) (anchor e')])) ∧
  (∀ re text frag m a, csPattern sc = Some re →
     applyPattern sc re true text = Done (Some frag) →
     createHighlight m a ∈ frag →
     ∃ e, e ∈ default [] cs ∧ name e = trim (collapseWhiteSpace m) ∧ anchor e = a) ∧
  (∀ e t r text log nodes a, e ∈ default [] cs → tidy (name e) = true →
     toLowerCase t = toLowerCase (name e) →
     (∀ e', e' ∈ default [] cs → name e' ≠ t) →
     (∀ e', e' ∈ l → toLowerCase (name e') ≠ toLowerCase (name e)) →
     highlightTextNode sc (Text r text) = Done (log, nodes) →
     createHighlight t a ∉ nodes).
Proof.
  intros Hsc Hv Hvcs. destruct (loadScript_global _ _ _ Hsc) as [Hg Hgcs].
  assert (Hwell : ∀ L, Forall validEntry L → Forall (fun e => tidy (name e) = true) L →
                       Forall wellFormedEntry L).
  { intros L H1 H2. rewrite Forall_forall in *. intros x Hx.
    split; [by apply H2|by apply H1]. }
  split_and!.
  - intros Ht e pre occ post r He Hk.
    destruct (pass_covers l cs sc false e pre occ post Hsc (Hwell _ Hv Ht) He Hk)
      as (ms & i & m & e' & Hap & H).
    exists ms, i, m, e'. split; [|done].
    cbn [highlightTextNode]. rewrite (mainPattern_loaded _ _ _ Hsc).
    cbn [partition] in Hap. by rewrite Hap.
  - intros Ht e pre occ post r He Hk Hmain.
    destruct (pass_covers l cs sc true e pre occ post Hsc (Hwell _ Hvcs Ht) He Hk)
      as (ms & i & m & e' & Hap & H).
    exists ms, i, m, e'. split; [|done].
    cbn [highlightTextNode]. rewrite Hmain. cbn [mbind outcome_bind].
    cbn [partition] in Hap.
    assert (Hcs : csPattern sc = Some (patternOf (default [] cs) true)).
    { pose proof Hsc as Hsc'. apply loadScript_spec in Hsc' as (_ & -> & _).
      destruct cs as [[|e0 csl]|]; [by apply elem_of_nil in He|done|by apply elem_of_nil in He]. }
    rewrite Hcs, Hap. done.
  - intros e t r He Hte Hk.
    destruct (applyPattern_name l cs sc false e t Hsc Hv He Hte Hk) as (e' & He' & Hke & Hap).
    exists e'. split_and!; [done|done|].
    cbn [highlightTextNode]. rewrite (mainPattern_loaded _ _ _ Hsc).
    cbn [partition] in Hap. by rewrite Hap.
  - intros re e Hre He Hte.
    destruct (csPattern_loaded _ _ _ _ Hsc Hre) as (csl & -> & Hne & ->).
    destruct (applyPattern_name l (Some csl) sc true e (name e) Hsc Hvcs He Hte eq_refl)
      as (e' & He' & Hke & Hap).
    exists e'. split_and!; [done|done|done|].
    intros r Hmain. cbn [highlightTextNode]. rewrite Hmain. cbn [mbind outcome_bind].
    rewrite Hre. cbn [partition default from_option id] in Hap. by rewrite Hap.
  - intros re text frag m a Hre Hap Hin.
    apply applyPattern_marker with (m := m) (a := a) in Hap as (_ & Hlook & _);
      [|by apply Hgcs|done].
    destruct (lookupAnchor_entry _ _ _ _ _ _ Hsc Hlook) as (e & He & Ha & Hk).
    by exists e.
  - intros e t r text log nodes a He Hte Hk Hcs Hci Hscan Hin.
    assert (Hnorm : trim (collapseWhiteSpace t) = t).
    { apply tidy_normalised. by apply (keyOf_tidy false t (name e)). }
    cbn [highlightTextNode] in Hscan.
    destruct (applyPattern sc (mainPattern sc) false text) as [[frag|]|] eqn:E1;
      cbn [mbind outcome_bind] in Hscan; [| |done].
    + injection Hscan as <- <-.
      apply applyPattern_marker with (m := t) (a := a) in E1 as (_ & Hlook & _); [|done|done].
      destruct (lookupAnchor_entry _ _ _ _ _ _ Hsc Hlook) as (e' & He' & _ & Hk').
      cbn [partition keyOf] in *. rewrite Hnorm in Hk'. apply (Hci e' He'). congruence.
    + destruct (csPattern sc) as [re|] eqn:Hre.
      * destruct (applyPattern sc re true text) as [[frag|]|] eqn:E2;
          cbn [mbind outcome_bind default] in Hscan; [| |done].
        -- injection Hscan as <- <-.
           apply applyPattern_marker with (m := t) (a := a) in E2 as (_ & Hlook & _);
             [|by apply Hgcs|done].
           destruct (lookupAnchor_entry _ _ _ _ _ _ Hsc Hlook) as (e' & He' & _ & Hk').
           cbn [partition keyOf] in *. rewrite Hnorm in Hk'. by apply (Hcs e' He').
        -- injection Hscan as <- <-. apply list_elem_of_singleton in Hin. done.
      * injection Hscan as <- <-. apply list_elem_of_singleton in Hin. done.
Qed.

Lemma C6_case_sensitivity_witness :
  (∃ ms i m e',
     highlightTextNode (scriptOf mainList (Some csList))
       (Text None (lit "He met " ++ lit "Trump" ++ lit " today")) =
       Done ([false; true], decompose (lit "He met " ++ lit "Trump" ++ lit " today") 0 ms) ∧
     (i, m, anchor e') ∈ ms ∧ e' ∈ csList ∧ i ≤ 7 ∧ 7 < i + length m) ∧
  (∃ ms i m e',
     highlightTextNode (scriptOf mainList (Some csList))
       (Text None (lit "with " ++ lit "BILL  clinton" ++ lit ".")) =
       Done ([false], decompose (lit "with " ++ lit "BILL  clinton" ++ lit ".") 0 ms) ∧
     (i, m, anchor e') ∈ ms ∧ e' ∈ mainList ∧ i ≤ 5 ∧ 5 < i + length m) ∧
  (∃ e', e' ∈ csList ∧ name e' = lit "Trump" ∧
         applyPattern (scriptOf mainList (Some csList)) (patternOf csList true) true
           (lit "Trump") =
         Done (Some [createHighlight (lit "Trump") (anchor e')])) ∧
  createHighlight (lit "trump") (lit "Donald_Trump") ∉ [Text None (lit "trump")].
Proof.
  destruct (C6_case_sensitivity mainList (Some csList) (scriptOf mainList (Some csList)))
    as (HA & HR & _ & HB & _ & HD).
  - apply loadScript_scriptOf.
  - repeat constructor; discriminate.
  - repeat constructor; discriminate.
  - split_and!.
    + destruct (HR ltac:(repeat constructor) (entry "Trump" "Donald_Trump")
                  (lit "He met ") (lit "Trump") (lit " today") None)
        as (ms & i & m & e' & H & Hin & He' & _ & _ & H1 & H2);
        [by left|reflexivity|vm_compute; reflexivity|].
      exists ms, i, m, e'. split_and!; [exact H|exact Hin|exact He'|exact H1|exact H2].
    + destruct (HA ltac:(repeat constructor) (entry "Bill Clinton" "Bill_Clinton")
                  (lit "with ") (lit "BILL  clinton") (lit ".") None)
        as (ms & i & m & e' & H & Hin & He' & _ & _ & H1 & H2);
        [by left|vm_compute; reflexivity|].
      exists ms, i, m, e'. split_and!; [exact H|exact Hin|exact He'|exact H1|exact H2].
    + destruct (HB (patternOf csList true) (entry "Trump" "Donald_Trump") eq_refl)
        as (e' & He' & Hn & Hap & _); [by left|reflexivity|].
      exists e'. by split_and!.
    + apply (HD (entry "Trump" "Donald_Trump") (lit "trump") None (lit "trump")
               [false; true]).
      * by left.
      * reflexivity.
      * reflexivity.
      * intros e' He'. apply list_elem_of_singleton in He' as ->. discriminate.
      * intros e' He'. apply list_elem_of_singleton in He' as ->. discriminate.
      * vm_compute. reflexivity.
Defined.

(** ** The mutation watcher and the scans it starts *)





Lemma scanAll_Diverges sc rs :
  foldl (fun st r => page ← st; mapM (processSubtreeAt sc r false) page) Diverges rs =
  Diverges.
Proof. induction rs as [|r rs IH]; [done|]. cbn. apply IH. Qed.




